(** * Portal subsystem of sweriko/euclid: a shallow embedding and its properties

    The TypeScript sources embedded here are
      - src/portal/Portal.ts          (class Portal)
      - src/portal/PortalUtils.ts     (free functions)
      - src/portal/PortalRenderer.ts  (class PortalRenderer)
    together with the few three.js operations they call (Vector3,
    Quaternion, Plane, Matrix3, Matrix4, Object3D.add/remove).

    JavaScript numbers are modelled as real numbers: every statement below is
    about exact arithmetic, not about IEEE-754 rounding. *)

From Stdlib Require Import Reals Lra RNsatz List.
From stdpp Require Import base decidable option list functions strings.
Import ListNotations.

Local Open Scope R_scope.

(** ** three.js values *)

Module Three.

(** [THREE.Vector3] *)
Record Vector3 : Type := vec3 { vx : R; vy : R; vz : R }.

(** [THREE.Quaternion]; [new THREE.Quaternion()] is (0,0,0,1). *)
Record Quaternion : Type := quat { qx : R; qy : R; qz : R; qw : R }.

Definition Quaternion_new : Quaternion := quat 0 0 0 1.

(** [a.sub(b)], [a.add(b)], [a.dot(b)], [v.multiplyScalar(s)] *)
Definition sub (a b : Vector3) : Vector3 :=
  vec3 (vx a - vx b) (vy a - vy b) (vz a - vz b).

Definition add (a b : Vector3) : Vector3 :=
  vec3 (vx a + vx b) (vy a + vy b) (vz a + vz b).

Definition dot (a b : Vector3) : R :=
  vx a * vx b + vy a * vy b + vz a * vz b.

Definition multiplyScalar (v : Vector3) (s : R) : Vector3 :=
  vec3 (vx v * s) (vy v * s) (vz v * s).

(** [v.length()] and [v.lengthSq()] *)
Definition lengthSq (v : Vector3) : R := vx v * vx v + vy v * vy v + vz v * vz v.
Definition length (v : Vector3) : R := sqrt (lengthSq v).

(** [Vector3.applyQuaternion(q)]:
<<
    const tx = 2 * ( qy * vz - qz * vy );
    const ty = 2 * ( qz * vx - qx * vz );
    const tz = 2 * ( qx * vy - qy * vx );
    this.x = vx + qw * tx + qy * tz - qz * ty;
    this.y = vy + qw * ty + qz * tx - qx * tz;
    this.z = vz + qw * tz + qx * ty - qy * tx;
>>
    (the quaternion is assumed, not checked, to have unit length). *)
Definition applyQuaternion (v : Vector3) (q : Quaternion) : Vector3 :=
  let tx := 2 * (qy q * vz v - qz q * vy v) in
  let ty := 2 * (qz q * vx v - qx q * vz v) in
  let tz := 2 * (qx q * vy v - qy q * vx v) in
  vec3 (vx v + qw q * tx + qy q * tz - qz q * ty)
       (vy v + qw q * ty + qz q * tx - qx q * tz)
       (vz v + qw q * tz + qx q * ty - qy q * tx).

(** [q.invert()] is [q.conjugate()]: the vector part is negated. *)
Definition invert (q : Quaternion) : Quaternion :=
  quat (qx q * -1) (qy q * -1) (qz q * -1) (qw q).

(** [a.multiply(b)], i.e. [multiplyQuaternions(a, b)] *)
Definition multiply (a b : Quaternion) : Quaternion :=
  quat (qx a * qw b + qw a * qx b + qy a * qz b - qz a * qy b)
       (qy a * qw b + qw a * qy b + qz a * qx b - qx a * qz b)
       (qz a * qw b + qw a * qz b + qx a * qy b - qy a * qx b)
       (qw a * qw b - qx a * qx b - qy a * qy b - qz a * qz b).

(** [q.setFromAxisAngle(axis, angle)] *)
Definition setFromAxisAngle (axis : Vector3) (angle : R) : Quaternion :=
  let halfAngle := angle / 2 in
  let s := sin halfAngle in
  quat (vx axis * s) (vy axis * s) (vz axis * s) (cos halfAngle).

(** [q.setFromEuler(euler)] for the default rotation order 'XYZ'. *)
Record Euler : Type := euler { ex : R; ey : R; ez : R }.

Definition setFromEuler (e : Euler) : Quaternion :=
  let c1 := cos (ex e / 2) in
  let c2 := cos (ey e / 2) in
  let c3 := cos (ez e / 2) in
  let s1 := sin (ex e / 2) in
  let s2 := sin (ey e / 2) in
  let s3 := sin (ez e / 2) in
  quat (s1 * c2 * c3 + c1 * s2 * s3)
       (c1 * s2 * c3 - s1 * c2 * s3)
       (c1 * c2 * s3 + s1 * s2 * c3)
       (c1 * c2 * c3 - s1 * s2 * s3).

(** Squared norm of a quaternion; orientations are the quaternions of
    squared norm 1. *)
Definition qnormSq (q : Quaternion) : R :=
  qx q * qx q + qy q * qy q + qz q * qz q + qw q * qw q.

Definition unit (q : Quaternion) : Prop := qnormSq q = 1.

(** Comparisons of numbers are decided, as [<], [>] and [===] are in
    JavaScript. *)
#[global] Instance Rlt_decision (x y : R) : Decision (x < y) := Rlt_dec x y.
#[global] Instance Rgt_decision (x y : R) : Decision (x > y) := Rgt_dec x y.
#[global] Instance Rle_decision (x y : R) : Decision (x <= y) := Rle_dec x y.
#[global] Instance Rge_decision (x y : R) : Decision (x >= y) := Rge_dec x y.
#[global] Instance Req_decision : EqDecision R := Req_dec_T.

(** [Math.sign] and [Math.max] *)
Definition Math_sign (x : R) : R :=
  if decide (x > 0) then 1 else if decide (x < 0) then -1 else 0.

Definition Math_max (a b : R) : R := Rmax a b.

(** [v.negate()] and [v.normalize()], the latter being
    [this.divideScalar( this.length() || 1 )]. *)
Definition negate (v : Vector3) : Vector3 := vec3 (- vx v) (- vy v) (- vz v).

Definition divideScalar (v : Vector3) (s : R) : Vector3 := multiplyScalar v (1 / s).

Definition normalize (v : Vector3) : Vector3 :=
  divideScalar v (if decide (length v = 0) then 1 else length v).

(** [THREE.Matrix4] and [THREE.Matrix3]: the [elements] array, column-major,
    of 16 and of 9 numbers. [elt m i] is [m.elements[i]]. *)
Definition Matrix4 : Type := list R.
Definition Matrix3 : Type := list R.

Definition elt (m : list R) (i : nat) : R := nth i m 0.

Definition Matrix4_identity : Matrix4 :=
  [1; 0; 0; 0;  0; 1; 0; 0;  0; 0; 1; 0;  0; 0; 0; 1].

(** [v.applyMatrix4(m)], with its perspective divide, and [v.applyMatrix3(m)] *)
Definition applyMatrix4 (v : Vector3) (m : Matrix4) : Vector3 :=
  let w := 1 / (elt m 3 * vx v + elt m 7 * vy v + elt m 11 * vz v + elt m 15) in
  vec3 ((elt m 0 * vx v + elt m 4 * vy v + elt m 8 * vz v + elt m 12) * w)
       ((elt m 1 * vx v + elt m 5 * vy v + elt m 9 * vz v + elt m 13) * w)
       ((elt m 2 * vx v + elt m 6 * vy v + elt m 10 * vz v + elt m 14) * w).

Definition applyMatrix3 (v : Vector3) (m : Matrix3) : Vector3 :=
  vec3 (elt m 0 * vx v + elt m 3 * vy v + elt m 6 * vz v)
       (elt m 1 * vx v + elt m 4 * vy v + elt m 7 * vz v)
       (elt m 2 * vx v + elt m 5 * vy v + elt m 8 * vz v).

(** [Matrix3.setFromMatrix4], [invert] (the zero matrix when the
    determinant is 0), [transpose] and [getNormalMatrix]. *)
Definition setFromMatrix4 (m : Matrix4) : Matrix3 :=
  [elt m 0; elt m 1; elt m 2;  elt m 4; elt m 5; elt m 6;  elt m 8; elt m 9; elt m 10].

Definition Matrix3_invert (m : Matrix3) : Matrix3 :=
  let n11 := elt m 0 in let n21 := elt m 1 in let n31 := elt m 2 in
  let n12 := elt m 3 in let n22 := elt m 4 in let n32 := elt m 5 in
  let n13 := elt m 6 in let n23 := elt m 7 in let n33 := elt m 8 in
  let t11 := n33 * n22 - n32 * n23 in
  let t12 := n32 * n13 - n33 * n12 in
  let t13 := n23 * n12 - n22 * n13 in
  let det := n11 * t11 + n21 * t12 + n31 * t13 in
  if decide (det = 0) then [0; 0; 0;  0; 0; 0;  0; 0; 0]
  else
    let detInv := 1 / det in
    [ t11 * detInv;
      (n31 * n23 - n33 * n21) * detInv;
      (n32 * n21 - n31 * n22) * detInv;
      t12 * detInv;
      (n33 * n11 - n31 * n13) * detInv;
      (n31 * n12 - n32 * n11) * detInv;
      t13 * detInv;
      (n21 * n13 - n23 * n11) * detInv;
      (n22 * n11 - n21 * n12) * detInv ].

Definition Matrix3_transpose (m : Matrix3) : Matrix3 :=
  [elt m 0; elt m 3; elt m 6;  elt m 1; elt m 4; elt m 7;  elt m 2; elt m 5; elt m 8].

Definition getNormalMatrix (m : Matrix4) : Matrix3 :=
  Matrix3_transpose (Matrix3_invert (setFromMatrix4 m)).

(** [THREE.Plane]: the points [p] with [normal . p + constant = 0]. *)
Record Plane : Type := plane { normal : Vector3; constant : R }.

Definition setFromNormalAndCoplanarPoint (n point : Vector3) : Plane :=
  plane n (- dot point n).

Definition distanceToPoint (p : Plane) (point : Vector3) : R :=
  dot (normal p) point + constant p.

Definition Plane_negate (p : Plane) : Plane :=
  plane (negate (normal p)) (constant p * -1).

Definition coplanarPoint (p : Plane) : Vector3 :=
  multiplyScalar (normal p) (- constant p).

(** [plane.applyMatrix4(matrix)]:
<<
    const normalMatrix = _normalMatrix.getNormalMatrix( matrix );
    const referencePoint = this.coplanarPoint( _vector1 ).applyMatrix4( matrix );
    const normal = this.normal.applyMatrix3( normalMatrix ).normalize();
    this.constant = - referencePoint.dot( normal );
>> *)
Definition Plane_applyMatrix4 (p : Plane) (m : Matrix4) : Plane :=
  let normalMatrix := getNormalMatrix m in
  let referencePoint := applyMatrix4 (coplanarPoint p) m in
  let n := normalize (applyMatrix3 (normal p) normalMatrix) in
  plane n (- dot referencePoint n).

(** [Matrix4.compose(position, quaternion, scale)] *)
Definition compose (position : Vector3) (q : Quaternion) (scale : Vector3) : Matrix4 :=
  let x := qx q in let y := qy q in let z := qz q in let w := qw q in
  let x2 := x + x in let y2 := y + y in let z2 := z + z in
  let xx := x * x2 in let xy := x * y2 in let xz := x * z2 in
  let yy := y * y2 in let yz := y * z2 in let zz := z * z2 in
  let wx := w * x2 in let wy := w * y2 in let wz := w * z2 in
  let sx := vx scale in let sy := vy scale in let sz := vz scale in
  [ (1 - (yy + zz)) * sx; (xy + wz) * sx; (xz - wy) * sx; 0;
    (xy - wz) * sy; (1 - (xx + zz)) * sy; (yz + wx) * sy; 0;
    (xz + wy) * sz; (yz - wx) * sz; (1 - (xx + yy)) * sz; 0;
    vx position; vy position; vz position; 1 ].

(** [Matrix4.invert()]: the adjugate over the determinant, and the zero
    matrix when the determinant is 0. *)
Definition Matrix4_invert (m : Matrix4) : Matrix4 :=
  let n11 := elt m 0 in let n21 := elt m 1 in let n31 := elt m 2 in let n41 := elt m 3 in
  let n12 := elt m 4 in let n22 := elt m 5 in let n32 := elt m 6 in let n42 := elt m 7 in
  let n13 := elt m 8 in let n23 := elt m 9 in let n33 := elt m 10 in let n43 := elt m 11 in
  let n14 := elt m 12 in let n24 := elt m 13 in let n34 := elt m 14 in let n44 := elt m 15 in
  let t11 := n23 * n34 * n42 - n24 * n33 * n42 + n24 * n32 * n43
             - n22 * n34 * n43 - n23 * n32 * n44 + n22 * n33 * n44 in
  let t12 := n14 * n33 * n42 - n13 * n34 * n42 - n14 * n32 * n43
             + n12 * n34 * n43 + n13 * n32 * n44 - n12 * n33 * n44 in
  let t13 := n13 * n24 * n42 - n14 * n23 * n42 + n14 * n22 * n43
             - n12 * n24 * n43 - n13 * n22 * n44 + n12 * n23 * n44 in
  let t14 := n14 * n23 * n32 - n13 * n24 * n32 - n14 * n22 * n33
             + n12 * n24 * n33 + n13 * n22 * n34 - n12 * n23 * n34 in
  let det := n11 * t11 + n21 * t12 + n31 * t13 + n41 * t14 in
  if decide (det = 0) then [0; 0; 0; 0;  0; 0; 0; 0;  0; 0; 0; 0;  0; 0; 0; 0]
  else
    let detInv := 1 / det in
    [ t11 * detInv;
      (n24 * n33 * n41 - n23 * n34 * n41 - n24 * n31 * n43
       + n21 * n34 * n43 + n23 * n31 * n44 - n21 * n33 * n44) * detInv;
      (n22 * n34 * n41 - n24 * n32 * n41 + n24 * n31 * n42
       - n21 * n34 * n42 - n22 * n31 * n44 + n21 * n32 * n44) * detInv;
      (n23 * n32 * n41 - n22 * n33 * n41 - n23 * n31 * n42
       + n21 * n33 * n42 + n22 * n31 * n43 - n21 * n32 * n43) * detInv;
      t12 * detInv;
      (n13 * n34 * n41 - n14 * n33 * n41 + n14 * n31 * n43
       - n11 * n34 * n43 - n13 * n31 * n44 + n11 * n33 * n44) * detInv;
      (n14 * n32 * n41 - n12 * n34 * n41 - n14 * n31 * n42
       + n11 * n34 * n42 + n12 * n31 * n44 - n11 * n32 * n44) * detInv;
      (n12 * n33 * n41 - n13 * n32 * n41 + n13 * n31 * n42
       - n11 * n33 * n42 - n12 * n31 * n43 + n11 * n32 * n43) * detInv;
      t13 * detInv;
      (n14 * n23 * n41 - n13 * n24 * n41 - n14 * n21 * n43
       + n11 * n24 * n43 + n13 * n21 * n44 - n11 * n23 * n44) * detInv;
      (n12 * n24 * n41 - n14 * n22 * n41 + n14 * n21 * n42
       - n11 * n24 * n42 - n12 * n21 * n44 + n11 * n22 * n44) * detInv;
      (n13 * n22 * n41 - n12 * n23 * n41 - n13 * n21 * n42
       + n11 * n23 * n42 + n12 * n21 * n43 - n11 * n22 * n43) * detInv;
      t14 * detInv;
      (n13 * n24 * n31 - n14 * n23 * n31 + n14 * n21 * n33
       - n11 * n24 * n33 - n13 * n21 * n34 + n11 * n23 * n34) * detInv;
      (n14 * n22 * n31 - n12 * n24 * n31 - n14 * n21 * n32
       + n11 * n24 * n32 + n12 * n21 * n34 - n11 * n22 * n34) * detInv;
      (n12 * n23 * n31 - n13 * n22 * n31 + n13 * n21 * n32
       - n11 * n23 * n32 - n12 * n21 * n33 + n11 * n22 * n33) * detInv ].

(** [Matrix4.makePerspective(left, right, top, bottom, near, far,
    coordinateSystem)]. The clip-space depth range is [-1, 1] in the
    WebGL convention (the default of a new camera) and [0, 1] in the WebGPU
    convention, which a [WebGPURenderer] on its WebGPU backend gives to the
    cameras it renders with. *)
Inductive CoordinateSystem : Type := WebGLCoordinateSystem | WebGPUCoordinateSystem.

Definition makePerspective (left right top bottom near far : R)
    (coordinateSystem : CoordinateSystem) : Matrix4 :=
  let x := 2 * near / (right - left) in
  let y := 2 * near / (top - bottom) in
  let a := (right + left) / (right - left) in
  let b := (top + bottom) / (top - bottom) in
  let c := match coordinateSystem with
           | WebGLCoordinateSystem => - (far + near) / (far - near)
           | WebGPUCoordinateSystem => - far / (far - near)
           end in
  let d := match coordinateSystem with
           | WebGLCoordinateSystem => (- 2 * far * near) / (far - near)
           | WebGPUCoordinateSystem => (- far * near) / (far - near)
           end in
  [ x; 0; 0; 0;
    0; y; 0; 0;
    a; b; c; -1;
    0; 0; d; 0 ].

(** [THREE.PerspectiveCamera], as far as the portal code reads and writes
    it. [camera.copy(source)] copies every field. *)
Record Camera : Type := mkCamera {
  cam_position : Vector3;
  cam_quaternion : Quaternion;
  cam_scale : Vector3;
  matrixWorld : Matrix4;
  matrixWorldInverse : Matrix4;
  projectionMatrix : Matrix4;
  projectionMatrixInverse : Matrix4
}.

(** [new THREE.PerspectiveCamera()]: fov 50, aspect 1, near 0.1, far 2000. *)
Definition PerspectiveCamera_new : Camera :=
  let top := 0.1 * tan (PI / 180 * 0.5 * 50) / 1 in
  let height := 2 * top in
  let width := 1 * height in
  let left := - 0.5 * width in
  let P := makePerspective left (left + width) top (top - height) 0.1 2000
             WebGLCoordinateSystem in
  mkCamera (vec3 0 0 0) Quaternion_new (vec3 1 1 1)
           Matrix4_identity Matrix4_identity P (Matrix4_invert P).

(** [camera.updateMatrixWorld(true)] for a camera without a parent. *)
Definition updateMatrixWorld (c : Camera) : Camera :=
  let m := compose (cam_position c) (cam_quaternion c) (cam_scale c) in
  mkCamera (cam_position c) (cam_quaternion c) (cam_scale c)
           m (Matrix4_invert m) (projectionMatrix c) (projectionMatrixInverse c).

(** [THREE.Vector4], with [dot] and [multiplyScalar]. *)
Record Vector4 : Type := vec4 { v4x : R; v4y : R; v4z : R; v4w : R }.

Definition Vector4_dot (a b : Vector4) : R :=
  v4x a * v4x b + v4y a * v4y b + v4z a * v4z b + v4w a * v4w b.

Definition Vector4_multiplyScalar (v : Vector4) (s : R) : Vector4 :=
  vec4 (v4x v * s) (v4y v * s) (v4z v * s) (v4w v * s).

(** Stencil state of a [THREE.Material]. *)
Inductive StencilFunc : Type :=
  AlwaysStencilFunc | EqualStencilFunc | NotEqualStencilFunc.

Record Material : Type := mkMaterial {
  colorWrite : bool;
  depthWrite : bool;
  stencilWrite : bool;
  stencilRef : nat;
  stencilFunc : StencilFunc
}.

(** A JavaScript number that may be [Infinity] or [-Infinity], with
    [Math.min] and [Math.max] on such numbers. *)
Inductive Num : Type := NegInfinity | Finite (r : R) | Infinity.

Definition Num_min (a b : Num) : Num :=
  match a, b with
  | NegInfinity, _ | _, NegInfinity => NegInfinity
  | Infinity, x | x, Infinity => x
  | Finite x, Finite y => Finite (Rmin x y)
  end.

Definition Num_max (a b : Num) : Num :=
  match a, b with
  | Infinity, _ | _, Infinity => Infinity
  | NegInfinity, x | x, NegInfinity => x
  | Finite x, Finite y => Finite (Rmax x y)
  end.

(** [q.setFromEuler(euler)] for the rotation order 'YXZ'. *)
Definition setFromEulerYXZ (e : Euler) : Quaternion :=
  let c1 := cos (ex e / 2) in
  let c2 := cos (ey e / 2) in
  let c3 := cos (ez e / 2) in
  let s1 := sin (ex e / 2) in
  let s2 := sin (ey e / 2) in
  let s3 := sin (ez e / 2) in
  quat (s1 * c2 * c3 + c1 * s2 * s3)
       (c1 * s2 * c3 - s1 * c2 * s3)
       (c1 * c2 * s3 - s1 * s2 * c3)
       (c1 * c2 * c3 + s1 * s2 * s3).

(** [a.equals(b)] on vectors: the components are the same numbers. *)
Definition Vector3_equals (a b : Vector3) : bool :=
  bool_decide (vx a = vx b) && bool_decide (vy a = vy b) && bool_decide (vz a = vz b).

(** [Math.min] *)
Definition Math_min (a b : R) : R := Rmin a b.

End Three.

Import Three.

(** ** src/portal/Portal.ts *)

(** Portals and scenes are JavaScript objects, compared by reference: they
    are named by identifiers, and the fields of the portals live in a heap
    that [link] mutates. *)
Abbreviation PortalId := nat (only parsing).
Abbreviation SceneId := nat (only parsing).

Module Portal.

Record t : Type := mk {
  id : string;
  width : R;
  height : R;
  position : Vector3;
  quaternion : Quaternion;
  _linkedPortal : option PortalId;
  scene : option SceneId;
  _normal : Vector3
}.

Abbreviation heap := (PortalId -> t) (only parsing).

(** The stencil-only material the constructor gives to the portal's mesh. *)
Definition _stencilMaterial_new : Material :=
  {| colorWrite := false; depthWrite := false; stencilWrite := true;
     stencilRef := 1; stencilFunc := AlwaysStencilFunc |}.

(** [new Portal(id, width, height, position, rotation?)] *)
Definition new (id : string) (width height : R) (position : Vector3)
    (rotation : option Euler) : t :=
  let q := match rotation with
           | Some r => setFromEuler r
           | None => Quaternion_new
           end in
  {| id := id; width := width; height := height; position := position;
     quaternion := q; _linkedPortal := None; scene := None;
     _normal := applyQuaternion (vec3 0 0 1) q |}.

Definition set_linkedPortal (p : t) (l : option PortalId) : t :=
  {| id := id p; width := width p; height := height p; position := position p;
     quaternion := quaternion p; _linkedPortal := l; scene := scene p;
     _normal := _normal p |}.

(** [portal.scene = scene], the public field set by the owner of the scene. *)
Definition set_scene (p : t) (sc : option SceneId) : t :=
  {| id := id p; width := width p; height := height p; position := position p;
     quaternion := quaternion p; _linkedPortal := _linkedPortal p; scene := sc;
     _normal := _normal p |}.

(** [this.link(portal)]:
<<
      this._linkedPortal = portal;
      if (portal._linkedPortal !== this) { portal.link(this); }
>>
    The method calls itself; [fuel] bounds the depth of the calls and [None]
    is the result of running out of it. *)
Fixpoint link (fuel : nat) (this portal : PortalId) (h : heap) : option heap :=
  match fuel with
  | O => None
  | S fuel' =>
      let h1 := <[this := set_linkedPortal (h this) (Some portal)]> h in
      if decide (_linkedPortal (h1 portal) <> Some this)
      then link fuel' portal this h1
      else Some h1
  end.

(** [get linkedPortal()] *)
Definition linkedPortal (h : heap) (this : PortalId) : option PortalId :=
  _linkedPortal (h this).

(** A sequence of calls [a.link(b)], in order. *)
Fixpoint links (fuel : nat) (calls : list (PortalId * PortalId)) (h : heap)
    : option heap :=
  match calls with
  | [] => Some h
  | (a, b) :: rest =>
      match link fuel a b h with
      | Some h' => links fuel rest h'
      | None => None
      end
  end.

(** Link symmetry of a heap: if A's link is B then B's link is A. *)
Definition symmetric (h : heap) : Prop :=
  forall a b : PortalId, linkedPortal h a = Some b -> linkedPortal h b = Some a.

(** The portal is unlinked, linked to itself, or linked to [b]. *)
Definition freeFor (h : heap) (a b : PortalId) : Prop :=
  linkedPortal h a = None \/ linkedPortal h a = Some a \/ linkedPortal h a = Some b.

(** [getPlane()] *)
Definition getPlane (p : t) : Plane :=
  setFromNormalAndCoplanarPoint (_normal p) (position p).

(** [getDestinationCameraTransform(viewerPosition, viewerQuaternion)] *)
Definition getDestinationCameraTransform (h : heap) (this : PortalId)
    (viewerPosition : Vector3) (viewerQuaternion : Quaternion)
    : Vector3 * Quaternion :=
  match _linkedPortal (h this) with
  | None => (viewerPosition, viewerQuaternion)
  | Some d =>
      let dest := h d in
      (* 1. viewer position relative to this portal *)
      let relativePos := sub viewerPosition (position (h this)) in
      (* 2. to the portal's local space *)
      let srcInverse := invert (quaternion (h this)) in
      let relativePos := applyQuaternion relativePos srcInverse in
      (* 3. rotate 180 degrees *)
      let relativePos := vec3 (- vx relativePos) (vy relativePos) (- vz relativePos) in
      (* 4. to the destination portal's world space *)
      let relativePos := applyQuaternion relativePos (quaternion dest) in
      (* 5. add the destination portal's position *)
      let destPosition := add relativePos (position dest) in
      (* 6. destination rotation *)
      let flipY := setFromAxisAngle (vec3 0 1 0) PI in
      let destQuaternion :=
        multiply (multiply (multiply (quaternion dest) flipY) srcInverse)
                 viewerQuaternion in
      (destPosition, destQuaternion)
  end.

(** [isPointInFront(point)] and [getSignedDistance(point)] *)
Definition getSignedDistance (p : t) (point : Vector3) : R :=
  dot (sub point (position p)) (_normal p).

Definition isPointInFront (p : t) (point : Vector3) : bool :=
  bool_decide (dot (sub point (position p)) (_normal p) > 0).

(** [getCenter()] *)
Definition getCenter (p : t) : Vector3 :=
  let center := position p in
  let up := applyQuaternion (vec3 0 (height p / 2) 0) (quaternion p) in
  add center up.

(** [isPointInBounds(point, margin = 0)] *)
Definition isPointInBounds (p : t) (point : Vector3) (margin : R) : bool :=
  let localPoint := sub point (position p) in
  let invQuat := invert (quaternion p) in
  let localPoint := applyQuaternion localPoint invQuat in
  let halfWidth := width p / 2 + margin in
  bool_decide (Rabs (vx localPoint) <= halfWidth)
  && bool_decide (vy localPoint >= - margin)
  && bool_decide (vy localPoint <= height p + margin).

(** [updateMesh()]: the mesh takes the pose of the portal and the cached
    normal is computed again. The result is the portal and the position and
    quaternion of its mesh. *)
Definition updateMesh (p : t) : t * (Vector3 * Quaternion) :=
  ({| id := id p; width := width p; height := height p; position := position p;
      quaternion := quaternion p; _linkedPortal := _linkedPortal p; scene := scene p;
      _normal := applyQuaternion (vec3 0 0 1) (quaternion p) |},
   (position p, quaternion p)).

(** A change of the pose in place, [portal.position.copy(pos)] and
    [portal.quaternion.copy(q)], which does not touch the cached normal. *)
Definition set_pose (p : t) (pos : Vector3) (q : Quaternion) : t :=
  {| id := id p; width := width p; height := height p; position := pos;
     quaternion := q; _linkedPortal := _linkedPortal p; scene := scene p;
     _normal := _normal p |}.

End Portal.

(** ** src/portal/PortalUtils.ts *)

Module PortalUtils.

(** The argument type [{ position: Vector3; quaternion: Quaternion }]. *)
Record Pose : Type := pose { position : Vector3; quaternion : Quaternion }.

(** [computeObliqueProjectionMatrix(camera, clipPlane)] *)
Definition computeObliqueProjectionMatrix (camera : Camera) (clipPlane : Plane)
    : Matrix4 :=
  let projectionMatrix := projectionMatrix camera in
  let viewMatrix := matrixWorldInverse camera in
  let clipPlaneCamera := Plane_applyMatrix4 clipPlane viewMatrix in
  let clipPlaneVec :=
    vec4 (vx (normal clipPlaneCamera)) (vy (normal clipPlaneCamera))
         (vz (normal clipPlaneCamera)) (constant clipPlaneCamera) in
  let q :=
    vec4 ((Math_sign (v4x clipPlaneVec) + elt projectionMatrix 8)
            / elt projectionMatrix 0)
         ((Math_sign (v4y clipPlaneVec) + elt projectionMatrix 9)
            / elt projectionMatrix 5)
         (-1)
         ((1 + elt projectionMatrix 10) / elt projectionMatrix 14) in
  let c := Vector4_multiplyScalar clipPlaneVec (2 / Vector4_dot clipPlaneVec q) in
  <[14%nat := v4w c]>
    (<[10%nat := v4z c + 1]>
       (<[6%nat := v4y c]>
          (<[2%nat := v4x c]> projectionMatrix))).

(** [transformPointThroughPortal(point, sourcePortal, destPortal)] *)
Definition transformPointThroughPortal (point : Vector3)
    (sourcePortal destPortal : Pose) : Vector3 :=
  let relativePos := sub point (position sourcePortal) in
  let srcInverse := invert (quaternion sourcePortal) in
  let relativePos := applyQuaternion relativePos srcInverse in
  let relativePos := vec3 (- vx relativePos) (vy relativePos) (- vz relativePos) in
  let relativePos := applyQuaternion relativePos (quaternion destPortal) in
  add relativePos (position destPortal).

(** [transformDirectionThroughPortal(direction, sourcePortal, destPortal)];
    only the [quaternion] fields of the two portals are read. *)
Definition transformDirectionThroughPortal (direction : Vector3)
    (sourcePortal destPortal : Pose) : Vector3 :=
  let result := direction in
  let srcInverse := invert (quaternion sourcePortal) in
  let result := applyQuaternion result srcInverse in
  let result := vec3 (- vx result) (vy result) (- vz result) in
  applyQuaternion result (quaternion destPortal).

(** [transformQuaternionThroughPortal(quat, sourcePortal, destPortal)] *)
Definition transformQuaternionThroughPortal (q : Quaternion)
    (sourcePortal destPortal : Pose) : Quaternion :=
  let srcInverse := invert (quaternion sourcePortal) in
  let flipY := setFromAxisAngle (vec3 0 1 0) PI in
  multiply (multiply (multiply (quaternion destPortal) flipY) srcInverse) q.

(** [getPortalCrossingState(objectPosition, objectRadius, portalPlane)] *)
Record CrossingState : Type := mkCrossingState {
  crossing : bool;
  signedDistance : R;
  inFront : R;
  behind : R
}.

Definition getPortalCrossingState (objectPosition : Vector3) (objectRadius : R)
    (portalPlane : Plane) : CrossingState :=
  let signedDistance := distanceToPoint portalPlane objectPosition in
  let inFront := Math_max 0 (signedDistance + objectRadius) in
  let behind := Math_max 0 (- signedDistance + objectRadius) in
  let crossing :=
    bool_decide (signedDistance > - objectRadius)
    && bool_decide (signedDistance < objectRadius) in
  mkCrossingState crossing signedDistance inFront behind.

(** [createClipPlaneCheck(planeNormal, planePoint)] *)
Definition createClipPlaneCheck (planeNormal planePoint : Vector3) : Vector3 * R :=
  let pl := setFromNormalAndCoplanarPoint planeNormal planePoint in
  (normal pl, constant pl).

(** [getPortalTeleportMatrix(sourcePortal, destPortal)] *)
Definition getPortalTeleportMatrix (sourcePortal destPortal : Pose) : Matrix4 :=
  let srcInverse := invert (quaternion sourcePortal) in
  let flipY := setFromAxisAngle (vec3 0 1 0) PI in
  let rotationQuat := multiply (multiply (quaternion destPortal) flipY) srcInverse in
  compose (vec3 0 0 0) rotationQuat (vec3 1 1 1).

(** [getPortalCorners(position, quaternion, width, height)] *)
Definition getPortalCorners (position : Vector3) (quaternion : Quaternion)
    (width height : R) : list Vector3 :=
  let hw := width / 2 in
  let corners :=
    [ vec3 (- hw) 0 0;      (* bottom left *)
      vec3 hw 0 0;          (* bottom right *)
      vec3 hw height 0;     (* top right *)
      vec3 (- hw) height 0  (* top left *) ] in
  map (fun corner => add (applyQuaternion corner quaternion) position) corners.

(** [getPortalScreenBounds(portalCorners, camera, screenWidth, screenHeight)].
    The four running bounds start at plus and minus [Infinity]; the function
    returns [null] when every corner projects to a depth of 1 or more.

    [v.project(camera)] is two calls of [applyMatrix4], each with a
    perspective divide. In JavaScript a divide by zero gives [Infinity], and
    the products with it [Infinity] or [NaN]; such numbers are not kept
    here. [project] is [None] when one of its two divisors is zero, and the
    function then has the result [NonFinite], which stands for whatever the
    code computes from them. With divisors that are not zero every number of
    the computation is finite, but for the initial bounds. *)
Record ScreenBounds : Type := mkScreenBounds {
  minX : Num; minY : Num; maxX : Num; maxY : Num
}.

Inductive ScreenBoundsResult : Type :=
| Bounds (b : ScreenBounds)
| Null
| NonFinite.

(** The divisor of the perspective divide of [v.applyMatrix4(m)]. *)
Definition perspectiveDivisor (v : Vector3) (m : Matrix4) : R :=
  elt m 3 * vx v + elt m 7 * vy v + elt m 11 * vz v + elt m 15.

Definition project (v : Vector3) (camera : Camera) : option Vector3 :=
  if bool_decide (perspectiveDivisor v (matrixWorldInverse camera) = 0) then None
  else
    let v := applyMatrix4 v (matrixWorldInverse camera) in
    if bool_decide (perspectiveDivisor v (projectionMatrix camera) = 0) then None
    else Some (applyMatrix4 v (projectionMatrix camera)).

Definition getPortalScreenBounds (portalCorners : list Vector3) (camera : Camera)
    (screenWidth screenHeight : R) : ScreenBoundsResult :=
  let loop :=
    foldl
      (fun (acc : option (ScreenBounds * bool)) corner =>
         match acc with
         | None => None
         | Some (b, allBehind) =>
             match project corner camera with
             | None => None
             | Some tempVec =>
                 if bool_decide (vz tempVec < 1) then
                   let screenX := (vx tempVec * 0.5 + 0.5) * screenWidth in
                   let screenY := (1 - (vy tempVec * 0.5 + 0.5)) * screenHeight in
                   Some (mkScreenBounds (Num_min (minX b) (Finite screenX))
                                        (Num_min (minY b) (Finite screenY))
                                        (Num_max (maxX b) (Finite screenX))
                                        (Num_max (maxY b) (Finite screenY)),
                         false)
                 else Some (b, allBehind)
             end
         end)
      (Some (mkScreenBounds Infinity Infinity NegInfinity NegInfinity, true))
      portalCorners in
  match loop with
  | None => NonFinite
  | Some (b, allBehind) =>
      if allBehind then Null
      else
        Bounds (mkScreenBounds
                  (Num_max (Finite 0) (Num_min (Finite screenWidth) (minX b)))
                  (Num_max (Finite 0) (Num_min (Finite screenHeight) (minY b)))
                  (Num_max (Finite 0) (Num_min (Finite screenWidth) (maxX b)))
                  (Num_max (Finite 0) (Num_min (Finite screenHeight) (maxY b))))
  end.

End PortalUtils.

(** ** src/portal/PortalRenderer.ts *)

Module PortalRenderer.

(** [interface PortalWorld] *)
Record PortalWorld : Type := mkWorld { scene : SceneId; portals : list PortalId }.

(** The scene graph is kept flat: the drawables of a scene are its direct
    children, and a child is either the mask mesh of a portal or another
    object of the scene. A mesh names its materials; the materials are
    shared, mutable objects. *)
Inductive Object3D : Type := PortalMesh (p : PortalId) | SceneObject (n : nat).
Inductive MaterialId : Type := PortalStencilMaterial (p : PortalId) | SceneMaterial (n : nat).

(** Camera objects: the renderer's own [_portalCamera] and the cameras of
    the caller. [_renderPortals] is handed either kind. *)
Inductive CameraRef : Type := PortalCamera | UserCamera (n : nat).

#[global] Instance Object3D_eq_dec : EqDecision Object3D.
Proof. solve_decision. Defined.
#[global] Instance MaterialId_eq_dec : EqDecision MaterialId.
Proof. solve_decision. Defined.
#[global] Instance CameraRef_eq_dec : EqDecision CameraRef.
Proof. solve_decision. Defined.

(** What the [WebGPURenderer] is asked to do. A draw call records the method
    that issued it with its stencil arguments, the scene, the camera as it is
    at the call, and the children of the scene with the state of their
    materials at the call. *)
Inductive Pass : Type :=
| MaskPass (stencilValue : nat)
| StencilTestPass (stencilRef : nat) (stencilFunc : StencilFunc).

Inductive Event : Type :=
| Clear (color depth stencil : bool)
| Render (pass : Pass) (scene : SceneId) (camera : Camera)
         (drawn : list (Object3D * list Material)).

Record State : Type := mkState {
  autoClear : bool;
  cameras : CameraRef -> Camera;
  portalHeap : Portal.heap;
  children : SceneId -> list Object3D;
  parent : Object3D -> option SceneId;
  objectMaterials : nat -> list MaterialId;
  materials : MaterialId -> Material;
  calls : list Event
}.

(** [this._options] *)
Record t : Type := mk { maxRecursion : nat; debug : bool }.

(** [new PortalRenderer(renderer, options)]: [maxRecursion] defaults to 1. *)
Definition new (maxRecursion : option nat) (debug : option bool) : t :=
  mk (default 1%nat maxRecursion) (default false debug).

Definition set_autoClear (st : State) (b : bool) : State :=
  mkState b (cameras st) (portalHeap st) (children st) (parent st)
          (objectMaterials st) (materials st) (calls st).

Definition set_cameras (st : State) (c : CameraRef -> Camera) : State :=
  mkState (autoClear st) c (portalHeap st) (children st) (parent st)
          (objectMaterials st) (materials st) (calls st).

Definition set_graph (st : State) (ch : SceneId -> list Object3D)
    (pa : Object3D -> option SceneId) : State :=
  mkState (autoClear st) (cameras st) (portalHeap st) ch pa
          (objectMaterials st) (materials st) (calls st).

Definition set_materials (st : State) (m : MaterialId -> Material) : State :=
  mkState (autoClear st) (cameras st) (portalHeap st) (children st) (parent st)
          (objectMaterials st) m (calls st).

Definition set_calls (st : State) (l : list Event) : State :=
  mkState (autoClear st) (cameras st) (portalHeap st) (children st) (parent st)
          (objectMaterials st) (materials st) l.

(** [object.material], as the list [Array.isArray(m) ? m : [m]]; the mask
    mesh of a portal carries the portal's stencil material. *)
Definition materialsOf (st : State) (o : Object3D) : list MaterialId :=
  match o with
  | PortalMesh p => [PortalStencilMaterial p]
  | SceneObject n => objectMaterials st n
  end.

(** [renderer.clear(color, depth, stencil)] and [renderer.render(scene, camera)] *)
Definition renderer_clear (color depth stencil : bool) (st : State) : State :=
  set_calls st (calls st ++ [Clear color depth stencil]).

Definition renderer_render (pass : Pass) (sc : SceneId) (camera : CameraRef)
    (st : State) : State :=
  set_calls st
    (calls st ++
     [Render pass sc (cameras st camera)
        (map (fun o => (o, map (materials st) (materialsOf st o))) (children st sc))]).

(** [Object3D.remove], [Object3D.removeFromParent] and [Object3D.add]:
<<
      remove( object ) {
        const index = this.children.indexOf( object );
        if ( index !== - 1 ) { object.parent = null; this.children.splice( index, 1 ); }
      }
      add( object ) {
        object.removeFromParent();
        object.parent = this;
        this.children.push( object );
      }
>> *)
Definition Object3D_remove (sc : SceneId) (o : Object3D) (st : State) : State :=
  match list_find (fun x => x = o) (children st sc) with
  | Some (index, _) =>
      set_graph st (<[sc := delete index (children st sc)]> (children st))
                   (<[o := None]> (parent st))
  | None => st
  end.

Definition removeFromParent (o : Object3D) (st : State) : State :=
  match parent st o with
  | Some p => Object3D_remove p o st
  | None => st
  end.

Definition Object3D_add (sc : SceneId) (o : Object3D) (st : State) : State :=
  let st := removeFromParent o st in
  set_graph st (<[sc := children st sc ++ [o]]> (children st))
               (<[o := Some sc]> (parent st)).

Definition set_stencilRef (m : Material) (ref : nat) : Material :=
  mkMaterial (colorWrite m) (depthWrite m) (stencilWrite m) ref (stencilFunc m).

(** [_renderPortalStencil(portal, camera, stencilValue = 1)] *)
Definition _renderPortalStencil (portal : PortalId) (camera : CameraRef)
    (stencilValue : nat) (st : State) : State :=
  let mat := PortalStencilMaterial portal in
  let st := set_materials st
              (<[mat := set_stencilRef (materials st mat) stencilValue]> (materials st)) in
  match Portal.scene (portalHeap st portal) with
  | None => st
  | Some sc =>
      let wasInScene := bool_decide (parent st (PortalMesh portal) = Some sc) in
      let st := if negb wasInScene then Object3D_add sc (PortalMesh portal) st else st in
      let st := renderer_render (MaskPass stencilValue) sc camera st in
      if negb wasInScene then Object3D_remove sc (PortalMesh portal) st else st
  end.

(** [scene.traverse(object => { for (const mat of materials) {...} })]: the
    update [f] is applied to every material of every child, in order. Of the
    objects that [traverse] visits only the direct children of the scene are
    kept in this scene graph; what it does to the materials of objects
    nested deeper is not described. *)
Definition traverse_materials (sc : SceneId) (f : Material -> Material)
    (st : State) : State :=
  set_materials st
    (foldl (fun ms o => foldl (fun ms i => <[i := f (ms i)]> ms) ms (materialsOf st o))
           (materials st) (children st sc)).

(** [_renderSceneWithStencilTest(camera, scene, stencilRef, stencilFunc)] *)
Definition _renderSceneWithStencilTest (camera : CameraRef) (sc : SceneId)
    (stencilRef : nat) (stencilFunc : StencilFunc) (st : State) : State :=
  let st := traverse_materials sc
              (fun m => mkMaterial (colorWrite m) (depthWrite m) false stencilRef stencilFunc)
              st in
  let st := renderer_render (StencilTestPass stencilRef stencilFunc) sc camera st in
  traverse_materials sc
    (fun m => mkMaterial (colorWrite m) (depthWrite m) false (Three.stencilRef m)
                         AlwaysStencilFunc)
    st.

(** [_renderWorldWithStencil(camera, scene, stencilRef, stencilFunc)] *)
Definition _renderWorldWithStencil (camera : CameraRef) (sc : SceneId)
    (stencilRef : nat) (stencilFunc : StencilFunc) (st : State) : State :=
  _renderSceneWithStencilTest camera sc stencilRef stencilFunc st.

(** The search of the destination world in [_renderPortals]: the first world
    of the registry, in its iteration order, whose portals include the
    portal. *)
Fixpoint findWorld (allWorlds : list (string * PortalWorld)) (destPortal : PortalId)
    : option PortalWorld :=
  match allWorlds with
  | [] => None
  | (_, world) :: rest =>
      if bool_decide (destPortal ∈ portals world) then Some world
      else findWorld rest destPortal
  end.

(** Steps 2 and 3 of the loop body of [_renderPortals], the same as steps 3
    and 4 of [renderSimple]: the portal camera becomes a copy of [camera] at
    the destination pose, with the oblique projection for the destination
    portal's plane, negated. *)
Definition setupPortalCamera (portal destPortal : PortalId) (camera : CameraRef)
    (st : State) : State :=
  let cam := cameras st camera in
  let destTransform :=
    Portal.getDestinationCameraTransform (portalHeap st) portal
      (cam_position cam) (cam_quaternion cam) in
  let pc := cam in
  let pc := mkCamera (fst destTransform) (snd destTransform) (cam_scale pc)
              (matrixWorld pc) (matrixWorldInverse pc)
              (projectionMatrix pc) (projectionMatrixInverse pc) in
  let pc := updateMatrixWorld pc in
  let clipPlane := Plane_negate (Portal.getPlane (portalHeap st destPortal)) in
  let obliqueMatrix := PortalUtils.computeObliqueProjectionMatrix pc clipPlane in
  let pc := mkCamera (cam_position pc) (cam_quaternion pc) (cam_scale pc)
              (matrixWorld pc) (matrixWorldInverse pc)
              obliqueMatrix (Matrix4_invert obliqueMatrix) in
  set_cameras st (<[PortalCamera := pc]> (cameras st)).

(** A [for (const x of xs)] loop whose body may run out of fuel. *)
Fixpoint for_of {A : Type} (xs : list A) (body : A -> State -> option State)
    (st : State) : option State :=
  match xs with
  | [] => Some st
  | x :: rest =>
      match body x st with
      | Some st' => for_of rest body st'
      | None => None
      end
  end.

(** [_renderPortals(camera, currentWorld, allWorlds, depth)]. The method
    calls itself; [fuel] bounds the depth of the calls. *)
Fixpoint _renderPortals (this : t) (fuel : nat) (camera : CameraRef)
    (currentWorld : PortalWorld) (allWorlds : list (string * PortalWorld))
    (depth : nat) (st : State) {struct fuel} : option State :=
  match fuel with
  | O => None
  | S fuel' =>
      (* depth >= this._options.maxRecursion *)
      if bool_decide (maxRecursion this <= depth)%nat then Some st
      else
        for_of (portals currentWorld)
          (fun portal st =>
             match Portal.linkedPortal (portalHeap st) portal with
             | None => Some st
             | Some destPortal =>
                 if negb (Portal.isPointInFront (portalHeap st portal)
                            (cam_position (cameras st camera)))
                 then Some st
                 else
                   match findWorld allWorlds destPortal with
                   | None => Some st
                   | Some destWorld =>
                       (* 1. portal to stencil *)
                       let st := _renderPortalStencil portal camera (depth + 1) st in
                       (* 2. and 3. portal camera and oblique projection *)
                       let st := setupPortalCamera portal destPortal camera st in
                       (* 4. portals of the destination world *)
                       match _renderPortals this fuel' PortalCamera destWorld
                               allWorlds (depth + 1) st with
                       | None => None
                       | Some st =>
                           (* 5. destination world through the stencil *)
                           Some (_renderSceneWithStencilTest PortalCamera
                                   (scene destWorld) (depth + 1) EqualStencilFunc st)
                       end
                   end
             end)
          st
  end.

(** [render(camera, currentWorld, allWorlds)]; the [finally] block restores
    [autoClear]. *)
Definition render (this : t) (fuel : nat) (camera : CameraRef)
    (currentWorld : PortalWorld) (allWorlds : list (string * PortalWorld))
    (st : State) : option State :=
  let originalAutoClear := autoClear st in
  let st := set_autoClear st false in
  let st := renderer_clear true true true st in
  match _renderPortals this fuel camera currentWorld allWorlds 0 st with
  | None => None
  | Some st =>
      let st := _renderWorldWithStencil camera (scene currentWorld) 0
                  NotEqualStencilFunc st in
      Some (set_autoClear st originalAutoClear)
  end.

(** [renderSimple(camera, currentScene, destinationScene, portal)] *)
Definition renderSimple (camera : CameraRef) (currentScene destinationScene : SceneId)
    (portal : PortalId) (st : State) : State :=
  let originalAutoClear := autoClear st in
  let st := set_autoClear st false in
  let st := renderer_clear true true true st in
  let st :=
    match Portal.linkedPortal (portalHeap st) portal with
    | Some destPortal =>
        let st := _renderPortalStencil portal camera 1 st in
        let st := setupPortalCamera portal destPortal camera st in
        _renderSceneWithStencilTest PortalCamera destinationScene 1 EqualStencilFunc st
    | None => st
    end in
  let st := _renderSceneWithStencilTest camera currentScene 1 NotEqualStencilFunc st in
  set_autoClear st originalAutoClear.

(** The draw calls of interest in a list of calls. *)
Definition isDestinationPass (e : Event) : bool :=
  match e with
  | Render (StencilTestPass _ EqualStencilFunc) _ _ _ => true
  | _ => false
  end.

Definition destinationPasses (l : list Event) : list Event := filter isDestinationPass l.

End PortalRenderer.

(** ** Reading the list of renderer calls *)

Module Trace.

Import PortalRenderer.

(** The stencil marker of a mask pass or of a stencil-tested pass. *)
Definition marker (e : Event) : option nat :=
  match e with
  | Render (MaskPass v) _ _ _ => Some v
  | Render (StencilTestPass v _) _ _ _ => Some v
  | Clear _ _ _ => None
  end.

(** A portal pass (a mask pass or a destination pass) whose marker [v] is
    nested deeper than [lo] and no deeper than [hi]. *)
Definition passWithin (lo hi : nat) (e : Event) : Prop :=
  match e with
  | Render (MaskPass v) _ _ _ => (lo < v <= hi)%nat
  | Render (StencilTestPass v EqualStencilFunc) _ _ _ => (lo < v <= hi)%nat
  | _ => False
  end.

(** [st'] is [st] with the same portals and with more calls, each of which
    satisfies [Q]. *)
Definition extends (Q : Event -> Prop) (st st' : State) : Prop :=
  portalHeap st' = portalHeap st
  /\ exists l, calls st' = calls st ++ l /\ Forall Q l.

(** A stencil-tested draw of [sc] in which every material drawn has the
    stencil function [func] and the reference value [ref]. *)
Definition stencilTested (ref : nat) (func : StencilFunc) (sc : SceneId)
    (e : Event) : Prop :=
  exists camera drawn,
    e = Render (StencilTestPass ref func) sc camera drawn
    /\ Forall (fun om => Forall (fun m => stencilRef m = ref /\ stencilFunc m = func
                                         /\ stencilWrite m = false) om.2) drawn.

(** "Always in front of every camera used": the camera at [pos], [q] is in
    front of [portal], which is linked, and so on for the camera moved
    through [portal] and the portal it is linked to, [n] times. *)
Fixpoint alwaysInFront (h : Portal.heap) (n : nat) (portal : PortalId)
    (pos : Vector3) (q : Quaternion) : Prop :=
  match n with
  | O => True
  | S n' =>
      Portal.isPointInFront (h portal) pos = true
      /\ match Portal.linkedPortal h portal with
         | Some dest =>
             let t := Portal.getDestinationCameraTransform h portal pos q in
             alwaysInFront h n' dest (fst t) (snd t)
         | None => False
         end
  end.

(** The camera a draw call was issued with. *)
Definition cameraOf (e : Event) : option Camera :=
  match e with
  | Render _ _ camera _ => Some camera
  | Clear _ _ _ => None
  end.

(** The pose of a camera moved through [portal], then through the portal
    that one is linked to, and so on, [n] times. *)
Fixpoint through (h : Portal.heap) (n : nat) (portal : PortalId)
    (pose : Vector3 * Quaternion) : Vector3 * Quaternion :=
  match n with
  | O => pose
  | S n' =>
      match Portal.linkedPortal h portal with
      | Some dest =>
          through h n' dest
            (Portal.getDestinationCameraTransform h portal (fst pose) (snd pose))
      | None => pose
      end
  end.


(** The registry of two worlds, one around portal [A] and one around portal
    [B]. *)
Definition worldOf (sc : SceneId) (p : PortalId) : PortalWorld := mkWorld sc [p].

Definition loopRegistry (sA sB : SceneId) (A B : PortalId)
    : list (string * PortalWorld) :=
  [("A", worldOf sA A); ("B", worldOf sB B)].

End Trace.

(** ** src/portal/ClippedMaterial.ts *)

Module ClippedMaterial.

(** [interface ClipPlaneParams] *)
Record ClipPlaneParams : Type := mkClipPlane { normal : Vector3; point : Vector3 }.

(** Node materials are objects, named by identifiers. Of a material the
    class, the discard tests of its colour node (the clip normal and the clip
    constant of each, the outermost first) and whether [dispose()] was called
    on it are kept. [baseMaterial.clone()] is a new object. *)
Inductive MaterialClass : Type := MeshStandardNodeMaterial | OtherMaterial.

Record NodeMaterial : Type := mkNodeMaterial {
  class : MaterialClass;
  colorNode : list (Vector3 * R);
  disposed : bool
}.

Record Heap : Type := mkHeap { mats : nat -> NodeMaterial; next : nat }.

Definition alloc (m : NodeMaterial) (hp : Heap) : nat * Heap :=
  (next hp, mkHeap (<[next hp := m]> (mats hp)) (S (next hp))).

Definition dispose (i : nat) (hp : Heap) : Heap :=
  mkHeap (<[i := mkNodeMaterial (class (mats hp i)) (colorNode (mats hp i)) true]> (mats hp))
         (next hp).

Definition Material_clone (i : nat) (hp : Heap) : nat * Heap :=
  alloc (mkNodeMaterial (class (mats hp i)) (colorNode (mats hp i)) false) hp.

(** The colour node run for a fragment at [positionWorld]:
<<
      const signedDist = positionWorld.dot(clipNormal).add(clipConstant);
      If(signedDist.lessThan(0), () => { Discard(); });
      return originalColor;
>> *)
Definition discards (m : NodeMaterial) (positionWorld : Vector3) : bool :=
  existsb (fun t => bool_decide (dot positionWorld (fst t) + snd t < 0)) (colorNode m).

(** [createClippedStandardMaterial(baseMaterial, clipPlane)]; the body of
    [createClippedBasicMaterial] is the same. *)
Definition createClippedStandardMaterial (baseMaterial : nat)
    (clipPlane : ClipPlaneParams) (hp : Heap) : nat * Heap :=
  let planeConstant := - dot (normal clipPlane) (point clipPlane) in
  let clipNormal :=
    vec3 (vx (normal clipPlane)) (vy (normal clipPlane)) (vz (normal clipPlane)) in
  let originalColor := colorNode (mats hp baseMaterial) in
  alloc (mkNodeMaterial (class (mats hp baseMaterial))
           ((clipNormal, planeConstant) :: originalColor) false) hp.

Definition createClippedBasicMaterial (baseMaterial : nat)
    (clipPlane : ClipPlaneParams) (hp : Heap) : nat * Heap :=
  let planeConstant := - dot (normal clipPlane) (point clipPlane) in
  let clipNormal :=
    vec3 (vx (normal clipPlane)) (vy (normal clipPlane)) (vz (normal clipPlane)) in
  let originalColor := colorNode (mats hp baseMaterial) in
  alloc (mkNodeMaterial (class (mats hp baseMaterial))
           ((clipNormal, planeConstant) :: originalColor) false) hp.

(** A [THREE.Mesh], as far as [PortalCrossingObject] reads and writes it;
    [material] is [None] for [null]. *)
Record Mesh : Type := mkMesh {
  position : Vector3;
  quaternion : Quaternion;
  material : option nat;
  visible : bool
}.

(** [class PortalCrossingObject] *)
Record t : Type := mk {
  mesh : Mesh;
  clone : Mesh;
  _originalMaterial : nat;
  _sourceClipMaterial : option nat;
  _destClipMaterial : option nat;
  _crossingPortal : option ClipPlaneParams
}.

(** [new PortalCrossingObject(mesh)] for a mesh with the material
    [material]: the clone shares the material and is hidden. *)
Definition new (position : Vector3) (quaternion : Quaternion) (material : nat)
    (visible : bool) : t :=
  mk (mkMesh position quaternion (Some material) visible)
     (mkMesh position quaternion (Some material) false)
     material None None None.

(** [_updateClipMaterials()] *)
Definition _updateClipMaterials (o : t) (hp : Heap) : t * Heap :=
  match _crossingPortal o with
  | None => (o, hp)
  | Some cp =>
      let hp := match _sourceClipMaterial o with
                | Some m => dispose m hp
                | None => hp
                end in
      let hp := match _destClipMaterial o with
                | Some m => dispose m hp
                | None => hp
                end in
      let '(src, dst, hp) :=
        match class (mats hp (_originalMaterial o)) with
        | MeshStandardNodeMaterial =>
            let '(src, hp) :=
              createClippedStandardMaterial (_originalMaterial o)
                (mkClipPlane (normal cp) (point cp)) hp in
            let '(dst, hp) :=
              createClippedStandardMaterial (_originalMaterial o)
                (mkClipPlane (negate (normal cp)) (point cp)) hp in
            (src, dst, hp)
        | OtherMaterial =>
            let '(src, hp) := Material_clone (_originalMaterial o) hp in
            let '(dst, hp) := Material_clone (_originalMaterial o) hp in
            (src, dst, hp)
        end in
      (mk (mesh o) (clone o) (_originalMaterial o) (Some src) (Some dst)
          (_crossingPortal o), hp)
  end.

(** [updateCrossing(portalNormal, portalPoint, objectRadius)] *)
Definition updateCrossing (portalNormal portalPoint : Vector3) (objectRadius : R)
    (st : t * Heap) : bool * (t * Heap) :=
  let '(o, hp) := st in
  let toObject := sub (position (mesh o)) portalPoint in
  let signedDist := dot toObject portalNormal in
  let isCrossing := bool_decide (Rabs signedDist < objectRadius) in
  if isCrossing then
    let '(o, hp) :=
      if match _crossingPortal o with
         | None => true
         | Some cp =>
             negb (Vector3_equals portalNormal (normal cp))
             || negb (Vector3_equals portalPoint (point cp))
         end
      then
        _updateClipMaterials
          (mk (mesh o) (clone o) (_originalMaterial o) (_sourceClipMaterial o)
              (_destClipMaterial o) (Some (mkClipPlane portalNormal portalPoint)))
          hp
      else (o, hp) in
    (true,
     (mk (mkMesh (position (mesh o)) (quaternion (mesh o)) (_sourceClipMaterial o)
                 (visible (mesh o)))
         (mkMesh (position (clone o)) (quaternion (clone o)) (_destClipMaterial o) true)
         (_originalMaterial o) (_sourceClipMaterial o) (_destClipMaterial o)
         (_crossingPortal o),
      hp))
  else
    (false,
     (mk (mkMesh (position (mesh o)) (quaternion (mesh o)) (Some (_originalMaterial o))
                 (visible (mesh o)))
         (mkMesh (position (clone o)) (quaternion (clone o)) (material (clone o)) false)
         (_originalMaterial o) (_sourceClipMaterial o) (_destClipMaterial o) None,
      hp)).


(** [dispose()] of the object *)
Definition PortalCrossingObject_dispose (st : t * Heap) : t * Heap :=
  let '(o, hp) := st in
  let hp := match _sourceClipMaterial o with
            | Some m => dispose m hp
            | None => hp
            end in
  let hp := match _destClipMaterial o with
            | Some m => dispose m hp
            | None => hp
            end in
  (o, hp).

(** A sequence of [updateCrossing] calls, each with its normal, point and
    radius, the mesh being moved to a position before each call. *)
Fixpoint frames (calls : list (Vector3 * (Vector3 * Vector3 * R))) (st : t * Heap)
    : t * Heap :=
  match calls with
  | [] => st
  | (pos, (n, p, r)) :: rest =>
      let '(o, hp) := st in
      let o := mk (mkMesh pos (quaternion (mesh o)) (material (mesh o)) (visible (mesh o)))
                  (clone o) (_originalMaterial o) (_sourceClipMaterial o)
                  (_destClipMaterial o) (_crossingPortal o) in
      frames rest (snd (updateCrossing n p r (o, hp)))
  end.

(** What holds of a crossing object and the material heap between calls.
    [next0] is the first identifier that was free when the object was made
    and [orig] the original material as it was then. The original material
    is untouched; every material made since that is not disposed is the
    source or the destination variant; while a portal is being crossed both
    variants exist, are distinct and not disposed, and for an original of
    class [MeshStandardNodeMaterial] they test the plane of the portal with
    its normal and with the negated normal; the mesh always has a
    material. *)
Definition invariant (next0 : nat) (orig : NodeMaterial) (st : t * Heap) : Prop :=
  let '(o, hp) := st in
  (_originalMaterial o < next0 <= next hp)%nat
  /\ mats hp (_originalMaterial o) = orig
  /\ (forall i, (next0 <= i < next hp)%nat -> disposed (mats hp i) = false ->
        _sourceClipMaterial o = Some i \/ _destClipMaterial o = Some i)
  /\ (forall i, _sourceClipMaterial o = Some i \/ _destClipMaterial o = Some i ->
        (next0 <= i < next hp)%nat)
  /\ is_Some (material (mesh o))
  /\ match _crossingPortal o with
     | None => True
     | Some cp =>
         exists s d,
           _sourceClipMaterial o = Some s /\ _destClipMaterial o = Some d
           /\ s <> d
           /\ disposed (mats hp s) = false /\ disposed (mats hp d) = false
           /\ (class orig = MeshStandardNodeMaterial ->
               colorNode (mats hp s)
               = (normal cp, - dot (normal cp) (point cp)) :: colorNode orig
               /\ colorNode (mats hp d)
                  = (negate (normal cp), - dot (negate (normal cp)) (point cp))
                    :: colorNode orig)
     end.

End ClippedMaterial.

(** ** src/character/FPSController.ts *)

Module FPSController.

Record FPSControllerOptions : Type := mkOptions {
  walkSpeed : R;
  sprintSpeed : R;
  strafeSpeed : R;
  backwardSpeed : R;
  jumpSpeed : R;
  mouseSensitivity : R;
  gravity : R;
  playerHeight : R;
  playerRadius : R
}.

Record RoomBounds : Type := mkRoomBounds {
  minX : R; maxX : R; minY : R; maxY : R; minZ : R; maxZ : R;
  doorMinX : R; doorMaxX : R; doorMaxY : R; doorZ : R
}.

Definition DEFAULT_OPTIONS : FPSControllerOptions :=
  mkOptions 4 7 3 2.5 6 0.002 18 0.6 0.2.

(** The kinematic body of the controller: its translation, and the one set
    by [setNextKinematicTranslation] for the next step of the physics. *)
Record RigidBody : Type := mkRigidBody {
  translation : Vector3;
  nextKinematicTranslation : option Vector3
}.

(** [class FPSController], without the handles of the physics world and the
    scratch objects. *)
Record t : Type := mk {
  rigidBody : RigidBody;
  position : Vector3;
  velocity : Vector3;
  yaw : R;
  pitch : R;
  options : FPSControllerOptions;
  currentBounds : option RoomBounds;
  inputForward : R;
  inputRight : R;
  isSprinting : bool;
  wantsJump : bool;
  isGrounded : bool;
  verticalVelocity : R
}.

(** [new FPSController(world, startPosition, options)] with all options
    given. *)
Definition new (startPosition : Vector3) (options : FPSControllerOptions) : t :=
  mk (mkRigidBody startPosition None) startPosition (vec3 0 0 0) 0 0 options None
     0 0 false false false 0.

Definition setBounds (bounds : option RoomBounds) (c : t) : t :=
  mk (rigidBody c) (position c) (velocity c) (yaw c) (pitch c) (options c) bounds
     (inputForward c) (inputRight c) (isSprinting c) (wantsJump c) (isGrounded c)
     (verticalVelocity c).

Definition setMoveInput (forward right : R) (c : t) : t :=
  mk (rigidBody c) (position c) (velocity c) (yaw c) (pitch c) (options c)
     (currentBounds c)
     (Math_max (-1) (Math_min 1 forward)) (Math_max (-1) (Math_min 1 right))
     (isSprinting c) (wantsJump c) (isGrounded c) (verticalVelocity c).

Definition setSprinting (sprinting : bool) (c : t) : t :=
  mk (rigidBody c) (position c) (velocity c) (yaw c) (pitch c) (options c)
     (currentBounds c) (inputForward c) (inputRight c) sprinting (wantsJump c)
     (isGrounded c) (verticalVelocity c).

Definition jump (c : t) : t :=
  if isGrounded c then
    mk (rigidBody c) (position c) (velocity c) (yaw c) (pitch c) (options c)
       (currentBounds c) (inputForward c) (inputRight c) (isSprinting c) true
       (isGrounded c) (verticalVelocity c)
  else c.

(** [this.yaw -= Math.PI * 2] and [this.yaw += Math.PI * 2] on binary64
    numbers. Beyond 2^56 in magnitude the numbers are 16 or more apart and
    the sum rounds back to [yaw]: the assignment changes nothing. Up to 2^56
    the result is read as the real number. *)
Definition absorbed (yaw : R) : bool := bool_decide (Rabs yaw > 72057594037927936).

Definition yaw_minus_turn (yaw : R) : R := if absorbed yaw then yaw else yaw - PI * 2.

Definition yaw_plus_turn (yaw : R) : R := if absorbed yaw then yaw else yaw + PI * 2.

(** [while (this.yaw > Math.PI) this.yaw -= Math.PI * 2;] and
    [while (this.yaw < -Math.PI) this.yaw += Math.PI * 2;]: [fuel] bounds the
    number of turns of a loop and [None] is the result of running out of
    it. *)
Fixpoint while_yaw_above (fuel : nat) (yaw : R) : option R :=
  if bool_decide (yaw > PI) then
    match fuel with
    | O => None
    | S fuel' => while_yaw_above fuel' (yaw_minus_turn yaw)
    end
  else Some yaw.

Fixpoint while_yaw_below (fuel : nat) (yaw : R) : option R :=
  if bool_decide (yaw < - PI) then
    match fuel with
    | O => None
    | S fuel' => while_yaw_below fuel' (yaw_plus_turn yaw)
    end
  else Some yaw.

(** [rotate(deltaX, deltaY)] *)
Definition rotate (fuel : nat) (deltaX deltaY : R) (c : t) : option t :=
  let yaw := yaw c - deltaX * mouseSensitivity (options c) in
  let pitch := pitch c - deltaY * mouseSensitivity (options c) in
  let maxPitch := PI / 2 - 0.01 in
  let pitch := Math_max (- maxPitch) (Math_min maxPitch pitch) in
  match while_yaw_above fuel yaw with
  | None => None
  | Some yaw =>
      match while_yaw_below fuel yaw with
      | None => None
      | Some yaw =>
          Some (mk (rigidBody c) (position c) (velocity c) yaw pitch (options c)
                   (currentBounds c) (inputForward c) (inputRight c) (isSprinting c)
                   (wantsJump c) (isGrounded c) (verticalVelocity c))
      end
  end.

(** [update(deltaS)]. The character controller of the physics engine is a
    function from the desired movement to the corrected movement and
    whether the character is on the ground
    ([computeColliderMovement], [computedMovement], [computedGrounded]). *)
Definition update (characterController : Vector3 -> Vector3 * bool) (deltaS : R)
    (c : t) : t :=
  let forward := vec3 (- sin (yaw c)) 0 (- cos (yaw c)) in
  let right := vec3 (cos (yaw c)) 0 (- sin (yaw c)) in
  let inputX := 0 in
  let inputZ := 0 in
  let speed := walkSpeed (options c) in
  let speed :=
    if bool_decide (inputForward c > 0) then
      if isSprinting c then sprintSpeed (options c) else walkSpeed (options c)
    else if bool_decide (inputForward c < 0) then backwardSpeed (options c)
    else speed in
  let '(inputX, inputZ) :=
    if bool_decide (inputForward c <> 0) then
      (inputX + vx forward * inputForward c, inputZ + vz forward * inputForward c)
    else (inputX, inputZ) in
  let '(inputX, inputZ) :=
    if bool_decide (inputRight c <> 0) then
      let strafeSpeed :=
        if bool_decide (inputForward c > 0) && isSprinting c
        then walkSpeed (options c) / sprintSpeed (options c)
        else strafeSpeed (options c) / speed in
      (inputX + vx right * inputRight c * strafeSpeed,
       inputZ + vz right * inputRight c * strafeSpeed)
    else (inputX, inputZ) in
  let inputLen := sqrt (inputX * inputX + inputZ * inputZ) in
  let '(inputX, inputZ) :=
    if bool_decide (inputLen > 1) then (inputX / inputLen, inputZ / inputLen)
    else (inputX, inputZ) in
  let verticalVelocity :=
    if isGrounded c then
      if wantsJump c then jumpSpeed (options c) else 0
    else verticalVelocity c - gravity (options c) * deltaS in
  let tmpDesiredMovement :=
    vec3 (inputX * speed * deltaS) (verticalVelocity * deltaS)
         (inputZ * speed * deltaS) in
  let '(correctedMovement, computedGrounded) := characterController tmpDesiredMovement in
  let currentPos := translation (rigidBody c) in
  let newX := vx currentPos + vx correctedMovement in
  let newY := vy currentPos + vy correctedMovement in
  let newZ := vz currentPos + vz correctedMovement in
  mk (mkRigidBody (translation (rigidBody c)) (Some (vec3 newX newY newZ)))
     (vec3 newX newY newZ)
     (vec3 (inputX * speed) verticalVelocity (inputZ * speed))
     (yaw c) (pitch c) (options c) (currentBounds c) (inputForward c) (inputRight c)
     (isSprinting c) false computedGrounded verticalVelocity.

(** [teleport(newPosition)]; [rigidBody.setTranslation] moves the body at
    once and leaves no translation pending for the next step. *)
Definition teleport (newPosition : Vector3) (c : t) : t :=
  mk (mkRigidBody (vec3 (vx newPosition) (vy newPosition) (vz newPosition)) None)
     newPosition (vec3 0 0 0) (yaw c) (pitch c) (options c) (currentBounds c)
     (inputForward c) (inputRight c) (isSprinting c) (wantsJump c) (isGrounded c) 0.

(** [getCameraPosition()], [getCameraQuaternion()], the Euler angles being
    in the order "YXZ", and [getForwardDirection()] *)
Definition getCameraPosition (c : t) : Vector3 :=
  let eyeOffset := playerHeight (options c) / 2 + playerRadius (options c) * 0.8 in
  vec3 (vx (position c)) (vy (position c) + eyeOffset) (vz (position c)).

Definition getCameraQuaternion (c : t) : Quaternion :=
  setFromEulerYXZ (euler (pitch c) (yaw c) 0).

Definition getForwardDirection (c : t) : Vector3 :=
  vec3 (- sin (yaw c)) 0 (- cos (yaw c)).

End FPSController.

(** ** src/main.ts: the two portals, the traversal of the player and the
    pushable cube *)

Module App.

Definition DOOR_WIDTH : R := 0.9.
Definition DOOR_HEIGHT : R := 1.6.
Definition INNER_ROOM_WIDTH : R := 6.
Definition INNER_ROOM_DEPTH : R := 10.
Definition INNER_ROOM_HEIGHT : R := 6.
Definition OUTER_PORTAL_Z : R := 0.6.
Definition INNER_PORTAL_Z : R := INNER_ROOM_DEPTH / 2.
Definition INNER_WORLD_OFFSET : R := 100.
Definition PUSH_CUBE_SIZE : R := 0.3.

Definition INNER_ROOM_BOUNDS : FPSController.RoomBounds :=
  FPSController.mkRoomBounds
    (- INNER_ROOM_WIDTH / 2) (INNER_ROOM_WIDTH / 2) 0 INNER_ROOM_HEIGHT
    (INNER_WORLD_OFFSET - INNER_ROOM_DEPTH / 2)
    (INNER_WORLD_OFFSET + INNER_ROOM_DEPTH / 2)
    (- DOOR_WIDTH / 2) (DOOR_WIDTH / 2) DOOR_HEIGHT
    (INNER_WORLD_OFFSET + INNER_PORTAL_Z).

(** [setupPortals()]: [outerPortal] is portal 0 in scene 0 and [innerPortal]
    is portal 1 in scene 1; the result is the heap after
    [outerPortal.link(innerPortal)]. *)
Definition outerPortal : PortalId := 0%nat.
Definition innerPortal : PortalId := 1%nat.

Definition newOuterPortal : Portal.t :=
  Portal.set_scene
    (Portal.new "outer" DOOR_WIDTH DOOR_HEIGHT (vec3 0 0 OUTER_PORTAL_Z)
       (Some (euler 0 0 0)))
    (Some 0%nat).

Definition newInnerPortal : Portal.t :=
  Portal.set_scene
    (Portal.new "inner" DOOR_WIDTH DOOR_HEIGHT
       (vec3 0 0 (INNER_WORLD_OFFSET + INNER_PORTAL_Z))
       (Some (euler 0 PI 0)))
    (Some 1%nat).

Definition setupPortals (fuel : nat) : option Portal.heap :=
  Portal.link fuel outerPortal innerPortal
    (fun i => match i with O => newOuterPortal | _ => newInnerPortal end).

(** The globals of the traversal of the player. *)
Record Globals : Type := mkGlobals {
  controller : FPSController.t;
  isInInnerRoom : bool;
  lastPortalSide : R
}.

(** [teleportThroughPortal()] *)
Definition teleportThroughPortal (st : Globals) : Globals :=
  let pos := FPSController.position (controller st) in
  let outerPortalZ := OUTER_PORTAL_Z in
  let innerPortalZ := INNER_WORLD_OFFSET + INNER_PORTAL_Z in
  if isInInnerRoom st then
    let distFromPortal := vz pos - innerPortalZ in
    let newZ := outerPortalZ + distFromPortal in
    mkGlobals
      (FPSController.setBounds None
         (FPSController.teleport (vec3 (vx pos) (vy pos) newZ) (controller st)))
      false 1
  else
    let distFromPortal := vz pos - outerPortalZ in
    let newZ := innerPortalZ + distFromPortal in
    mkGlobals
      (FPSController.setBounds (Some INNER_ROOM_BOUNDS)
         (FPSController.teleport (vec3 (vx pos) (vy pos) newZ) (controller st)))
      true 1.



(** The pushable cube: the translation and rotation of its body, the world
    it is in, and its two meshes. *)
Record CubeMesh : Type := mkCubeMesh {
  mesh_position : Vector3;
  mesh_quaternion : Quaternion;
  mesh_visible : bool
}.

Record Cube : Type := mkCube {
  pushCubeBody : Vector3 * Quaternion;
  pushCubeInInnerWorld : bool;
  pushCubeMeshOuter : CubeMesh;
  pushCubeMeshInner : CubeMesh
}.

(** [updateCubeVisuals(pos, rot)] *)
Definition updateCubeVisuals (pos : Vector3) (rot : Quaternion) (c : Cube) : Cube :=
  let cubeHalfSize := PUSH_CUBE_SIZE / 2 in
  let distFromPortal :=
    if pushCubeInInnerWorld c then vz pos - (INNER_WORLD_OFFSET + INNER_PORTAL_Z)
    else vz pos - OUTER_PORTAL_Z in
  let cubeInDoorArea :=
    bool_decide (Rabs (vx pos) < DOOR_WIDTH / 2 + cubeHalfSize)
    && bool_decide (vy pos < DOOR_HEIGHT + cubeHalfSize) in
  let nearPortalZ := bool_decide (Rabs distFromPortal < cubeHalfSize + 0.5) in
  let usePortalVisuals := cubeInDoorArea && nearPortalZ in
  if usePortalVisuals then
    let hasOutsidePart := bool_decide (distFromPortal > - cubeHalfSize) in
    let hasInsidePart := bool_decide (distFromPortal < cubeHalfSize) in
    mkCube (pushCubeBody c) (pushCubeInInnerWorld c)
      (mkCubeMesh (vec3 (vx pos) (vy pos) (OUTER_PORTAL_Z + distFromPortal)) rot
         hasOutsidePart)
      (mkCubeMesh
         (vec3 (vx pos) (vy pos) (INNER_WORLD_OFFSET + INNER_PORTAL_Z + distFromPortal))
         rot hasInsidePart)
  else if pushCubeInInnerWorld c then
    mkCube (pushCubeBody c) (pushCubeInInnerWorld c)
      (mkCubeMesh (mesh_position (pushCubeMeshOuter c))
         (mesh_quaternion (pushCubeMeshOuter c)) false)
      (mkCubeMesh (vec3 (vx pos) (vy pos) (vz pos)) rot true)
  else
    mkCube (pushCubeBody c) (pushCubeInInnerWorld c)
      (mkCubeMesh (vec3 (vx pos) (vy pos) (vz pos)) rot true)
      (mkCubeMesh (mesh_position (pushCubeMeshInner c))
         (mesh_quaternion (pushCubeMeshInner c)) false).

(** [teleportCubeToInner()] and [teleportCubeToOuter()] *)
Definition teleportCubeToInner (c : Cube) : Cube :=
  let pos := fst (pushCubeBody c) in
  let distFromPortal := vz pos - OUTER_PORTAL_Z in
  let newZ := INNER_WORLD_OFFSET + INNER_PORTAL_Z + distFromPortal in
  mkCube (vec3 (vx pos) (vy pos) newZ, snd (pushCubeBody c)) true
    (pushCubeMeshOuter c) (pushCubeMeshInner c).

Definition teleportCubeToOuter (c : Cube) : Cube :=
  let pos := fst (pushCubeBody c) in
  let innerPortalZ := INNER_WORLD_OFFSET + INNER_PORTAL_Z in
  let distFromPortal := vz pos - innerPortalZ in
  let newZ := OUTER_PORTAL_Z + distFromPortal in
  mkCube (vec3 (vx pos) (vy pos) newZ, snd (pushCubeBody c)) false
    (pushCubeMeshOuter c) (pushCubeMeshInner c).

(** [updatePushableCube()] for a cube whose body and meshes exist, from
    "Check portal crossing for cube" on. The part before it only wakes the
    body and sets its velocity, which are not kept here. [pos] and [rot] are
    the values [pushCubeBody.translation()] and [pushCubeBody.rotation()]
    returned at the head of the function; each call of these returns a new
    object, so that [pos] is not changed by the [setTranslation] of a
    teleport. *)
Definition updatePushableCube (c : Cube) : Cube :=
  let pos := fst (pushCubeBody c) in
  let rot := snd (pushCubeBody c) in
  let portalZ :=
    if pushCubeInInnerWorld c then INNER_WORLD_OFFSET + INNER_PORTAL_Z
    else OUTER_PORTAL_Z in
  let doorHalfWidth := DOOR_WIDTH / 2 in
  let cubeHalf := PUSH_CUBE_SIZE / 2 in
  let inDoorX := bool_decide (Rabs (vx pos) < doorHalfWidth) in
  let inDoorY := bool_decide (vy pos > 0) && bool_decide (vy pos < DOOR_HEIGHT) in
  let c :=
    if negb (pushCubeInInnerWorld c) then
      let inFrontOfRoom := bool_decide (vz pos > 0) in
      let crossingPortal :=
        bool_decide (vz pos < portalZ)
        && bool_decide (vz pos > portalZ - cubeHalf - 0.1) in
      if inDoorX && inDoorY && inFrontOfRoom && crossingPortal
      then teleportCubeToInner c
      else c
    else
      let innerPortalZ := INNER_WORLD_OFFSET + INNER_PORTAL_Z in
      let crossingPortal :=
        bool_decide (vz pos > innerPortalZ)
        && bool_decide (vz pos < innerPortalZ + cubeHalf + 0.1) in
      if inDoorX && inDoorY && crossingPortal
      then teleportCubeToOuter c
      else c in
  updateCubeVisuals pos rot c.

(** The tests of [updatePushableCube] under which it teleports the cube. *)
Definition cubeCrosses (c : Cube) : Prop :=
  let pos := fst (pushCubeBody c) in
  let innerPortalZ := INNER_WORLD_OFFSET + INNER_PORTAL_Z in
  Rabs (vx pos) < DOOR_WIDTH / 2
  /\ 0 < vy pos < DOOR_HEIGHT
  /\ (if pushCubeInInnerWorld c
      then innerPortalZ < vz pos < innerPortalZ + PUSH_CUBE_SIZE / 2 + 0.1
      else 0 < vz pos
           /\ OUTER_PORTAL_Z - PUSH_CUBE_SIZE / 2 - 0.1 < vz pos < OUTER_PORTAL_Z).

End App.

(** ** The camera transform as the specification words it

    "1. rel = viewerPosition - thisPortal.position; 2. rotate rel into this
    portal's local frame by the inverse of this portal's orientation;
    3. negate the local X and Z components of rel; 4. rotate the result by
    the destination portal's orientation, then add the destination portal's
    position; 5. destination orientation = destination.orientation o
    flipY(pi) o inverse(thisPortal.orientation) o viewerOrientation."

    Rotations are written here as the textbook conjugation [q v q^-1] and
    orientations compose by the Hamilton product. *)

Module Spec.

Definition hamilton (a b : Quaternion) : Quaternion :=
  quat (qw a * qx b + qx a * qw b + qy a * qz b - qz a * qy b)
       (qw a * qy b - qx a * qz b + qy a * qw b + qz a * qx b)
       (qw a * qz b + qx a * qy b - qy a * qx b + qz a * qw b)
       (qw a * qw b - qx a * qx b - qy a * qy b - qz a * qz b).

Definition inverse (q : Quaternion) : Quaternion :=
  quat (- qx q / qnormSq q) (- qy q / qnormSq q) (- qz q / qnormSq q)
       (qw q / qnormSq q).

Definition rotate (q : Quaternion) (v : Vector3) : Vector3 :=
  let r := hamilton (hamilton q (quat (vx v) (vy v) (vz v) 0)) (inverse q) in
  vec3 (qx r) (qy r) (qz r).

(** The rotation by [angle] about the vertical axis. *)
Definition flipY (angle : R) : Quaternion :=
  quat 0 (sin (angle / 2)) 0 (cos (angle / 2)).

Definition destinationCameraTransform (thisPortal destination : Portal.t)
    (viewerPosition : Vector3) (viewerOrientation : Quaternion)
    : Vector3 * Quaternion :=
  let rel := sub viewerPosition (Portal.position thisPortal) in
  let rel := rotate (inverse (Portal.quaternion thisPortal)) rel in
  let rel := vec3 (- vx rel) (vy rel) (- vz rel) in
  let position := add (rotate (Portal.quaternion destination) rel)
                      (Portal.position destination) in
  let orientation :=
    hamilton (Portal.quaternion destination)
      (hamilton (flipY PI)
         (hamilton (inverse (Portal.quaternion thisPortal)) viewerOrientation)) in
  (position, orientation).

(** The near plane of a perspective camera in camera space: the camera looks
    down -Z, the plane is z = -near and its normal points to the visible
    side. *)
Definition nearPlane (near : R) : Plane := plane (vec3 0 0 (-1)) (- near).

(** A camera at the origin of the world, looking down -Z, with the given
    projection matrix. *)
Definition cameraAtOrigin (P : Matrix4) : Camera :=
  mkCamera (vec3 0 0 0) Quaternion_new (vec3 1 1 1)
           Matrix4_identity Matrix4_identity P (Matrix4_invert P).

End Spec.

(** The portals of the through-portal scenario: A at the origin with the
    identity orientation, B at (0,0,10) turned by 180 degrees about the
    vertical axis, both 1 wide and 2 high; A is portal 0 and B is portal 1. *)
Module Scenario.

Definition A : Portal.t := Portal.new "A" 1 2 (vec3 0 0 0) None.
Definition B : Portal.t := Portal.new "B" 1 2 (vec3 0 0 10) (Some (euler 0 PI 0)).

Definition heap0 : Portal.heap :=
  fun i => match i with O => A | _ => B end.

(** Portals as the constructor leaves them: none is linked. *)
Definition unlinked : Portal.heap :=
  fun _ => Portal.new "" 1 2 (vec3 0 0 0) None.

(** A and B linked, A in scene 0 and B in scene 1. *)
Definition linked : Portal.heap :=
  fun i => match i with
           | O => Portal.set_scene (Portal.set_linkedPortal A (Some 1%nat)) (Some 0%nat)
           | _ => Portal.set_scene (Portal.set_linkedPortal B (Some 0%nat)) (Some 1%nat)
           end.

(** The same two portals, B having been turned about after its construction
    without a call of [updateMesh]: its cached normal is still +Z. From
    (0,1,0.5) the cameras used alternate between (0,1,10.5) and (0,1,0.5),
    both in front of the portal they look at. *)
Definition turned : Portal.heap :=
  fun i => match i with
           | O => Portal.mk "A" 1 2 (vec3 0 0 0) (quat 0 0 0 1)
                    (Some 1%nat) (Some 0%nat) (vec3 0 0 1)
           | _ => Portal.mk "B" 1 2 (vec3 0 0 10) (quat 0 1 0 0)
                    (Some 0%nat) (Some 1%nat) (vec3 0 0 1)
           end.

(** A renderer state: object [n] is a mesh of scene [n] with the one
    material [n], the mask meshes are in no scene, and no call was made. *)
Definition sceneMaterial : Material :=
  {| colorWrite := true; depthWrite := true; stencilWrite := false;
     stencilRef := 0; stencilFunc := AlwaysStencilFunc |}.

Definition cameraAt (pos : Vector3) : Camera :=
  updateMatrixWorld
    (mkCamera pos Quaternion_new (vec3 1 1 1) Matrix4_identity Matrix4_identity
       (makePerspective (-1) 1 1 (-1) 1 3 WebGLCoordinateSystem)
       (Matrix4_invert (makePerspective (-1) 1 1 (-1) 1 3 WebGLCoordinateSystem))).

Definition state0 (h : Portal.heap) (pos : Vector3) : PortalRenderer.State :=
  PortalRenderer.mkState true
    (fun c => match c with
              | PortalRenderer.PortalCamera => PerspectiveCamera_new
              | PortalRenderer.UserCamera _ => cameraAt pos
              end)
    h
    (fun sc => [PortalRenderer.SceneObject sc])
    (fun o => match o with
              | PortalRenderer.PortalMesh _ => None
              | PortalRenderer.SceneObject n => Some n
              end)
    (fun n => [PortalRenderer.SceneMaterial n])
    (fun m => match m with
              | PortalRenderer.PortalStencilMaterial _ => Portal._stencilMaterial_new
              | PortalRenderer.SceneMaterial _ => sceneMaterial
              end)
    [].

(** The state [state0] after [scene.add(portal.mesh)] for the mask mesh of
    portal 0 and the scene [sc]. *)
Definition meshIn (sc : SceneId) (h : Portal.heap) (pos : Vector3)
    : PortalRenderer.State :=
  PortalRenderer.Object3D_add sc (PortalRenderer.PortalMesh 0) (state0 h pos).

(** The poses of A and B as the utilities take them. *)
Definition poseA : PortalUtils.Pose := PortalUtils.pose (vec3 0 0 0) (quat 0 0 0 1).
Definition poseB : PortalUtils.Pose := PortalUtils.pose (vec3 0 0 10) (quat 0 1 0 0).

Definition viewerPosition : Vector3 := vec3 0 1 (-0.5).
Definition viewerQuaternion : Quaternion := Quaternion_new.

End Scenario.

(** * Properties *)

Lemma vec3_eq (a b c a' b' c' : R) :
  a = a' -> b = b' -> c = c' -> vec3 a b c = vec3 a' b' c'.
Proof. intros -> -> ->. reflexivity. Qed.

Lemma Rmult_m1 (x : R) : x * -1 = - x.
Proof. ring. Qed.

(** Unfolds the vector and quaternion operations down to polynomial goals. *)
Ltac three_unfold :=
  unfold unit, qnormSq, applyQuaternion, invert, multiply, add, sub, dot,
    lengthSq in *;
  cbn [vx vy vz qx qy qz qw] in *;
  rewrite ?Rmult_m1 in *.

Lemma rotate_back (q : Quaternion) (v : Vector3) :
  unit q -> applyQuaternion (applyQuaternion v (invert q)) q = v.
Proof.
  destruct q as [x y z w], v as [a b c]. intros H. three_unfold.
  apply vec3_eq; nsatz.
Qed.

Lemma quat_eq (a b c d a' b' c' d' : R) :
  a = a' -> b = b' -> c = c' -> d = d' -> quat a b c d = quat a' b' c' d'.
Proof. intros -> -> -> ->. reflexivity. Qed.

Lemma rotate_there (q : Quaternion) (v : Vector3) :
  unit q -> applyQuaternion (applyQuaternion v q) (invert q) = v.
Proof.
  destruct q as [x y z w], v as [a b c]. intros H. three_unfold.
  apply vec3_eq; nsatz.
Qed.

Lemma applyQuaternion_lengthSq (q : Quaternion) (v : Vector3) :
  unit q -> lengthSq (applyQuaternion v q) = lengthSq v.
Proof.
  destruct q as [x y z w], v as [a b c]. intros H. three_unfold. nsatz.
Qed.

Lemma invert_unit (q : Quaternion) : unit q -> unit (invert q).
Proof.
  destruct q as [x y z w]. intros H. three_unfold. rewrite <- H. ring.
Qed.

Lemma add_sub (v p : Vector3) : sub (add v p) p = v.
Proof. destruct v, p. three_unfold. apply vec3_eq; ring. Qed.

Lemma sub_add (v p : Vector3) : add (sub v p) p = v.
Proof. destruct v, p. three_unfold. apply vec3_eq; ring. Qed.

(** ** Point and direction transforms *)

Section Transforms.

Import PortalUtils.

(** C5. Sending a point from portal A to portal B and the result back from B
    to A gives the point again, for any positions and unit orientations. *)
Theorem transformPoint_round_trip (p : Vector3) (A B : Pose) :
  unit (quaternion A) -> unit (quaternion B) ->
  transformPointThroughPortal (transformPointThroughPortal p A B) B A = p.
Proof.
  intros HA HB. unfold transformPointThroughPortal.
  rewrite add_sub, (rotate_there _ _ HB).
  set (u := applyQuaternion (sub p (position A)) (invert (quaternion A))).
  cbn [vx vy vz]. rewrite !Ropp_involutive.
  replace (vec3 (vx u) (vy u) (vz u)) with u by (destruct u; reflexivity).
  subst u. rewrite (rotate_back _ _ HA). apply sub_add.
Qed.

Lemma transformPoint_round_trip_witness :
  transformPointThroughPortal
    (transformPointThroughPortal (vec3 1 2 3)
       (pose (vec3 0 0 0) (quat 0 0 0 1)) (pose (vec3 0 0 10) (quat 0 1 0 0)))
    (pose (vec3 0 0 10) (quat 0 1 0 0)) (pose (vec3 0 0 0) (quat 0 0 0 1))
  = vec3 1 2 3.
Proof.
  apply transformPoint_round_trip; unfold unit, qnormSq; cbn; lra.
Defined.

(** C10. The direction transform keeps the Euclidean length of the
    direction, for any unit orientations of the two portals. *)
Theorem transformDirection_length (v : Vector3) (source dest : Pose) :
  unit (quaternion source) -> unit (quaternion dest) ->
  length (transformDirectionThroughPortal v source dest) = length v.
Proof.
  intros Hs Hd. unfold transformDirectionThroughPortal, length. f_equal.
  rewrite (applyQuaternion_lengthSq _ _ Hd).
  rewrite <- (applyQuaternion_lengthSq _ v (invert_unit _ Hs)).
  unfold lengthSq. cbn [vx vy vz]. ring.
Qed.

Lemma transformDirection_length_witness :
  length (transformDirectionThroughPortal (vec3 3 0 4)
            (pose (vec3 0 0 0) (quat 1 0 0 0)) (pose (vec3 5 5 5) (quat 0 1 0 0)))
  = length (vec3 3 0 4).
Proof.
  apply transformDirection_length; unfold unit, qnormSq; cbn; lra.
Defined.

End Transforms.

(** ** The destination camera transform *)

Lemma hamilton_multiply (a b : Quaternion) : Spec.hamilton a b = multiply a b.
Proof. destruct a, b. unfold Spec.hamilton, multiply. cbn. apply quat_eq; ring. Qed.

Lemma inverse_unit (q : Quaternion) : unit q -> Spec.inverse q = invert q.
Proof.
  intros H. unfold Spec.inverse, invert. rewrite H. destruct q. cbn.
  apply quat_eq; field.
Qed.

Lemma rotate_applyQuaternion (q : Quaternion) (v : Vector3) :
  unit q -> Spec.rotate q v = applyQuaternion v q.
Proof.
  intros H. unfold Spec.rotate. rewrite (inverse_unit _ H), !hamilton_multiply.
  destruct q as [x y z w], v as [a b c]. three_unfold. apply vec3_eq; nsatz.
Qed.

Lemma flipY_PI : setFromAxisAngle (vec3 0 1 0) PI = quat 0 1 0 0.
Proof.
  unfold setFromAxisAngle. cbn. rewrite sin_PI2, cos_PI2. apply quat_eq; ring.
Qed.

Lemma spec_flipY_PI : Spec.flipY PI = quat 0 1 0 0.
Proof. unfold Spec.flipY. rewrite sin_PI2, cos_PI2. reflexivity. Qed.

Lemma multiply_assoc (a b c : Quaternion) :
  multiply a (multiply b c) = multiply (multiply a b) c.
Proof. destruct a, b, c. unfold multiply. cbn. apply quat_eq; ring. Qed.

Lemma getDestinationCameraTransform_spec (h : Portal.heap) (this dest : PortalId)
    (vp : Vector3) (vq : Quaternion) :
  Portal._linkedPortal (h this) = Some dest ->
  unit (Portal.quaternion (h this)) ->
  unit (Portal.quaternion (h dest)) ->
  Portal.getDestinationCameraTransform h this vp vq
  = Spec.destinationCameraTransform (h this) (h dest) vp vq.
Proof.
  intros Hl Ht Hd.
  unfold Portal.getDestinationCameraTransform, Spec.destinationCameraTransform.
  rewrite Hl, (inverse_unit _ Ht), !hamilton_multiply, spec_flipY_PI, flipY_PI.
  rewrite (rotate_applyQuaternion _ _ (invert_unit _ Ht)).
  rewrite (rotate_applyQuaternion _ _ Hd).
  rewrite !multiply_assoc. reflexivity.
Qed.

Lemma half_zero : 0 / 2 = 0.
Proof. field. Qed.

Lemma Scenario_B_quaternion : Portal.quaternion Scenario.B = quat 0 1 0 0.
Proof.
  unfold Scenario.B, Portal.new, setFromEuler. cbn.
  rewrite half_zero, sin_PI2, cos_PI2, sin_0, cos_0. apply quat_eq; ring.
Qed.

Lemma Scenario_A_quaternion : Portal.quaternion Scenario.A = quat 0 0 0 1.
Proof. reflexivity. Qed.

Lemma Scenario_link :
  Portal.link 2%nat 0%nat 1%nat Scenario.heap0
  = Some (<[1%nat := Portal.set_linkedPortal Scenario.B (Some 0%nat)]>
            (<[0%nat := Portal.set_linkedPortal Scenario.A (Some 1%nat)]> Scenario.heap0)).
Proof. reflexivity. Qed.

Lemma identity_rotation_minus_one (v : Vector3) :
  applyQuaternion v (quat 0 0 0 (-1)) = v /\ Spec.rotate (quat 0 0 0 (-1)) v = v.
Proof.
  destruct v as [a b c]. split.
  - three_unfold. apply vec3_eq; ring.
  - unfold Spec.rotate, Spec.hamilton, Spec.inverse, qnormSq. cbn.
    apply vec3_eq; field.
Qed.

(** C1. Between linked portals with unit orientations the method computes
    the five steps of the specification. In the scenario (A at the origin,
    B at (0,0,10) turned by 180 degrees about the vertical axis, [A.link(B)],
    viewer at (0,1,-0.5) with the identity orientation) the result is the
    position (0,1,9.5) and the quaternion (0,0,0,-1), which rotates every
    vector onto itself: the identity rotation. *)
Theorem getDestinationCameraTransform_five_steps :
  (forall (h : Portal.heap) (this dest : PortalId) (vp : Vector3) (vq : Quaternion),
      Portal._linkedPortal (h this) = Some dest ->
      unit (Portal.quaternion (h this)) ->
      unit (Portal.quaternion (h dest)) ->
      Portal.getDestinationCameraTransform h this vp vq
      = Spec.destinationCameraTransform (h this) (h dest) vp vq)
  /\ (exists h : Portal.heap,
        Portal.link 2%nat 0%nat 1%nat Scenario.heap0 = Some h
        /\ Portal.getDestinationCameraTransform h 0%nat
             Scenario.viewerPosition Scenario.viewerQuaternion
           = (vec3 0 1 9.5, quat 0 0 0 (-1))
        /\ forall v : Vector3,
             applyQuaternion v (quat 0 0 0 (-1)) = v
             /\ Spec.rotate (quat 0 0 0 (-1)) v = v).
Proof.
  split; [exact getDestinationCameraTransform_spec|].
  eexists. split; [exact Scenario_link|]. split; [|exact identity_rotation_minus_one].
  unfold Portal.getDestinationCameraTransform.
  rewrite fn_lookup_insert_ne by discriminate. rewrite !fn_lookup_insert.
  cbn [Portal._linkedPortal Portal.set_linkedPortal Portal.quaternion Portal.position].
  rewrite !fn_lookup_insert.
  cbn [Portal.set_linkedPortal Portal.quaternion Portal.position].
  rewrite Scenario_B_quaternion, Scenario_A_quaternion, flipY_PI.
  unfold Scenario.viewerPosition, Scenario.viewerQuaternion, Quaternion_new.
  unfold Scenario.A, Scenario.B, Portal.new. cbn [Portal.position]. three_unfold.
  f_equal; [apply vec3_eq | apply quat_eq]; lra.
Qed.

Lemma getDestinationCameraTransform_five_steps_witness :
  let h := <[0%nat := Portal.set_linkedPortal Scenario.A (Some 1%nat)]> Scenario.heap0 in
  Portal.getDestinationCameraTransform h 0%nat (vec3 0 1 (-0.5)) Quaternion_new
  = Spec.destinationCameraTransform (h 0%nat) (h 1%nat) (vec3 0 1 (-0.5)) Quaternion_new.
Proof.
  intros h.
  apply (proj1 getDestinationCameraTransform_five_steps h 0%nat 1%nat).
  - reflexivity.
  - change (unit (Portal.quaternion Scenario.A)).
    rewrite Scenario_A_quaternion. unfold unit, qnormSq. cbn. lra.
  - change (unit (Portal.quaternion Scenario.B)).
    rewrite Scenario_B_quaternion. unfold unit, qnormSq. cbn. lra.
Defined.

(** C8. On a portal without a link the method returns the viewer's position
    and orientation as they are; the method is a total function, so there is
    no other outcome. *)
Theorem getDestinationCameraTransform_unlinked (h : Portal.heap) (this : PortalId)
    (vp : Vector3) (vq : Quaternion) :
  Portal.linkedPortal h this = None ->
  Portal.getDestinationCameraTransform h this vp vq = (vp, vq).
Proof.
  unfold Portal.linkedPortal, Portal.getDestinationCameraTransform.
  intros ->. reflexivity.
Qed.

Lemma getDestinationCameraTransform_unlinked_witness :
  Portal.getDestinationCameraTransform Scenario.heap0 0%nat
    Scenario.viewerPosition Scenario.viewerQuaternion
  = (Scenario.viewerPosition, Scenario.viewerQuaternion).
Proof.
  apply getDestinationCameraTransform_unlinked. reflexivity.
Defined.

(** ** Crossing state *)

Section Crossing.

Import PortalUtils.

Lemma crossing_iff (p : Vector3) (r : R) (pl : Plane) :
  crossing (getPortalCrossingState p r pl) = true
  <-> Rabs (distanceToPoint pl p) < r.
Proof.
  unfold getPortalCrossingState. cbn [crossing].
  rewrite andb_true_iff, !bool_decide_eq_true. split.
  - intros [H1 H2]. apply Rabs_def1; lra.
  - intros H. apply Rabs_def2 in H. lra.
Qed.

(** C7 (amended). The four fields are computed as stated, and [crossing]
    holds exactly when |signedDistance| < radius. At signedDistance = radius
    there is no crossing. At signedDistance = 0 with a positive radius there
    is a crossing and inFront = behind = radius. *)
Theorem crossing_state (p : Vector3) (r : R) (pl : Plane) :
  let s := getPortalCrossingState p r pl in
  signedDistance s = dot (normal pl) p + constant pl
  /\ inFront s = Rmax 0 (signedDistance s + r)
  /\ behind s = Rmax 0 (- signedDistance s + r)
  /\ (crossing s = true <-> Rabs (signedDistance s) < r)
  /\ (signedDistance s = r -> crossing s = false)
  /\ (signedDistance s = 0 -> 0 < r ->
      crossing s = true /\ inFront s = r /\ behind s = r).
Proof.
  cbv zeta. repeat split; try reflexivity.
  - apply crossing_iff.
  - apply crossing_iff.
  - cbn. intros H. apply andb_false_iff. right. apply bool_decide_eq_false. lra.
  - apply crossing_iff. cbn in *. rewrite H, Rabs_R0. assumption.
  - cbn in *. unfold Math_max. rewrite H, Rplus_0_l. apply Rmax_right. lra.
  - cbn in *. unfold Math_max. rewrite H, Ropp_0, Rplus_0_l. apply Rmax_right. lra.
Qed.

Lemma crossing_state_witness :
  let s := getPortalCrossingState (vec3 0 0 0) 1 (plane (vec3 0 0 1) 0) in
  crossing s = true /\ inFront s = 1 /\ behind s = 1.
Proof.
  apply (crossing_state (vec3 0 0 0) 1 (plane (vec3 0 0 1) 0)).
  - cbn. unfold distanceToPoint, dot. cbn. lra.
  - lra.
Defined.

(** C7, as stated, fails for an object of radius 0 lying on the plane: the
    signed distance is 0 and the code reports no crossing. *)
Lemma radius_zero_not_crossing :
  let s := getPortalCrossingState (vec3 0 0 0) 0 (plane (vec3 0 0 1) 0) in
  signedDistance s = 0 /\ crossing s = false.
Proof.
  cbv zeta. split.
  - cbn. unfold distanceToPoint, dot. cbn. lra.
  - cbn. apply andb_false_iff. right. apply bool_decide_eq_false.
    unfold distanceToPoint, dot. cbn. lra.
Qed.

End Crossing.

(** ** Linking *)

Lemma set_linkedPortal_same (p : Portal.t) (l : option nat) :
  Portal._linkedPortal p = l -> Portal.set_linkedPortal p l = p.
Proof. intros <-. destruct p. reflexivity. Qed.

(** Two nested calls are all [link] ever makes: with fuel 2 or more it
    returns the heap in which [a] points to [b] and [b] to [a], every other
    field and portal being as before. *)
Lemma link_result (fuel : nat) (a b : nat) (h : nat -> Portal.t) :
  (2 <= fuel)%nat ->
  exists h', Portal.link fuel a b h = Some h'
    /\ forall c, h' c =
         if decide (c = a) then Portal.set_linkedPortal (h a) (Some b)
         else if decide (c = b) then Portal.set_linkedPortal (h b) (Some a)
         else h c.
Proof.
  intros Hf. destruct fuel as [|[|n]]; [lia | lia |].
  cbn [Portal.link]. case_decide as Hc.
  - assert (Hab : a <> b).
    { intros ->. apply Hc. rewrite fn_lookup_insert. reflexivity. }
    rewrite decide_False.
    2:{ intros Hn. apply Hn. rewrite fn_lookup_insert_ne, fn_lookup_insert by congruence.
        reflexivity. }
    eexists. split; [reflexivity|]. intros c.
    destruct (decide (c = a)) as [->|Hca].
    + rewrite fn_lookup_insert_ne, fn_lookup_insert by congruence. reflexivity.
    + destruct (decide (c = b)) as [->|Hcb].
      * rewrite fn_lookup_insert, fn_lookup_insert_ne by congruence. reflexivity.
      * rewrite !fn_lookup_insert_ne by congruence. reflexivity.
  - eexists. split; [reflexivity|]. intros c.
    destruct (decide (c = a)) as [->|Hca].
    + rewrite fn_lookup_insert. reflexivity.
    + rewrite fn_lookup_insert_ne by congruence.
      destruct (decide (c = b)) as [->|Hcb]; [|reflexivity].
      rewrite fn_lookup_insert_ne in Hc by congruence.
      symmetry. apply set_linkedPortal_same, Hc.
Qed.

Lemma linked_after (a b c : nat) (h h' : nat -> Portal.t) :
  (forall c, h' c =
     if decide (c = a) then Portal.set_linkedPortal (h a) (Some b)
     else if decide (c = b) then Portal.set_linkedPortal (h b) (Some a)
     else h c) ->
  Portal.linkedPortal h' c =
    if decide (c = a) then Some b
    else if decide (c = b) then Some a
    else Portal.linkedPortal h c.
Proof.
  intros H. unfold Portal.linkedPortal. rewrite H.
  repeat case_decide; reflexivity.
Qed.

(** Linking keeps the heap symmetric when neither portal had a third
    partner. *)
Lemma link_keeps_symmetric (a b : nat) (h h' : nat -> Portal.t) :
  (forall c, h' c =
     if decide (c = a) then Portal.set_linkedPortal (h a) (Some b)
     else if decide (c = b) then Portal.set_linkedPortal (h b) (Some a)
     else h c) ->
  Portal.symmetric h -> Portal.freeFor h a b -> Portal.freeFor h b a ->
  Portal.symmetric h'.
Proof.
  intros H Hs Ha Hb x y. rewrite !(linked_after a b _ h h' H).
  unfold Portal.freeFor in *.
  destruct (decide (x = a)) as [->|Hxa].
  { intros [= <-]. case_decide; [congruence | rewrite decide_True; done]. }
  destruct (decide (x = b)) as [->|Hxb].
  { intros [= <-]. rewrite decide_True; done. }
  intros Hxy. pose proof (Hs _ _ Hxy) as Hyx.
  destruct (decide (y = a)) as [->|Hya]; [destruct Ha as [?|[?|?]]; congruence|].
  destruct (decide (y = b)) as [->|Hyb]; [destruct Hb as [?|[?|?]]; congruence|].
  exact Hyx.
Qed.

(** C6 (amended). From any state, [a.link(b)] returns with [a] linked to [b]
    and [b] to [a]; [b.link(a)] gives the same heap; a second [a.link(b)]
    changes nothing; and the heap stays symmetric provided neither portal was
    linked to a third one before the call. *)
Theorem link_symmetry (fuel : nat) (a b : nat) (h : nat -> Portal.t) :
  (2 <= fuel)%nat ->
  exists h',
    Portal.link fuel a b h = Some h'
    /\ Portal.linkedPortal h' a = Some b
    /\ Portal.linkedPortal h' b = Some a
    /\ (exists h'', Portal.link fuel b a h = Some h'' /\ forall c, h'' c = h' c)
    /\ (exists h2, Portal.link fuel a b h' = Some h2 /\ forall c, h2 c = h' c)
    /\ (Portal.symmetric h -> Portal.freeFor h a b -> Portal.freeFor h b a ->
        Portal.symmetric h').
Proof.
  intros Hf.
  destruct (link_result fuel a b h Hf) as (h' & Hl & Hh').
  exists h'. split; [exact Hl|].
  pose proof (linked_after a b a h h' Hh') as Ha. rewrite decide_True in Ha by done.
  pose proof (linked_after a b b h h' Hh') as Hb.
  assert (Hb' : Portal.linkedPortal h' b = Some a).
  { rewrite Hb. case_decide; [congruence | rewrite decide_True; done]. }
  repeat split; [exact Ha | exact Hb' | | | ].
  - destruct (link_result fuel b a h Hf) as (h'' & Hl' & Hh'').
    exists h''. split; [exact Hl'|]. intros c. rewrite Hh'', Hh'.
    repeat case_decide; congruence.
  - destruct (link_result fuel a b h' Hf) as (h2 & Hl2 & Hh2).
    exists h2. split; [exact Hl2|]. intros c. rewrite Hh2.
    unfold Portal.linkedPortal in Ha, Hb'.
    repeat case_decide; subst; try reflexivity;
      apply set_linkedPortal_same; assumption.
  - apply (link_keeps_symmetric a b h h' Hh').
Qed.

Lemma link_symmetry_witness :
  exists h',
    Portal.link 2 0 1 Scenario.unlinked = Some h'
    /\ Portal.linkedPortal h' 0%nat = Some 1%nat
    /\ Portal.linkedPortal h' 1%nat = Some 0%nat
    /\ Portal.symmetric h'.
Proof.
  destruct (link_symmetry 2 0 1 Scenario.unlinked (le_n 2))
    as (h' & Hl & Ha & Hb & _ & _ & Hs).
  exists h'. repeat split; [exact Hl | exact Ha | exact Hb |].
  apply Hs.
  - intros x y H. discriminate H.
  - left. reflexivity.
  - left. reflexivity.
Defined.

(** C6, as stated, fails when a linked portal is linked again: after
    [p0.link(p1)] and [p0.link(p2)], portal 1 still points to portal 0, which
    now points to portal 2. *)
Lemma relink_breaks_symmetry :
  exists h,
    Portal.links 2 [(0, 1); (0, 2)]%nat Scenario.unlinked = Some h
    /\ Portal.linkedPortal h 1%nat = Some 0%nat
    /\ Portal.linkedPortal h 0%nat = Some 2%nat
    /\ ~ Portal.symmetric h.
Proof.
  eexists. split; [reflexivity|]. split; [reflexivity|]. split; [reflexivity|].
  intros Hs. specialize (Hs 1%nat 0%nat eq_refl). discriminate Hs.
Qed.

(** ** Oblique projection *)

Section Oblique.

Import PortalUtils.

Ltac list_eq tac :=
  repeat (apply (f_equal2 cons); [tac|]); try reflexivity.

Lemma Math_sign_0 : Math_sign 0 = 0.
Proof.
  unfold Math_sign. rewrite !decide_False by lra. reflexivity.
Qed.

(** With the clip plane, in camera space, on the near plane, the third row
    computed from a WebGL-convention perspective matrix is the row already
    there. *)
Lemma oblique_row_webgl (l r t b n f : R) :
  0 < n < f -> l <> r -> b <> t ->
  let P := makePerspective l r t b n f WebGLCoordinateSystem in
  let C := vec4 0 0 (-1) (- n) in
  let q := vec4 ((Math_sign 0 + elt P 8) / elt P 0) ((Math_sign 0 + elt P 9) / elt P 5)
                (-1) ((1 + elt P 10) / elt P 14) in
  let c := Vector4_multiplyScalar C (2 / Vector4_dot C q) in
  <[14%nat := v4w c]> (<[10%nat := v4z c + 1]> (<[6%nat := v4y c]> (<[2%nat := v4x c]> P)))
  = P.
Proof.
  intros Hnf Hlr Hbt. cbv zeta. unfold makePerspective, elt. cbn [nth].
  unfold Vector4_multiplyScalar, Vector4_dot. cbn [v4x v4y v4z v4w].
  rewrite Math_sign_0. cbn [insert list_insert].
  assert (Hp : 0 < n * (f - n)) by (apply Rmult_lt_0_compat; lra).
  list_eq ltac:(try reflexivity; try (field; repeat split; try lra; nra)).
Qed.

(** In the WebGL clip-space convention the function does what its comment
    says: for a perspective camera with 0 < near < far, if the clip plane,
    expressed in camera space, is the camera's near plane, the oblique matrix
    is the camera's projection matrix. *)
Lemma oblique_projection_near_plane (l r t b n f : R) (camera : Camera)
    (clipPlane : Plane) :
  0 < n < f -> l <> r -> b <> t ->
  projectionMatrix camera = makePerspective l r t b n f WebGLCoordinateSystem ->
  Plane_applyMatrix4 clipPlane (matrixWorldInverse camera) = Spec.nearPlane n ->
  computeObliqueProjectionMatrix camera clipPlane = projectionMatrix camera.
Proof.
  intros Hnf Hlr Hbt HP HC. unfold computeObliqueProjectionMatrix.
  rewrite HC, HP. unfold Spec.nearPlane. cbn [normal constant vx vy vz].
  cbn [v4x v4y]. apply (oblique_row_webgl l r t b n f Hnf Hlr Hbt).
Qed.

Lemma getNormalMatrix_identity :
  getNormalMatrix Matrix4_identity = [1; 0; 0;  0; 1; 0;  0; 0; 1].
Proof.
  unfold getNormalMatrix, Matrix3_invert, setFromMatrix4, Matrix4_identity, elt.
  cbn [nth]. rewrite decide_False by lra.
  unfold Matrix3_transpose, elt. cbn [nth].
  list_eq ltac:(field).
Qed.

Lemma length_down : length (vec3 0 0 (-1)) = 1.
Proof.
  unfold length, lengthSq. cbn [vx vy vz].
  replace (0 * 0 + 0 * 0 + -1 * -1) with 1 by ring. apply sqrt_1.
Qed.

(** The view matrix of a camera at the origin leaves a plane facing down -Z
    where it is. *)
Lemma Plane_applyMatrix4_identity (c : R) :
  Plane_applyMatrix4 (plane (vec3 0 0 (-1)) c) Matrix4_identity
  = plane (vec3 0 0 (-1)) c.
Proof.
  unfold Plane_applyMatrix4. rewrite getNormalMatrix_identity.
  cbn [normal constant].
  assert (Hn : applyMatrix3 (vec3 0 0 (-1)) [1; 0; 0; 0; 1; 0; 0; 0; 1]
               = vec3 0 0 (-1)).
  { unfold applyMatrix3, elt. cbn [nth vx vy vz]. apply vec3_eq; ring. }
  rewrite Hn. unfold normalize. rewrite length_down, decide_False by lra.
  unfold divideScalar, multiplyScalar, coplanarPoint, applyMatrix4, Matrix4_identity,
    elt, dot, multiplyScalar.
  cbn [nth vx vy vz normal constant]. f_equal; [apply vec3_eq|]; field.
Qed.

Lemma oblique_projection_near_plane_witness :
  let P := makePerspective (-1) 1 1 (-1) 1 3 WebGLCoordinateSystem in
  computeObliqueProjectionMatrix (Spec.cameraAtOrigin P) (Spec.nearPlane 1) = P.
Proof.
  intros P.
  apply (oblique_projection_near_plane (-1) 1 1 (-1) 1 3
           (Spec.cameraAtOrigin P) (Spec.nearPlane 1)).
  - lra.
  - lra.
  - lra.
  - reflexivity.
  - apply Plane_applyMatrix4_identity.
Defined.

(** For near 1 and far 3 in the WebGPU clip-space convention the entries 10
    and 14 of the projection matrix are -3/2 and -3/2, and the function
    returns -2 and -3 in their place. *)
Lemma oblique_projection_webgpu_differs :
  let P := makePerspective (-1) 1 1 (-1) 1 3 WebGPUCoordinateSystem in
  let camera := Spec.cameraAtOrigin P in
  Plane_applyMatrix4 (Spec.nearPlane 1) (matrixWorldInverse camera) = Spec.nearPlane 1
  /\ elt (projectionMatrix camera) 10 = -3 / 2
  /\ elt (computeObliqueProjectionMatrix camera (Spec.nearPlane 1)) 10 = -2
  /\ computeObliqueProjectionMatrix camera (Spec.nearPlane 1) <> projectionMatrix camera.
Proof.
  cbv zeta.
  assert (H10 : elt (computeObliqueProjectionMatrix
                       (Spec.cameraAtOrigin
                          (makePerspective (-1) 1 1 (-1) 1 3 WebGPUCoordinateSystem))
                       (Spec.nearPlane 1)) 10 = -2).
  { unfold computeObliqueProjectionMatrix, Spec.cameraAtOrigin.
    cbn [matrixWorldInverse projectionMatrix]. unfold Spec.nearPlane.
    rewrite Plane_applyMatrix4_identity. cbn [normal constant vx vy vz v4x v4y].
    unfold makePerspective, elt. cbn [nth].
    unfold Vector4_multiplyScalar, Vector4_dot. cbn [v4x v4y v4z v4w].
    rewrite Math_sign_0. cbn [insert list_insert nth]. field. }
  split; [apply Plane_applyMatrix4_identity|].
  split; [unfold Spec.cameraAtOrigin, makePerspective, elt; cbn; field|].
  split; [exact H10|].
  intros Heq. rewrite Heq in H10. revert H10.
  unfold Spec.cameraAtOrigin, makePerspective, elt. cbn. lra.
Qed.

(** The same computation on a WebGPU-convention perspective matrix, whose
    depth range is [0, 1]: the third row that comes out is the row of the
    WebGL-convention matrix of the same frustum. *)
Lemma oblique_row_webgpu (l r t b n f : R) :
  0 < n < f -> l <> r -> b <> t ->
  let P := makePerspective l r t b n f WebGPUCoordinateSystem in
  let C := vec4 0 0 (-1) (- n) in
  let q := vec4 ((Math_sign 0 + elt P 8) / elt P 0) ((Math_sign 0 + elt P 9) / elt P 5)
                (-1) ((1 + elt P 10) / elt P 14) in
  let c := Vector4_multiplyScalar C (2 / Vector4_dot C q) in
  <[14%nat := v4w c]> (<[10%nat := v4z c + 1]> (<[6%nat := v4y c]> (<[2%nat := v4x c]> P)))
  = makePerspective l r t b n f WebGLCoordinateSystem.
Proof.
  intros Hnf Hlr Hbt. cbv zeta. unfold makePerspective, elt. cbn [nth].
  unfold Vector4_multiplyScalar, Vector4_dot. cbn [v4x v4y v4z v4w].
  rewrite Math_sign_0. cbn [insert list_insert].
  assert (Hp : 0 < n * (f - n)) by (apply Rmult_lt_0_compat; lra).
  list_eq ltac:(try reflexivity; try (field; repeat split; try lra; nra)).
Qed.

(** C4. The code breaks the claim on the projection matrices of the renderer
    it is written for. For a perspective camera with 0 < near < far whose
    projection matrix is in the WebGPU clip-space convention (depth in
    [0, 1], what a [WebGPURenderer] on its WebGPU backend gives its cameras),
    and a clip plane that, expressed in camera space, is the camera's near
    plane, [computeObliqueProjectionMatrix] does not return the camera's
    projection matrix: it returns the WebGL-convention matrix of the same
    frustum. The entries 10 and 14 are off by near / (far - near) and by
    far * near / (far - near); the plane asked for, z = -near, gets the clip
    depth -near (normalised depth -1, outside [0, 1]) and the matrix clips
    at z = -2 far near / (far + near) instead. *)
Theorem oblique_projection_webgpu_near_plane (l r t b n f : R) (camera : Camera)
    (clipPlane : Plane) :
  0 < n < f -> l <> r -> b <> t ->
  projectionMatrix camera = makePerspective l r t b n f WebGPUCoordinateSystem ->
  Plane_applyMatrix4 clipPlane (matrixWorldInverse camera) = Spec.nearPlane n ->
  let M := computeObliqueProjectionMatrix camera clipPlane in
  M = makePerspective l r t b n f WebGLCoordinateSystem
  /\ M <> projectionMatrix camera
  /\ elt (projectionMatrix camera) 10 - elt M 10 = n / (f - n)
  /\ elt (projectionMatrix camera) 14 - elt M 14 = f * n / (f - n)
  /\ elt M 10 * (- n) + elt M 14 = - n
  /\ elt M 10 * (- (2 * f * n / (f + n))) + elt M 14 = 0.
Proof.
  intros Hnf Hlr Hbt HP HC. cbv zeta.
  assert (HM : computeObliqueProjectionMatrix camera clipPlane
               = makePerspective l r t b n f WebGLCoordinateSystem).
  { unfold computeObliqueProjectionMatrix.
    rewrite HC, HP. unfold Spec.nearPlane. cbn [normal constant vx vy vz].
    cbn [v4x v4y]. apply (oblique_row_webgpu l r t b n f Hnf Hlr Hbt). }
  rewrite HM, HP. unfold makePerspective, elt. cbn [nth].
  assert (Hd : 0 < n / (f - n)).
  { apply Rdiv_lt_0_compat; lra. }
  assert (H10 : - f / (f - n) - - (f + n) / (f - n) = n / (f - n)) by (field; lra).
  split; [reflexivity|]. split; [|split; [exact H10|]].
  - intros Heq. apply (f_equal (fun m => nth 10 m 0)) in Heq. cbn [nth] in Heq. lra.
  - repeat split; field; lra.
Qed.

Lemma oblique_projection_webgpu_near_plane_witness :
  let P := makePerspective (-1) 1 1 (-1) 1 3 WebGPUCoordinateSystem in
  let M := computeObliqueProjectionMatrix (Spec.cameraAtOrigin P) (Spec.nearPlane 1) in
  M = makePerspective (-1) 1 1 (-1) 1 3 WebGLCoordinateSystem
  /\ M <> P
  /\ elt P 10 - elt M 10 = 1 / (3 - 1)
  /\ elt P 14 - elt M 14 = 3 * 1 / (3 - 1)
  /\ elt M 10 * (- 1) + elt M 14 = - 1
  /\ elt M 10 * (- (2 * 3 * 1 / (3 + 1))) + elt M 14 = 0.
Proof.
  intros P.
  apply (oblique_projection_webgpu_near_plane (-1) 1 1 (-1) 1 3
           (Spec.cameraAtOrigin P) (Spec.nearPlane 1)).
  - lra.
  - lra.
  - lra.
  - reflexivity.
  - apply Plane_applyMatrix4_identity.
Defined.

End Oblique.

(** ** The stencil mask pass and the scene graph *)

Section SceneGraph.

Import PortalRenderer.

(** [children.push(o)] followed by [indexOf(o)] and [splice(index, 1)]. *)
Lemma find_after_push (l : list Object3D) (o : Object3D) :
  exists i, list_find (fun x => x = o) (l ++ [o]) = Some (i, o)
    /\ (forall x, x ∈ delete i (l ++ [o]) <-> x ∈ l)
    /\ (o ∉ l -> delete i (l ++ [o]) = l).
Proof.
  induction l as [|a l (i & Hf & He & Hd)].
  - exists 0%nat. cbn. rewrite decide_True by done. repeat split; done.
  - cbn [app list_find]. destruct (decide (a = o)) as [->|Hne].
    + exists 0%nat. cbn [delete list_delete]. repeat split.
      * rewrite elem_of_app, list_elem_of_singleton, elem_of_cons. tauto.
      * rewrite elem_of_app, list_elem_of_singleton, elem_of_cons. tauto.
      * intros Hn. exfalso. apply Hn. left.
    + exists (S i). rewrite Hf. repeat split.
      * cbn. intros Hx. apply elem_of_cons in Hx as [->|Hx]; [left|right; apply He, Hx].
      * cbn. intros Hx. apply elem_of_cons in Hx as [->|Hx]; [left|right; apply He, Hx].
      * intros Hn. cbn. f_equal. apply Hd. intros Ho. apply Hn. right. exact Ho.
Qed.

Lemma Object3D_remove_other (sc sc' : nat) (o : Object3D) (st : State) :
  sc <> sc' -> children (Object3D_remove sc o st) sc' = children st sc'.
Proof.
  intros Hne. unfold Object3D_remove.
  destruct (list_find _ _) as [[i x]|]; [|reflexivity].
  cbn. apply fn_lookup_insert_ne, Hne.
Qed.

Lemma removeFromParent_children (o : Object3D) (st : State) (sc : nat) :
  parent st o <> Some sc ->
  children (removeFromParent o st) sc = children st sc.
Proof.
  intros Hp. unfold removeFromParent. destruct (parent st o) as [p|] eqn:E.
  - apply Object3D_remove_other. congruence.
  - reflexivity.
Qed.

Lemma Object3D_remove_calls (sc : nat) (o : Object3D) (st : State) :
  calls (Object3D_remove sc o st) = calls st
  /\ cameras (Object3D_remove sc o st) = cameras st.
Proof.
  unfold Object3D_remove. destruct (list_find _ _) as [[i x]|]; split; reflexivity.
Qed.

Lemma removeFromParent_calls (o : Object3D) (st : State) :
  calls (removeFromParent o st) = calls st
  /\ cameras (removeFromParent o st) = cameras st.
Proof.
  unfold removeFromParent. destruct (parent st o); [apply Object3D_remove_calls|done].
Qed.

(** C9. The stencil mask pass of a portal with an owning scene issues one
    draw call of that scene and leaves the scene with the children it had:
    the same set always, and the same list whenever the mesh was a recorded
    child or no child at all. A mesh that was not a child is among the
    objects drawn and has no parent afterwards. *)
Theorem renderPortalStencil_children (portal : nat) (camera : CameraRef)
    (stencilValue : nat) (st : State) (sc : nat) :
  Portal.scene (portalHeap st portal) = Some sc ->
  let st' := _renderPortalStencil portal camera stencilValue st in
  (forall o, o ∈ children st' sc <-> o ∈ children st sc)
  /\ (PortalMesh portal ∉ children st sc \/ parent st (PortalMesh portal) = Some sc ->
      children st' sc = children st sc)
  /\ exists drawn,
       calls st' = calls st ++ [Render (MaskPass stencilValue) sc (cameras st camera) drawn]
       /\ (parent st (PortalMesh portal) <> Some sc ->
           PortalMesh portal ∈ drawn.*1 /\ parent st' (PortalMesh portal) = None).
Proof.
  intros Hs. unfold _renderPortalStencil. cbn [portalHeap set_materials]. rewrite Hs.
  cbn [parent]. case_bool_decide as Hp; cbn [negb].
  - (* the mesh is a child already: the graph is not touched *)
    cbv zeta. repeat split; try done.
    eexists. split; [reflexivity|]. intros Hn. contradiction.
  - (* the mesh is added, drawn and removed *)
    cbv zeta. unfold Object3D_add.
    set (st0 := set_materials st _).
    assert (Hch : children (removeFromParent (PortalMesh portal) st0) sc = children st sc).
    { rewrite removeFromParent_children by exact Hp. reflexivity. }
    destruct (removeFromParent_calls (PortalMesh portal) st0) as [Hcalls Hcams].
    destruct (find_after_push (children st sc) (PortalMesh portal)) as (i & Hf & He & Hd).
    unfold Object3D_remove, renderer_render.
    cbn [children set_calls set_graph parent calls cameras].
    rewrite !fn_lookup_insert, Hch, Hf. cbn [children set_graph parent].
    rewrite !fn_lookup_insert. split; [exact He|]. split.
    + intros [Hn|Hc]; [apply Hd, Hn | contradiction].
    + eexists. rewrite Hcalls, Hcams. split; [reflexivity|]. intros _. split; [|reflexivity].
      rewrite <- list_fmap_compose. cbn. rewrite list_fmap_id.
      apply elem_of_app. right. left.
Qed.

Lemma renderPortalStencil_children_witness :
  let st := Scenario.state0 Scenario.linked (vec3 0 1 0.5) in
  let st' := _renderPortalStencil 0 (UserCamera 0) 1 st in
  children st' 0%nat = children st 0%nat.
Proof.
  intros st st'.
  apply (renderPortalStencil_children 0 (UserCamera 0) 1 st 0 eq_refl).
  left. cbn. intros H. apply list_elem_of_singleton in H. discriminate H.
Defined.

End SceneGraph.

(** ** The frame: what each method of the renderer leaves as it was *)

Section Rendering.

Import PortalRenderer Trace.

Lemma extends_refl (Q : Event -> Prop) (st : State) : extends Q st st.
Proof. split; [reflexivity|]. exists []. rewrite app_nil_r. split; [reflexivity|constructor]. Qed.

Lemma extends_trans (Q : Event -> Prop) (st1 st2 st3 : State) :
  extends Q st1 st2 -> extends Q st2 st3 -> extends Q st1 st3.
Proof.
  intros (Hh1 & l1 & Hc1 & Hq1) (Hh2 & l2 & Hc2 & Hq2). split; [congruence|].
  exists (l1 ++ l2). rewrite Hc2, Hc1, app_assoc. split; [reflexivity|].
  apply Forall_app; split; assumption.
Qed.

Lemma extends_weaken (Q Q' : Event -> Prop) (st st' : State) :
  (forall e, Q e -> Q' e) -> extends Q st st' -> extends Q' st st'.
Proof.
  intros HQ (Hh & l & Hc & Hq). split; [exact Hh|]. exists l. split; [exact Hc|].
  eapply Forall_impl; eauto.
Qed.

Section Traverse.

Variable P : Material -> Prop.
Variable f : Material -> Material.
Hypothesis Pf : forall m, P (f m).

Lemma update_keeps (ids : list MaterialId) (ms : MaterialId -> Material) (i : MaterialId) :
  P (ms i) -> P (foldl (fun ms i => <[i := f (ms i)]> ms) ms ids i).
Proof.
  revert ms. induction ids as [|a ids IH]; intros ms Hi; [exact Hi|].
  cbn [foldl]. apply IH. destruct (decide (a = i)) as [->|Hne].
  - rewrite fn_lookup_insert. apply Pf.
  - rewrite fn_lookup_insert_ne by exact Hne. exact Hi.
Qed.

Lemma update_sets (ids : list MaterialId) (ms : MaterialId -> Material) (i : MaterialId) :
  i ∈ ids -> P (foldl (fun ms i => <[i := f (ms i)]> ms) ms ids i).
Proof.
  revert ms. induction ids as [|a ids IH]; intros ms Hi.
  - apply elem_of_nil in Hi. contradiction.
  - cbn [foldl]. apply elem_of_cons in Hi as [->|Hi].
    + apply update_keeps. rewrite fn_lookup_insert. apply Pf.
    + apply IH, Hi.
Qed.

Lemma traverse_keeps (g : Object3D -> list MaterialId) (os : list Object3D)
    (ms : MaterialId -> Material) (i : MaterialId) :
  P (ms i) ->
  P (foldl (fun ms o => foldl (fun ms i => <[i := f (ms i)]> ms) ms (g o)) ms os i).
Proof.
  revert ms. induction os as [|o os IH]; intros ms Hi; [exact Hi|].
  cbn [foldl]. apply IH, update_keeps, Hi.
Qed.

Lemma traverse_sets (g : Object3D -> list MaterialId) (os : list Object3D)
    (ms : MaterialId -> Material) (o : Object3D) (i : MaterialId) :
  o ∈ os -> i ∈ g o ->
  P (foldl (fun ms o => foldl (fun ms i => <[i := f (ms i)]> ms) ms (g o)) ms os i).
Proof.
  revert ms. induction os as [|a os IH]; intros ms Ho Hi.
  - apply elem_of_nil in Ho. contradiction.
  - cbn [foldl]. apply elem_of_cons in Ho as [->|Ho].
    + apply traverse_keeps, update_sets, Hi.
    + apply IH; assumption.
Qed.

End Traverse.

(** A stencil-tested pass appends one draw call, in which every material of
    every child of the scene has the function and the reference value
    asked for. *)
Lemma renderSceneWithStencilTest_call (camera : CameraRef) (sc : nat) (ref : nat)
    (func : StencilFunc) (st : State) :
  let st' := _renderSceneWithStencilTest camera sc ref func st in
  portalHeap st' = portalHeap st
  /\ cameras st' = cameras st
  /\ exists drawn,
       calls st' = calls st ++ [Render (StencilTestPass ref func) sc (cameras st camera) drawn]
       /\ stencilTested ref func sc
            (Render (StencilTestPass ref func) sc (cameras st camera) drawn).
Proof.
  cbv zeta. unfold _renderSceneWithStencilTest.
  split; [reflexivity|]. split; [reflexivity|].
  eexists. split; [reflexivity|].
  eexists _, _. split; [reflexivity|].
  apply Forall_fmap, Forall_forall. intros o Ho. cbn [snd].
  apply Forall_fmap, Forall_forall. intros i Hi.
  cbn in Ho, Hi |- *.
  apply (traverse_sets
           (fun m => stencilRef m = ref /\ stencilFunc m = func /\ stencilWrite m = false)
           (fun m => mkMaterial (colorWrite m) (depthWrite m) false ref func)
           (fun m => ltac:(cbn; auto))
           (materialsOf st) (children st sc) (materials st) o i Ho Hi).
Qed.

Lemma renderPortalStencil_frame (portal : nat) (camera : CameraRef) (v : nat)
    (st : State) :
  let st' := _renderPortalStencil portal camera v st in
  cameras st' = cameras st
  /\ extends (fun e => exists sc cam drawn, e = Render (MaskPass v) sc cam drawn) st st'.
Proof.
  cbv zeta. unfold _renderPortalStencil. cbn [portalHeap set_materials].
  destruct (Portal.scene (portalHeap st portal)) as [sc|].
  2:{ split; [reflexivity|]. split; [reflexivity|]. exists [].
      cbn [calls]. rewrite app_nil_r. split; [reflexivity|constructor]. }
  cbn [parent]. set (st0 := set_materials st _).
  assert (Hadd : forall o, calls (Object3D_add sc o st0) = calls st
                           /\ cameras (Object3D_add sc o st0) = cameras st
                           /\ portalHeap (Object3D_add sc o st0) = portalHeap st).
  { intros o. unfold Object3D_add, removeFromParent, Object3D_remove.
    destruct (parent st0 o); [destruct (list_find _ _) as [[? ?]|]|]; done. }
  assert (Hrem : forall o s, calls (Object3D_remove sc o s) = calls s
                             /\ cameras (Object3D_remove sc o s) = cameras s
                             /\ portalHeap (Object3D_remove sc o s) = portalHeap s).
  { intros o s. unfold Object3D_remove. destruct (list_find _ _) as [[? ?]|]; done. }
  case_bool_decide; cbn [negb].
  - split; [reflexivity|]. split; [reflexivity|].
    eexists. split; [reflexivity|]. repeat constructor. eauto.
  - destruct (Hadd (PortalMesh portal)) as (Hc & Hcam & Hh).
    destruct (Hrem (PortalMesh portal)
                (renderer_render (MaskPass v) sc camera (Object3D_add sc (PortalMesh portal) st0)))
      as (Hc' & Hcam' & Hh').
    split; [rewrite Hcam'; exact Hcam|]. split; [rewrite Hh'; exact Hh|].
    eexists. rewrite Hc'. cbn [renderer_render calls set_calls]. rewrite Hc.
    split; [reflexivity|]. repeat constructor. eauto.
Qed.

Lemma setupPortalCamera_frame (portal destPortal : nat) (camera : CameraRef)
    (st : State) :
  let st' := setupPortalCamera portal destPortal camera st in
  let t := Portal.getDestinationCameraTransform (portalHeap st) portal
             (cam_position (cameras st camera)) (cam_quaternion (cameras st camera)) in
  portalHeap st' = portalHeap st
  /\ calls st' = calls st
  /\ cam_position (cameras st' PortalCamera) = fst t
  /\ cam_quaternion (cameras st' PortalCamera) = snd t.
Proof.
  cbv zeta. unfold setupPortalCamera. cbn [portalHeap calls cameras set_cameras].
  rewrite fn_lookup_insert. repeat split; reflexivity.
Qed.

(** ** Termination and nesting depth of [_renderPortals] *)

Lemma for_of_extends {A : Type} (Q : Event -> Prop) (xs : list A)
    (body : A -> State -> option State) :
  (forall x st, exists st', body x st = Some st' /\ extends Q st st') ->
  forall st, exists st', for_of xs body st = Some st' /\ extends Q st st'.
Proof.
  intros Hb. induction xs as [|x xs IH]; intros st.
  - exists st. split; [reflexivity|apply extends_refl].
  - cbn [for_of]. destruct (Hb x st) as (st1 & -> & H1).
    destruct (IH st1) as (st2 & -> & H2).
    exists st2. split; [reflexivity|]. eapply extends_trans; eassumption.
Qed.

(** One iteration of the loop of [_renderPortals] for a portal that is
    linked, seen from the front and whose destination world is found, given
    the state [st4] that the nested call returns. *)
Lemma portal_iteration_extends (N depth : nat) (portal destPortal : nat)
    (camera : CameraRef) (sc : nat) (st st4 : State) :
  (depth < N)%nat ->
  extends (passWithin (depth + 1) N)
    (setupPortalCamera portal destPortal camera
       (_renderPortalStencil portal camera (depth + 1) st)) st4 ->
  extends (passWithin depth N) st
    (_renderSceneWithStencilTest PortalCamera sc (depth + 1) EqualStencilFunc st4).
Proof.
  intros Hd H34.
  destruct (renderPortalStencil_frame portal camera (depth + 1) st) as (_ & H12).
  destruct (setupPortalCamera_frame portal destPortal camera
              (_renderPortalStencil portal camera (depth + 1) st)) as (Hh & Hc & _).
  destruct (renderSceneWithStencilTest_call PortalCamera sc (depth + 1)
              EqualStencilFunc st4) as (Hh5 & _ & drawn & Hc5 & _).
  eapply extends_trans.
  { eapply extends_weaken; [|exact H12].
    intros e (s & c & d & ->). cbn. lia. }
  eapply extends_trans.
  { split; [exact Hh|]. exists []. rewrite app_nil_r. split; [exact Hc|constructor]. }
  eapply extends_trans.
  { eapply extends_weaken; [|exact H34].
    intros [| [v|v []] ? ? ?]; cbn; try tauto; lia. }
  split; [exact Hh5|]. eexists. split; [exact Hc5|].
  repeat constructor; lia.
Qed.

(** With more fuel than there are levels left, [_renderPortals] returns; the
    calls it adds are mask passes and destination passes whose markers lie
    between [depth + 1] and [maxRecursion]. *)
Lemma renderPortals_total (this : PortalRenderer.t) (fuel : nat) :
  forall (camera : CameraRef) (currentWorld : PortalWorld)
         (allWorlds : list (string * PortalWorld)) (depth : nat) (st : State),
    (maxRecursion this - depth < fuel)%nat ->
    exists st',
      _renderPortals this fuel camera currentWorld allWorlds depth st = Some st'
      /\ extends (passWithin depth (maxRecursion this)) st st'.
Proof.
  induction fuel as [|fuel IH]; intros camera currentWorld allWorlds depth st Hf; [lia|].
  cbn [_renderPortals]. case_bool_decide as Hd.
  { exists st. split; [reflexivity|apply extends_refl]. }
  apply for_of_extends. clear st. intros portal st.
  destruct (Portal.linkedPortal (portalHeap st) portal) as [destPortal|];
    [|exists st; split; [reflexivity|apply extends_refl]].
  destruct (Portal.isPointInFront _ _); cbn [negb];
    [|exists st; split; [reflexivity|apply extends_refl]].
  destruct (findWorld allWorlds destPortal) as [destWorld|];
    [|exists st; split; [reflexivity|apply extends_refl]].
  edestruct (IH PortalCamera destWorld allWorlds (depth + 1)%nat) as (st4 & -> & H34);
    [lia|].
  eexists. split; [reflexivity|].
  apply (portal_iteration_extends _ _ portal destPortal camera); [lia|exact H34].
Qed.

(** The calls of one [render]: the clear, the portal passes, and the
    current world drawn with the stencil function not-equal and the reference
    value 0. *)
Lemma render_calls (this : PortalRenderer.t) (fuel : nat) (camera : CameraRef)
    (currentWorld : PortalWorld) (allWorlds : list (string * PortalWorld))
    (st : State) :
  (maxRecursion this < fuel)%nat ->
  exists st1 st' l e,
    _renderPortals this fuel camera currentWorld allWorlds 0
      (renderer_clear true true true (set_autoClear st false)) = Some st1
    /\ calls st1 = calls st ++ Clear true true true :: l
    /\ Forall (passWithin 0 (maxRecursion this)) l
    /\ render this fuel camera currentWorld allWorlds st = Some st'
    /\ calls st' = calls st ++ Clear true true true :: l ++ [e]
    /\ stencilTested 0 NotEqualStencilFunc (scene currentWorld) e
    /\ autoClear st' = autoClear st.
Proof.
  intros Hf. unfold render.
  destruct (renderPortals_total this fuel camera currentWorld allWorlds 0
              (renderer_clear true true true (set_autoClear st false)))
    as (st1 & Hrp & _ & l & Hc & Hl); [lia|].
  destruct (renderSceneWithStencilTest_call camera (scene currentWorld) 0
              NotEqualStencilFunc st1) as (_ & _ & drawn & Hc' & Ht).
  rewrite Hrp. cbn [calls renderer_clear set_calls set_autoClear] in Hc.
  rewrite <- app_assoc in Hc. cbn [app] in Hc.
  eexists st1, _, l, _. split; [reflexivity|]. split; [exact Hc|].
  split; [exact Hl|]. split; [reflexivity|].
  split; [|split; [exact Ht|reflexivity]].
  cbn [calls set_autoClear]. unfold _renderWorldWithStencil. rewrite Hc', Hc.
  rewrite <- app_assoc. reflexivity.
Qed.

Lemma renderSimple_calls (camera : CameraRef) (currentScene destinationScene : nat)
    (portal : nat) (st : State) :
  exists l e,
    calls (renderSimple camera currentScene destinationScene portal st)
    = calls st ++ Clear true true true :: l ++ [e]
    /\ stencilTested 1 NotEqualStencilFunc currentScene e.
Proof.
  unfold renderSimple.
  set (st0 := renderer_clear true true true (set_autoClear st false)).
  set (st1 := match Portal.linkedPortal (portalHeap st0) portal with
              | Some destPortal => _
              | None => st0
              end).
  assert (H1 : exists l, calls st1 = calls st ++ Clear true true true :: l).
  { subst st1. destruct (Portal.linkedPortal (portalHeap st0) portal) as [d|].
    - destruct (renderPortalStencil_frame portal camera 1 st0) as (_ & _ & l1 & Hc1 & _).
      destruct (setupPortalCamera_frame portal d camera
                  (_renderPortalStencil portal camera 1 st0)) as (_ & Hc2 & _).
      destruct (renderSceneWithStencilTest_call PortalCamera destinationScene 1
                  EqualStencilFunc
                  (setupPortalCamera portal d camera
                     (_renderPortalStencil portal camera 1 st0)))
        as (_ & _ & drawn & Hc3 & _).
      eexists. rewrite Hc3, Hc2, Hc1. subst st0.
      cbn [calls renderer_clear set_calls set_autoClear].
      rewrite <- !app_assoc. reflexivity.
    - exists []. reflexivity. }
  destruct H1 as (l & Hl).
  destruct (renderSceneWithStencilTest_call camera currentScene 1
              NotEqualStencilFunc st1) as (_ & _ & drawn & Hc & Ht).
  eexists l, _. split; [|exact Ht].
  cbn [calls set_autoClear]. rewrite Hc, Hl, <- app_assoc. reflexivity.
Qed.

(** C2. What the code does: [render] draws the current world last, with the
    stencil function not-equal and the reference value 0 on every material,
    not the top-level marker 1; [renderSimple], its sibling, uses 1. *)
Theorem render_current_world_reference (this : PortalRenderer.t) (fuel : nat)
    (camera : CameraRef) (currentWorld : PortalWorld)
    (allWorlds : list (string * PortalWorld)) (st : State) :
  (maxRecursion this < fuel)%nat ->
  (exists st' e,
     render this fuel camera currentWorld allWorlds st = Some st'
     /\ last (calls st') = Some e
     /\ stencilTested 0 NotEqualStencilFunc (scene currentWorld) e
     /\ marker e = Some 0%nat)
  /\ (forall destinationScene portal, exists e,
        last (calls (renderSimple camera (scene currentWorld) destinationScene portal st))
        = Some e
        /\ stencilTested 1 NotEqualStencilFunc (scene currentWorld) e
        /\ marker e = Some 1%nat).
Proof.
  intros Hf. split.
  - destruct (render_calls this fuel camera currentWorld allWorlds st Hf)
      as (st1 & st' & l & e & _ & _ & _ & Hr & Hc & Ht & _).
    exists st', e. split; [exact Hr|]. split; [|split; [exact Ht|]].
    + rewrite Hc. change (Clear true true true :: l ++ [e])
        with ((Clear true true true :: l) ++ [e]).
      rewrite app_assoc. apply last_snoc.
    + destruct Ht as (c & d & -> & _). reflexivity.
  - intros destinationScene portal.
    destruct (renderSimple_calls camera (scene currentWorld) destinationScene portal st)
      as (l & e & Hc & Ht).
    exists e. split; [|split; [exact Ht|]].
    + rewrite Hc. change (Clear true true true :: l ++ [e])
        with ((Clear true true true :: l) ++ [e]).
      rewrite app_assoc. apply last_snoc.
    + destruct Ht as (c & d & -> & _). reflexivity.
Qed.

Lemma render_current_world_reference_witness :
  exists st' e,
    render (PortalRenderer.new None None) 2 (UserCamera 0) (mkWorld 0 []) []
      (Scenario.state0 Scenario.unlinked (vec3 0 1 0.5)) = Some st'
    /\ last (calls st') = Some e
    /\ marker e = Some 0%nat.
Proof.
  destruct (proj1 (render_current_world_reference (PortalRenderer.new None None) 2
                     (UserCamera 0) (mkWorld 0 []) []
                     (Scenario.state0 Scenario.unlinked (vec3 0 1 0.5)) (le_n 2)))
    as (st' & e & Hr & Hl & _ & Hm).
  exists st', e. repeat split; assumption.
Defined.

(** ** The mutual loop *)

Lemma destinationPasses_app (l1 l2 : list Event) :
  destinationPasses (l1 ++ l2) = destinationPasses l1 ++ destinationPasses l2.
Proof. apply filter_app. Qed.

Lemma destinationPasses_masks (v : nat) (l : list Event) :
  Forall (fun e => exists sc cam drawn, e = Render (MaskPass v) sc cam drawn) l ->
  destinationPasses l = [].
Proof.
  induction 1 as [|e l (sc & cam & drawn & ->) _ IH]; [reflexivity|].
  unfold destinationPasses in *. rewrite filter_cons_False; [exact IH|]. cbn. tauto.
Qed.

Lemma findWorld_loop (sA sB A B : nat) :
  A <> B ->
  findWorld (loopRegistry sA sB A B) A = Some (worldOf sA A)
  /\ findWorld (loopRegistry sA sB A B) B = Some (worldOf sB B).
Proof.
  intros Hne. cbn. split.
  - rewrite bool_decide_eq_true_2; [reflexivity|left].
  - rewrite bool_decide_eq_false_2.
    + rewrite bool_decide_eq_true_2; [reflexivity|left].
    + intros H. apply list_elem_of_singleton in H. congruence.
Qed.

(** Two portals linked to each other, each alone in its world and each seen
    from the front by the camera that reaches it: [_renderPortals] at depth
    [depth], with [n] levels left, makes [n] destination passes, the deepest
    first. *)
Lemma loop_passes (this : PortalRenderer.t) (reg : list (string * PortalWorld))
    (h : nat -> Portal.t) (n : nat) :
  forall (X Y sX sY fuel depth : nat) (camera : CameraRef) (st : State),
    findWorld reg X = Some (worldOf sX X) ->
    findWorld reg Y = Some (worldOf sY Y) ->
    Portal.linkedPortal h X = Some Y ->
    Portal.linkedPortal h Y = Some X ->
    portalHeap st = h ->
    (depth + n = maxRecursion this)%nat ->
    (n < fuel)%nat ->
    alwaysInFront h n X (cam_position (cameras st camera))
                        (cam_quaternion (cameras st camera)) ->
    exists st' l,
      _renderPortals this fuel camera (worldOf sX X) reg depth st = Some st'
      /\ portalHeap st' = h
      /\ calls st' = calls st ++ l
      /\ marker <$> destinationPasses l = Some <$> rev (seq (depth + 1) n).
Proof.
  induction n as [|n IH];
    intros X Y sX sY fuel depth camera st HwX HwY HlX HlY Hh Hd Hf Hfront;
    (destruct fuel as [|fuel]; [lia|]); cbn [_renderPortals].
  - rewrite bool_decide_eq_true_2 by lia.
    exists st, []. rewrite app_nil_r. repeat split; try reflexivity. exact Hh.
  - rewrite bool_decide_eq_false_2 by lia.
    cbn [portals worldOf for_of]. rewrite Hh, HlX.
    cbn [alwaysInFront] in Hfront. destruct Hfront as (Hin & Hrest).
    rewrite HlX in Hrest. cbv zeta in Hrest.
    rewrite Hin. cbn [negb]. rewrite HwY.
    destruct (renderPortalStencil_frame X camera (depth + 1) st)
      as (Hcam1 & Hh1 & l1 & Hc1 & Hl1).
    destruct (setupPortalCamera_frame X Y camera
                (_renderPortalStencil X camera (depth + 1) st))
      as (Hh2 & Hc2 & Hpos & Hq).
    rewrite Hh1, Hcam1, Hh in Hpos, Hq.
    edestruct (IH Y X sY sX fuel (depth + 1)%nat PortalCamera
                 (setupPortalCamera X Y camera
                    (_renderPortalStencil X camera (depth + 1) st)))
      as (st4 & l4 & -> & Hh4 & Hc4 & Hm4);
      [exact HwY | exact HwX | exact HlY | exact HlX | congruence | lia | lia
       | rewrite Hpos, Hq; exact Hrest |].
    destruct (renderSceneWithStencilTest_call PortalCamera (scene (worldOf sY Y))
                (depth + 1) EqualStencilFunc st4) as (Hh5 & _ & drawn & Hc5 & _).
    eexists _, (l1 ++ l4 ++ [_]). split; [reflexivity|].
    split; [congruence|]. split.
    + rewrite Hc5, Hc4, Hc2, Hc1, <- !app_assoc. reflexivity.
    + rewrite !destinationPasses_app, (destinationPasses_masks _ _ Hl1).
      cbn [app]. rewrite fmap_app, Hm4.
      replace (depth + 1 + 1)%nat with (S (depth + 1)) by lia.
      cbn [seq rev]. rewrite fmap_app. reflexivity.
Qed.

(** C3 (amended). With more fuel than [maxRecursion] = N, [render] returns:
    it clears, makes portal passes and draws the current world. Every portal
    pass is a mask pass or a destination pass nested between 1 and N deep, so
    with N = 0 there is none. For two portals linked to each other, each
    alone in its world and in front of every camera used, the destination
    passes are exactly N, with the markers N, ..., 1. *)
Theorem render_recursion (this : PortalRenderer.t) (fuel : nat)
    (camera : CameraRef) (currentWorld : PortalWorld)
    (allWorlds : list (string * PortalWorld)) (st : State) :
  (maxRecursion this < fuel)%nat ->
  exists st' l e,
    render this fuel camera currentWorld allWorlds st = Some st'
    /\ calls st' = calls st ++ Clear true true true :: l ++ [e]
    /\ stencilTested 0 NotEqualStencilFunc (scene currentWorld) e
    /\ Forall (passWithin 0 (maxRecursion this)) l
    /\ (maxRecursion this = 0%nat -> l = [])
    /\ (forall sA sB A B : nat,
          A <> B ->
          currentWorld = worldOf sA A ->
          allWorlds = loopRegistry sA sB A B ->
          Portal.linkedPortal (portalHeap st) A = Some B ->
          Portal.linkedPortal (portalHeap st) B = Some A ->
          alwaysInFront (portalHeap st) (maxRecursion this) A
            (cam_position (cameras st camera)) (cam_quaternion (cameras st camera)) ->
          marker <$> destinationPasses l = Some <$> rev (seq 1 (maxRecursion this))
          /\ List.length (destinationPasses l) = maxRecursion this).
Proof.
  intros Hf.
  destruct (render_calls this fuel camera currentWorld allWorlds st Hf)
    as (st1 & st' & l & e & Hrp & Hc1 & Hl & Hr & Hc & Ht & _).
  exists st', l, e.
  split; [exact Hr|]. split; [exact Hc|]. split; [exact Ht|]. split; [exact Hl|].
  split.
  - intros H0. destruct l as [|x l]; [reflexivity|].
    apply Forall_cons in Hl as [Hx _]. rewrite H0 in Hx.
    destruct x as [| [v|v []] ? ? ?]; cbn in Hx; try contradiction; lia.
  - intros sA sB A B Hne -> -> HlA HlB Hfront.
    destruct (findWorld_loop sA sB A B Hne) as (HwA & HwB).
    destruct (loop_passes this (loopRegistry sA sB A B) (portalHeap st)
                (maxRecursion this) A B sA sB fuel 0 camera
                (renderer_clear true true true (set_autoClear st false))
                HwA HwB HlA HlB eq_refl eq_refl Hf Hfront)
      as (st2 & l2 & Hrp2 & _ & Hc2 & Hm).
    rewrite Hrp in Hrp2. injection Hrp2 as <-.
    rewrite Hc1 in Hc2. cbn [calls renderer_clear set_calls set_autoClear] in Hc2.
    rewrite <- app_assoc in Hc2. apply app_inv_head in Hc2.
    injection Hc2 as <-. split; [exact Hm|].
    apply (f_equal List.length) in Hm.
    rewrite !length_fmap, length_rev, length_seq in Hm. exact Hm.
Qed.

Lemma alwaysInFront_turned :
  alwaysInFront Scenario.turned 2 0 (vec3 0 1 0.5) Quaternion_new.
Proof.
  cbn [alwaysInFront]. split.
  - apply bool_decide_eq_true_2. cbn. three_unfold. lra.
  - cbn. split; [|exact I].
    apply bool_decide_eq_true_2. cbn. three_unfold. lra.
Qed.

Lemma render_recursion_witness :
  exists st' l e,
    render (PortalRenderer.new (Some 2%nat) None) 3 (UserCamera 0)
      (worldOf 0 0) (loopRegistry 0 1 0 1)
      (Scenario.state0 Scenario.turned (vec3 0 1 0.5)) = Some st'
    /\ calls st' = Clear true true true :: l ++ [e]
    /\ List.length (destinationPasses l) = 2%nat.
Proof.
  destruct (render_recursion (PortalRenderer.new (Some 2%nat) None) 3 (UserCamera 0)
              (worldOf 0 0) (loopRegistry 0 1 0 1)
              (Scenario.state0 Scenario.turned (vec3 0 1 0.5)) (le_n 3))
    as (st' & l & e & Hr & Hc & _ & _ & _ & Hloop).
  exists st', l, e. split; [exact Hr|]. split; [exact Hc|].
  apply (Hloop 0%nat 1%nat 0%nat 1%nat).
  - discriminate.
  - reflexivity.
  - reflexivity.
  - reflexivity.
  - reflexivity.
  - exact alwaysInFront_turned.
Defined.

(** C3, as stated for every input, fails for a current world without
    portals: with [maxRecursion] = 1 there is no destination pass, not one. *)
Lemma render_without_portals :
  exists st',
    render (PortalRenderer.new (Some 1%nat) None) 2 (UserCamera 0)
      (mkWorld 0 []) [] (Scenario.state0 Scenario.unlinked (vec3 0 1 0.5)) = Some st'
    /\ maxRecursion (PortalRenderer.new (Some 1%nat) None) = 1%nat
    /\ destinationPasses (calls st') = [].
Proof.
  eexists. split; [reflexivity|]. split; reflexivity.
Qed.

End Rendering.

(** ** A remark on the premise of the mutual loop

    When the cached normals agree with the orientations, as the constructor
    and [updateMesh] leave them, the camera moved through a portal that it
    saw from the front lies behind the destination portal: its signed
    distance changes sign. The premise "in front of every camera used" can
    then hold for one level only; [Scenario.turned] meets it beyond that
    because the normal of B was not refreshed. *)
Lemma signedDistance_through_portal (h : nat -> Portal.t) (A B : nat)
    (p : Vector3) (q : Quaternion) :
  Portal.linkedPortal h A = Some B ->
  unit (Portal.quaternion (h A)) ->
  unit (Portal.quaternion (h B)) ->
  Portal._normal (h A) = applyQuaternion (vec3 0 0 1) (Portal.quaternion (h A)) ->
  Portal._normal (h B) = applyQuaternion (vec3 0 0 1) (Portal.quaternion (h B)) ->
  Portal.getSignedDistance (h B)
    (fst (Portal.getDestinationCameraTransform h A p q))
  = - Portal.getSignedDistance (h A) p.
Proof.
  unfold Portal.linkedPortal, Portal.getDestinationCameraTransform,
    Portal.getSignedDistance.
  intros -> HA HB -> ->. cbn [fst].
  destruct (h A) as [? ? ? [ax ay az] [x y z w] ? ? ?].
  destruct (h B) as [? ? ? [bx by' bz] [x' y' z' w'] ? ? ?].
  destruct p as [px py pz].
  cbn [Portal.position Portal.quaternion] in *. three_unfold.
  nsatz.
Qed.

Lemma behind_after_passing (h : nat -> Portal.t) (A B : nat)
    (p : Vector3) (q : Quaternion) :
  Portal.linkedPortal h A = Some B ->
  unit (Portal.quaternion (h A)) ->
  unit (Portal.quaternion (h B)) ->
  Portal._normal (h A) = applyQuaternion (vec3 0 0 1) (Portal.quaternion (h A)) ->
  Portal._normal (h B) = applyQuaternion (vec3 0 0 1) (Portal.quaternion (h B)) ->
  Portal.isPointInFront (h A) p = true ->
  Portal.isPointInFront (h B)
    (fst (Portal.getDestinationCameraTransform h A p q)) = false.
Proof.
  intros Hl HA HB HnA HnB Hin.
  pose proof (signedDistance_through_portal h A B p q Hl HA HB HnA HnB) as Hs.
  unfold Portal.isPointInFront, Portal.getSignedDistance in *.
  apply bool_decide_eq_true in Hin. apply bool_decide_eq_false. lra.
Qed.

(** * Further properties of the portal code *)

Ltac unit_quat := unfold unit, qnormSq; cbn; lra.

Lemma applyQuaternion_add (a b : Vector3) (q : Quaternion) :
  applyQuaternion (add a b) q = add (applyQuaternion a q) (applyQuaternion b q).
Proof. destruct a, b, q. three_unfold. apply vec3_eq; ring. Qed.

Lemma applyQuaternion_scale (a : Vector3) (s : R) (q : Quaternion) :
  applyQuaternion (multiplyScalar a s) q = multiplyScalar (applyQuaternion a q) s.
Proof. destruct a, q. unfold multiplyScalar. three_unfold. apply vec3_eq; ring. Qed.

Lemma applyQuaternion_sub (a b : Vector3) (q : Quaternion) :
  applyQuaternion (sub a b) q = sub (applyQuaternion a q) (applyQuaternion b q).
Proof. destruct a, b, q. three_unfold. apply vec3_eq; ring. Qed.

Lemma applyQuaternion_dot (a b : Vector3) (q : Quaternion) :
  unit q -> dot (applyQuaternion a q) (applyQuaternion b q) = dot a b.
Proof. destruct a, b, q. intros H. three_unfold. nsatz. Qed.

Lemma setFromEuler_unit (e : Euler) : unit (setFromEuler e).
Proof.
  destruct e as [x y z]. unfold unit, qnormSq, setFromEuler. cbn.
  pose proof (sin2_cos2 (x / 2)) as H1. pose proof (sin2_cos2 (y / 2)) as H2.
  pose proof (sin2_cos2 (z / 2)) as H3. unfold Rsqr in *.
  set (s1 := sin (x / 2)) in *. set (c1 := cos (x / 2)) in *.
  set (s2 := sin (y / 2)) in *. set (c2 := cos (y / 2)) in *.
  set (s3 := sin (z / 2)) in *. set (c3 := cos (z / 2)) in *.
  nsatz.
Qed.

Lemma Quaternion_new_unit : unit Quaternion_new.
Proof. unit_quat. Qed.

Lemma new_unit (id : string) (w h : R) (pos : Vector3) (rot : option Euler) :
  unit (Portal.quaternion (Portal.new id w h pos rot)).
Proof. destruct rot; cbn; [apply setFromEuler_unit | apply Quaternion_new_unit]. Qed.

Lemma length_unit_z (q : Quaternion) :
  unit q -> length (applyQuaternion (vec3 0 0 1) q) = 1.
Proof.
  intros H. unfold length. rewrite applyQuaternion_lengthSq by exact H.
  unfold lengthSq. cbn. replace (0 * 0 + 0 * 0 + 1 * 1) with 1 by ring. apply sqrt_1.
Qed.

(** With a refreshed normal and a unit orientation the signed distance is
    the local z coordinate of the point. *)
Lemma signedDistance_local_z (p : Portal.t) (x : Vector3) :
  unit (Portal.quaternion p) ->
  Portal.getSignedDistance (fst (Portal.updateMesh p)) x
  = vz (applyQuaternion (sub x (Portal.position p)) (invert (Portal.quaternion p))).
Proof.
  intros H. unfold Portal.getSignedDistance, Portal.updateMesh.
  cbn [fst Portal.position Portal._normal].
  destruct p as [? ? ? [a b c] [qx qy qz qw] ? ? ?], x as [x y z].
  cbn [Portal.position Portal.quaternion] in *. three_unfold. nsatz.
Qed.

Lemma isPointInBounds_iff (p : Portal.t) (x : Vector3) (m : R) :
  Portal.isPointInBounds p x m = true <->
  let l := applyQuaternion (sub x (Portal.position p)) (invert (Portal.quaternion p)) in
  Rabs (vx l) <= Portal.width p / 2 + m /\ - m <= vy l <= Portal.height p + m.
Proof.
  unfold Portal.isPointInBounds. cbv zeta.
  rewrite !andb_true_iff, !bool_decide_eq_true. lra.
Qed.

Lemma local_of_world (q : Quaternion) (pos v : Vector3) :
  unit q ->
  applyQuaternion (sub (add (applyQuaternion v q) pos) pos) (invert q) = v.
Proof. intros H. rewrite add_sub. apply rotate_there, H. Qed.

Lemma world_distance (q : Quaternion) (pos a b : Vector3) :
  unit q ->
  length (sub (add (applyQuaternion a q) pos) (add (applyQuaternion b q) pos))
  = length (sub a b).
Proof.
  intros H. unfold length. f_equal.
  rewrite <- (applyQuaternion_lengthSq q (sub a b) H), applyQuaternion_sub.
  f_equal. destruct (applyQuaternion a q), (applyQuaternion b q), pos.
  three_unfold. apply vec3_eq; ring.
Qed.

(** ** The plane, the bounds and the corners of a portal *)

(** X1. The plane of [getPlane] gives every point the signed distance that
    [getSignedDistance] reports, it passes through the position of the
    portal, and [isPointInFront] holds exactly for the points at a positive
    distance from it. *)
Theorem getPlane_signed_distance (p : Portal.t) (x : Vector3) :
  distanceToPoint (Portal.getPlane p) x = Portal.getSignedDistance p x
  /\ distanceToPoint (Portal.getPlane p) (Portal.position p) = 0
  /\ (Portal.isPointInFront p x = true <-> distanceToPoint (Portal.getPlane p) x > 0).
Proof.
  assert (H : distanceToPoint (Portal.getPlane p) x = Portal.getSignedDistance p x).
  { unfold Portal.getPlane, Portal.getSignedDistance, distanceToPoint,
      setFromNormalAndCoplanarPoint. cbn [normal constant].
    destruct (Portal.position p), (Portal._normal p), x. three_unfold. ring. }
  split; [exact H|]. split.
  - unfold Portal.getPlane, distanceToPoint, setFromNormalAndCoplanarPoint.
    cbn [normal constant]. destruct (Portal.position p), (Portal._normal p).
    three_unfold. ring.
  - rewrite H. unfold Portal.isPointInFront, Portal.getSignedDistance.
    apply bool_decide_eq_true.
Qed.

(** X2. Whatever Euler rotation the constructor is given, or none, the new
    portal has an orientation of norm 1 and a normal of length 1, and
    [updateMesh] changes nothing of it. *)
Theorem new_unit_orientation_and_normal (id : string) (w h : R) (pos : Vector3)
    (rot : option Euler) :
  let p := Portal.new id w h pos rot in
  unit (Portal.quaternion p) /\ length (Portal._normal p) = 1
  /\ fst (Portal.updateMesh p) = p.
Proof.
  cbv zeta. split; [apply new_unit|]. split; [|reflexivity].
  apply (length_unit_z _ (new_unit id w h pos rot)).
Qed.

(** X3. After [updateMesh], for a unit orientation, the signed distance of a
    point is its z coordinate in the frame of the portal, the normal has
    length 1 and the mesh has the pose of the portal. *)
Theorem updateMesh_signed_distance (p : Portal.t) (x : Vector3) :
  unit (Portal.quaternion p) ->
  let p' := fst (Portal.updateMesh p) in
  Portal.getSignedDistance p' x
  = vz (applyQuaternion (sub x (Portal.position p)) (invert (Portal.quaternion p)))
  /\ length (Portal._normal p') = 1
  /\ snd (Portal.updateMesh p) = (Portal.position p, Portal.quaternion p).
Proof.
  intros H. cbv zeta. split; [apply signedDistance_local_z, H|].
  split; [apply length_unit_z, H | reflexivity].
Qed.

Lemma updateMesh_signed_distance_witness :
  let p := Portal.set_pose Scenario.B (vec3 0 0 10) (quat 0 0 0 1) in
  Portal.getSignedDistance (fst (Portal.updateMesh p)) (vec3 0 1 12)
  = vz (applyQuaternion (sub (vec3 0 1 12) (vec3 0 0 10)) (invert (quat 0 0 0 1))).
Proof.
  intros p. apply (updateMesh_signed_distance p (vec3 0 1 12)). unit_quat.
Defined.

(** X4. A point within the bounds for one margin is within the bounds for
    every larger margin. *)
Theorem isPointInBounds_margin (p : Portal.t) (x : Vector3) (m m' : R) :
  m <= m' -> Portal.isPointInBounds p x m = true -> Portal.isPointInBounds p x m' = true.
Proof.
  intros Hm. rewrite !isPointInBounds_iff. cbv zeta. lra.
Qed.

(** X5. With a refreshed normal and a unit orientation, moving a point along
    the normal of the portal does not change whether it is within the
    bounds: the test reads the two coordinates in the plane only. *)
Theorem isPointInBounds_along_normal (p : Portal.t) (x : Vector3) (m s : R) :
  unit (Portal.quaternion p) ->
  let p' := fst (Portal.updateMesh p) in
  Portal.isPointInBounds p' (add x (multiplyScalar (Portal._normal p') s)) m
  = Portal.isPointInBounds p' x m.
Proof.
  intros H. cbv zeta. unfold Portal.isPointInBounds, Portal.updateMesh.
  cbn [fst Portal.position Portal.quaternion Portal._normal Portal.width Portal.height].
  set (q := Portal.quaternion p) in *. set (pos := Portal.position p).
  assert (E : applyQuaternion
                (sub (add x (multiplyScalar (applyQuaternion (vec3 0 0 1) q) s)) pos)
                (invert q)
              = add (applyQuaternion (sub x pos) (invert q)) (vec3 0 0 s)).
  { replace (sub (add x (multiplyScalar (applyQuaternion (vec3 0 0 1) q) s)) pos)
      with (add (sub x pos) (multiplyScalar (applyQuaternion (vec3 0 0 1) q) s)).
    2:{ destruct x, pos, (applyQuaternion (vec3 0 0 1) q). unfold multiplyScalar.
        three_unfold. apply vec3_eq; ring. }
    rewrite applyQuaternion_add, applyQuaternion_scale, (rotate_there _ _ H).
    f_equal. unfold multiplyScalar. cbn. apply vec3_eq; ring. }
  rewrite E. destruct (applyQuaternion (sub x pos) (invert q)) as [a b c].
  cbn [add vx vy vz]. rewrite !Rplus_0_r. reflexivity.
Qed.

Lemma isPointInBounds_along_normal_witness :
  let p' := fst (Portal.updateMesh Scenario.A) in
  Portal.isPointInBounds p' (add (vec3 0 1 0) (multiplyScalar (Portal._normal p') 7)) 0
  = Portal.isPointInBounds p' (vec3 0 1 0) 0.
Proof.
  apply (isPointInBounds_along_normal Scenario.A (vec3 0 1 0) 0 7).
  rewrite Scenario_A_quaternion. unit_quat.
Defined.

(** X6. For a unit orientation and a width, height and margin that are not
    negative, the centre of [getCenter] is within the bounds, lies on the
    plane of the portal and is half the height away from its position. *)
Theorem getCenter_in_bounds (p : Portal.t) (m : R) :
  unit (Portal.quaternion p) ->
  0 <= Portal.width p -> 0 <= Portal.height p -> 0 <= m ->
  Portal.isPointInBounds p (Portal.getCenter p) m = true
  /\ Portal.getSignedDistance (fst (Portal.updateMesh p)) (Portal.getCenter p) = 0
  /\ length (sub (Portal.getCenter p) (Portal.position p)) = Portal.height p / 2.
Proof.
  intros Hq Hw Hh Hm.
  assert (Hl : applyQuaternion (sub (Portal.getCenter p) (Portal.position p))
                 (invert (Portal.quaternion p)) = vec3 0 (Portal.height p / 2) 0).
  { unfold Portal.getCenter.
    replace (add (Portal.position p)
               (applyQuaternion (vec3 0 (Portal.height p / 2) 0) (Portal.quaternion p)))
      with (add (applyQuaternion (vec3 0 (Portal.height p / 2) 0) (Portal.quaternion p))
              (Portal.position p)).
    - apply local_of_world, Hq.
    - destruct (Portal.position p), (applyQuaternion _ _). unfold add. cbn.
      apply vec3_eq; ring. }
  split; [|split].
  - apply isPointInBounds_iff. cbv zeta. rewrite Hl. cbn [vx vy].
    rewrite Rabs_R0. lra.
  - rewrite signedDistance_local_z by exact Hq. rewrite Hl. reflexivity.
  - unfold length.
    rewrite <- (applyQuaternion_lengthSq _ _ (invert_unit _ Hq)), Hl.
    unfold lengthSq. cbn [vx vy vz].
    replace (0 * 0 + Portal.height p / 2 * (Portal.height p / 2) + 0 * 0)
      with (Rsqr (Portal.height p / 2)) by (unfold Rsqr; ring).
    apply sqrt_Rsqr. lra.
Qed.

Lemma getCenter_in_bounds_witness :
  Portal.isPointInBounds Scenario.A (Portal.getCenter Scenario.A) 0 = true.
Proof.
  apply (getCenter_in_bounds Scenario.A 0).
  - rewrite Scenario_A_quaternion. unit_quat.
  - cbn. lra.
  - cbn. lra.
  - lra.
Defined.

Lemma isPointInBounds_margin_witness :
  Portal.isPointInBounds Scenario.A (Portal.getCenter Scenario.A) 0.1 = true.
Proof.
  apply (isPointInBounds_margin Scenario.A (Portal.getCenter Scenario.A) 0 0.1).
  - lra.
  - apply isPointInBounds_iff. unfold Portal.getCenter. cbv zeta.
    rewrite Scenario_A_quaternion. unfold Scenario.A, Portal.new.
    cbn [Portal.position Portal.height Portal.width Portal.quaternion].
    unfold Quaternion_new. three_unfold. split; [apply Rabs_le|]; lra.
Defined.

(** X7. For a unit orientation and a width, height and margin that are not
    negative, each corner that [getPortalCorners] computes from the pose and
    the size of a portal is within the bounds of the portal and on its
    plane. *)
Theorem getPortalCorners_in_bounds (p : Portal.t) (m : R) :
  unit (Portal.quaternion p) ->
  0 <= Portal.width p -> 0 <= Portal.height p -> 0 <= m ->
  Forall (fun c => Portal.isPointInBounds p c m = true
                   /\ Portal.getSignedDistance (fst (Portal.updateMesh p)) c = 0)
    (PortalUtils.getPortalCorners (Portal.position p) (Portal.quaternion p)
       (Portal.width p) (Portal.height p)).
Proof.
  intros Hq Hw Hh Hm. unfold PortalUtils.getPortalCorners. cbn [map].
  repeat constructor.
  all: try (apply isPointInBounds_iff; cbv zeta; rewrite (local_of_world _ _ _ Hq);
            cbn [vx vy]; split; [apply Rabs_le|]; lra).
  all: rewrite signedDistance_local_z by exact Hq;
       rewrite (local_of_world _ _ _ Hq); reflexivity.
Qed.

Lemma getPortalCorners_in_bounds_witness :
  Forall (fun c => Portal.isPointInBounds Scenario.A c 0 = true
                   /\ Portal.getSignedDistance (fst (Portal.updateMesh Scenario.A)) c = 0)
    (PortalUtils.getPortalCorners (vec3 0 0 0) (quat 0 0 0 1) 1 2).
Proof.
  apply (getPortalCorners_in_bounds Scenario.A 0).
  - rewrite Scenario_A_quaternion. unit_quat.
  - cbn. lra.
  - cbn. lra.
  - lra.
Defined.

(** X8. For a unit orientation and a width and height that are not negative
    the four corners, in the order bottom left, bottom right, top right, top
    left, form a rectangle: the horizontal sides are [width] long, the
    vertical sides [height], and the sides at the bottom left corner are
    perpendicular. *)
Theorem getPortalCorners_rectangle (pos : Vector3) (q : Quaternion) (w h : R) :
  unit q -> 0 <= w -> 0 <= h ->
  exists bl br tr tl,
    PortalUtils.getPortalCorners pos q w h = [bl; br; tr; tl]
    /\ length (sub br bl) = w /\ length (sub tl tr) = w
    /\ length (sub tl bl) = h /\ length (sub tr br) = h
    /\ dot (sub br bl) (sub tl bl) = 0.
Proof.
  intros Hq Hw Hh. unfold PortalUtils.getPortalCorners. cbn [map].
  eexists _, _, _, _. split; [reflexivity|].
  rewrite !(world_distance _ _ _ _ Hq).
  assert (Hs : forall x, 0 <= x -> sqrt (x * x) = x)
    by (intros; apply sqrt_square; assumption).
  unfold length, lengthSq, sub. cbn [vx vy vz].
  repeat split.
  - replace (_ + _ + _) with (w * w) by field. apply Hs, Hw.
  - replace (_ + _ + _) with (w * w) by field. apply Hs, Hw.
  - replace (_ + _ + _) with (h * h) by field. apply Hs, Hh.
  - replace (_ + _ + _) with (h * h) by field. apply Hs, Hh.
  - change (dot (sub (add (applyQuaternion (vec3 (w / 2) 0 0) q) pos)
                     (add (applyQuaternion (vec3 (- (w / 2)) 0 0) q) pos))
                (sub (add (applyQuaternion (vec3 (- (w / 2)) h 0) q) pos)
                     (add (applyQuaternion (vec3 (- (w / 2)) 0 0) q) pos)) = 0).
    replace (sub (add (applyQuaternion (vec3 (w / 2) 0 0) q) pos)
                 (add (applyQuaternion (vec3 (- (w / 2)) 0 0) q) pos))
      with (applyQuaternion (vec3 w 0 0) q).
    2:{ destruct q, pos. three_unfold. apply vec3_eq; field. }
    replace (sub (add (applyQuaternion (vec3 (- (w / 2)) h 0) q) pos)
                 (add (applyQuaternion (vec3 (- (w / 2)) 0 0) q) pos))
      with (applyQuaternion (vec3 0 h 0) q).
    2:{ destruct q, pos. three_unfold. apply vec3_eq; field. }
    rewrite (applyQuaternion_dot _ _ _ Hq). unfold dot. cbn. ring.
Qed.

Lemma getPortalCorners_rectangle_witness :
  exists bl br tr tl,
    PortalUtils.getPortalCorners (vec3 0 0 10) (quat 0 1 0 0) 1 2 = [bl; br; tr; tl]
    /\ length (sub br bl) = 1 /\ length (sub tl bl) = 2.
Proof.
  destruct (getPortalCorners_rectangle (vec3 0 0 10) (quat 0 1 0 0) 1 2)
    as (bl & br & tr & tl & H & H1 & _ & H3 & _).
  - unit_quat.
  - lra.
  - lra.
  - exists bl, br, tr, tl. repeat split; assumption.
Defined.

(** ** How the transforms of PortalUtils fit together *)

Section TransformAlgebra.

Import PortalUtils.

Lemma qnormSq_multiply (a b : Quaternion) :
  qnormSq (multiply a b) = qnormSq a * qnormSq b.
Proof. destruct a, b. three_unfold. ring. Qed.

Lemma multiply_unit (a b : Quaternion) : unit a -> unit b -> unit (multiply a b).
Proof. unfold unit. intros Ha Hb. rewrite qnormSq_multiply, Ha, Hb. ring. Qed.

Lemma flipY_unit : unit (setFromAxisAngle (vec3 0 1 0) PI).
Proof. rewrite flipY_PI. unit_quat. Qed.

(** Rotating by a product of unit quaternions is rotating by the right
    factor first and by the left factor next. *)
Lemma applyQuaternion_multiply (a b : Quaternion) (v : Vector3) :
  unit a -> unit b ->
  applyQuaternion v (multiply a b) = applyQuaternion (applyQuaternion v b) a.
Proof.
  destruct a as [x y z w], b as [x' y' z' w'], v as [p q r]. intros Ha Hb.
  three_unfold. apply vec3_eq; nsatz.
Qed.

Lemma applyQuaternion_flipY (v : Vector3) :
  applyQuaternion v (quat 0 1 0 0) = vec3 (- vx v) (vy v) (- vz v).
Proof. destruct v. three_unfold. apply vec3_eq; ring. Qed.

Lemma portal_rotation_unit (A B : Pose) :
  unit (quaternion A) -> unit (quaternion B) ->
  unit (multiply (multiply (quaternion B) (setFromAxisAngle (vec3 0 1 0) PI))
                 (invert (quaternion A))).
Proof.
  intros HA HB. apply multiply_unit; [apply multiply_unit|];
    [exact HB | apply flipY_unit | apply invert_unit, HA].
Qed.

Lemma portal_rotation_direction (A B : Pose) (v : Vector3) :
  unit (quaternion A) -> unit (quaternion B) ->
  applyQuaternion v
    (multiply (multiply (quaternion B) (setFromAxisAngle (vec3 0 1 0) PI))
              (invert (quaternion A)))
  = transformDirectionThroughPortal v A B.
Proof.
  intros HA HB.
  rewrite applyQuaternion_multiply;
    [|apply multiply_unit; [exact HB|apply flipY_unit] | apply invert_unit, HA].
  rewrite applyQuaternion_multiply; [|exact HB|apply flipY_unit].
  rewrite flipY_PI, applyQuaternion_flipY. reflexivity.
Qed.

Lemma transformPoint_direction (p : Vector3) (A B : Pose) :
  transformPointThroughPortal p A B
  = add (transformDirectionThroughPortal (sub p (position A)) A B) (position B).
Proof. reflexivity. Qed.

Lemma transformDirection_add (u v : Vector3) (A B : Pose) :
  transformDirectionThroughPortal (add u v) A B
  = add (transformDirectionThroughPortal u A B) (transformDirectionThroughPortal v A B).
Proof.
  unfold transformDirectionThroughPortal. rewrite (applyQuaternion_add u v).
  set (a := applyQuaternion u _). set (b := applyQuaternion v _).
  rewrite <- applyQuaternion_add. f_equal.
  destruct a, b. unfold add. cbn. apply vec3_eq; ring.
Qed.

Lemma transformDirection_scale (v : Vector3) (s : R) (A B : Pose) :
  transformDirectionThroughPortal (multiplyScalar v s) A B
  = multiplyScalar (transformDirectionThroughPortal v A B) s.
Proof.
  unfold transformDirectionThroughPortal. rewrite (applyQuaternion_scale v).
  set (a := applyQuaternion v _).
  rewrite <- applyQuaternion_scale. f_equal.
  destruct a. unfold multiplyScalar. cbn. apply vec3_eq; ring.
Qed.

Lemma transformDirection_sub (u v : Vector3) (A B : Pose) :
  transformDirectionThroughPortal (sub u v) A B
  = sub (transformDirectionThroughPortal u A B) (transformDirectionThroughPortal v A B).
Proof.
  unfold transformDirectionThroughPortal. rewrite (applyQuaternion_sub u v).
  set (a := applyQuaternion u _). set (b := applyQuaternion v _).
  rewrite <- applyQuaternion_sub. f_equal.
  destruct a, b. unfold sub. cbn. apply vec3_eq; ring.
Qed.

Lemma transformDirection_lengthSq (v : Vector3) (A B : Pose) :
  unit (quaternion A) -> unit (quaternion B) ->
  lengthSq (transformDirectionThroughPortal v A B) = lengthSq v.
Proof.
  intros HA HB. unfold transformDirectionThroughPortal.
  rewrite (applyQuaternion_lengthSq _ _ HB).
  rewrite <- (applyQuaternion_lengthSq _ v (invert_unit _ HA)).
  unfold lengthSq. cbn [vx vy vz]. ring.
Qed.

Lemma applyMatrix4_compose (pos : Vector3) (q : Quaternion) (v : Vector3) :
  unit q ->
  applyMatrix4 v (compose pos q (vec3 1 1 1)) = add (applyQuaternion v q) pos.
Proof.
  destruct pos, q, v. intros H.
  unfold applyMatrix4, compose, elt. three_unfold. cbn [nth vx vy vz].
  apply vec3_eq; field_simplify; try lra; nsatz.
Qed.

(** X9. For a linked portal the method [getDestinationCameraTransform]
    returns the pair of what [transformPointThroughPortal] and
    [transformQuaternionThroughPortal] compute from the poses of the portal
    and of its destination. *)
Theorem getDestinationCameraTransform_utils (h : nat -> Portal.t) (this dest : nat)
    (vp : Vector3) (vq : Quaternion) :
  Portal.linkedPortal h this = Some dest ->
  let src := pose (Portal.position (h this)) (Portal.quaternion (h this)) in
  let dst := pose (Portal.position (h dest)) (Portal.quaternion (h dest)) in
  Portal.getDestinationCameraTransform h this vp vq
  = (transformPointThroughPortal vp src dst, transformQuaternionThroughPortal vq src dst).
Proof.
  unfold Portal.linkedPortal, Portal.getDestinationCameraTransform. intros ->.
  reflexivity.
Qed.

Lemma getDestinationCameraTransform_utils_witness :
  let h := Scenario.linked in
  Portal.getDestinationCameraTransform h 0 (vec3 0 1 (-0.5)) Quaternion_new
  = (transformPointThroughPortal (vec3 0 1 (-0.5))
       (pose (Portal.position (h 0%nat)) (Portal.quaternion (h 0%nat)))
       (pose (Portal.position (h 1%nat)) (Portal.quaternion (h 1%nat))),
     transformQuaternionThroughPortal Quaternion_new
       (pose (Portal.position (h 0%nat)) (Portal.quaternion (h 0%nat)))
       (pose (Portal.position (h 1%nat)) (Portal.quaternion (h 1%nat)))).
Proof.
  intros h. apply (getDestinationCameraTransform_utils h 0 1). reflexivity.
Defined.

(** X10. Sending an orientation from A to B and back from B to A gives the
    quaternion with all four components negated, for unit orientations of
    the portals: not the quaternion itself, but the same rotation. *)
Theorem transformQuaternion_round_trip (q : Quaternion) (A B : Pose) :
  unit (quaternion A) -> unit (quaternion B) ->
  let q' := transformQuaternionThroughPortal (transformQuaternionThroughPortal q A B) B A in
  q' = quat (- qx q) (- qy q) (- qz q) (- qw q)
  /\ forall v, applyQuaternion v q' = applyQuaternion v q.
Proof.
  intros HA HB. cbv zeta.
  assert (E : transformQuaternionThroughPortal (transformQuaternionThroughPortal q A B) B A
              = quat (- qx q) (- qy q) (- qz q) (- qw q)).
  { unfold transformQuaternionThroughPortal. rewrite flipY_PI.
    destruct A as [pa [x y z w]], B as [pb [x' y' z' w']], q as [a b c d].
    cbn [quaternion] in *. three_unfold. apply quat_eq; nsatz. }
  split; [exact E|]. intros v. rewrite E. destruct v, q. three_unfold.
  apply vec3_eq; ring.
Qed.

Lemma transformQuaternion_round_trip_witness :
  transformQuaternionThroughPortal
    (transformQuaternionThroughPortal (quat 1 0 0 0) Scenario.poseA Scenario.poseB)
    Scenario.poseB Scenario.poseA
  = quat (- 1) (- 0) (- 0) (- 0).
Proof.
  apply (transformQuaternion_round_trip (quat 1 0 0 0) Scenario.poseA Scenario.poseB);
    unit_quat.
Defined.

(** X11. For unit orientations of the portals the point transform keeps
    distances: two points are as far apart after it as before. *)
Theorem transformPoint_isometry (p p' : Vector3) (A B : Pose) :
  unit (quaternion A) -> unit (quaternion B) ->
  length (sub (transformPointThroughPortal p A B) (transformPointThroughPortal p' A B))
  = length (sub p p').
Proof.
  intros HA HB. rewrite !transformPoint_direction.
  replace (sub (add (transformDirectionThroughPortal (sub p (position A)) A B) (position B))
               (add (transformDirectionThroughPortal (sub p' (position A)) A B) (position B)))
    with (transformDirectionThroughPortal (sub p p') A B).
  - unfold length. f_equal. apply transformDirection_lengthSq; assumption.
  - replace (sub p p') with (sub (sub p (position A)) (sub p' (position A))).
    + rewrite transformDirection_sub.
      destruct (transformDirectionThroughPortal (sub p (position A)) A B),
               (transformDirectionThroughPortal (sub p' (position A)) A B), (position B).
      three_unfold. apply vec3_eq; ring.
    + destruct p, p', (position A). three_unfold. apply vec3_eq; ring.
Qed.

Lemma transformPoint_isometry_witness :
  length (sub (transformPointThroughPortal (vec3 1 2 3) Scenario.poseA Scenario.poseB)
              (transformPointThroughPortal (vec3 0 0 1) Scenario.poseA Scenario.poseB))
  = length (sub (vec3 1 2 3) (vec3 0 0 1)).
Proof.
  apply transformPoint_isometry; unit_quat.
Defined.

(** X12. The direction transform is linear, for any quaternions, and for
    unit orientations it is undone by the transform with the two portals
    exchanged. *)
Theorem transformDirection_linear_round_trip (u v : Vector3) (s : R) (A B : Pose) :
  transformDirectionThroughPortal (add u (multiplyScalar v s)) A B
  = add (transformDirectionThroughPortal u A B)
        (multiplyScalar (transformDirectionThroughPortal v A B) s)
  /\ (unit (quaternion A) -> unit (quaternion B) ->
      transformDirectionThroughPortal (transformDirectionThroughPortal v A B) B A = v).
Proof.
  split.
  - rewrite transformDirection_add, transformDirection_scale. reflexivity.
  - intros HA HB. unfold transformDirectionThroughPortal.
    rewrite (rotate_there _ _ HB).
    set (w := applyQuaternion v (invert (quaternion A))).
    cbn [vx vy vz]. rewrite !Ropp_involutive.
    replace (vec3 (vx w) (vy w) (vz w)) with w by (destruct w; reflexivity).
    subst w. apply rotate_back, HA.
Qed.

Lemma transformDirection_linear_round_trip_witness :
  transformDirectionThroughPortal
    (transformDirectionThroughPortal (vec3 3 0 4) Scenario.poseA Scenario.poseB)
    Scenario.poseB Scenario.poseA
  = vec3 3 0 4.
Proof.
  apply (proj2 (transformDirection_linear_round_trip (vec3 0 0 0) (vec3 3 0 4) 1
                  Scenario.poseA Scenario.poseB)); unit_quat.
Defined.

(** X13. For unit orientations, the transformed orientation is a unit
    quaternion again, and rotating a vector by it is the same as rotating the
    vector by the orientation and sending the result through the portal as a
    direction. *)
Theorem transformQuaternion_direction (q : Quaternion) (v : Vector3) (A B : Pose) :
  unit (quaternion A) -> unit (quaternion B) -> unit q ->
  unit (transformQuaternionThroughPortal q A B)
  /\ applyQuaternion v (transformQuaternionThroughPortal q A B)
     = transformDirectionThroughPortal (applyQuaternion v q) A B.
Proof.
  intros HA HB Hq. unfold transformQuaternionThroughPortal. split.
  - apply multiply_unit; [apply portal_rotation_unit; assumption|exact Hq].
  - rewrite applyQuaternion_multiply; [|apply portal_rotation_unit; assumption|exact Hq].
    apply portal_rotation_direction; assumption.
Qed.

Lemma transformQuaternion_direction_witness :
  applyQuaternion (vec3 0 0 (-1))
    (transformQuaternionThroughPortal (quat 1 0 0 0) Scenario.poseA Scenario.poseB)
  = transformDirectionThroughPortal (applyQuaternion (vec3 0 0 (-1)) (quat 1 0 0 0))
      Scenario.poseA Scenario.poseB.
Proof.
  apply (transformQuaternion_direction (quat 1 0 0 0) (vec3 0 0 (-1))
           Scenario.poseA Scenario.poseB); unit_quat.
Defined.

(** X14. For unit orientations the matrix of [getPortalTeleportMatrix] maps
    a vector as [transformDirectionThroughPortal] does: it carries the
    rotation only and neither portal position. The point transform is that
    matrix applied to the point relative to the source, plus the position of
    the destination. *)
Theorem getPortalTeleportMatrix_direction (p : Vector3) (A B : Pose) :
  unit (quaternion A) -> unit (quaternion B) ->
  applyMatrix4 p (getPortalTeleportMatrix A B) = transformDirectionThroughPortal p A B
  /\ transformPointThroughPortal p A B
     = add (applyMatrix4 (sub p (position A)) (getPortalTeleportMatrix A B)) (position B).
Proof.
  intros HA HB.
  assert (H : forall v, applyMatrix4 v (getPortalTeleportMatrix A B)
                        = transformDirectionThroughPortal v A B).
  { intros v. unfold getPortalTeleportMatrix.
    rewrite applyMatrix4_compose by (apply portal_rotation_unit; assumption).
    rewrite portal_rotation_direction by assumption.
    destruct (transformDirectionThroughPortal v A B). unfold add. cbn.
    apply vec3_eq; ring. }
  split; [apply H|]. rewrite H. apply transformPoint_direction.
Qed.

Lemma getPortalTeleportMatrix_direction_witness :
  applyMatrix4 (vec3 1 2 3) (getPortalTeleportMatrix Scenario.poseA Scenario.poseB)
  = transformDirectionThroughPortal (vec3 1 2 3) Scenario.poseA Scenario.poseB.
Proof.
  apply (getPortalTeleportMatrix_direction (vec3 1 2 3) Scenario.poseA Scenario.poseB);
    unit_quat.
Defined.

End TransformAlgebra.

(** ** The screen bounds of a portal *)

Section ScreenBounds.
Import PortalUtils.

(** The loop of [getPortalScreenBounds]. When every corner is projected with
    divisors that are not zero, the loop ends with bounds: either no corner
    was in front yet and the bounds are the initial infinities, or some
    corner was and the bounds are finite with each minimum below its
    maximum. With a zero divisor the loop has no such result. *)
Lemma screenBounds_loop (camera : Camera) (W H : R) (corners : list Vector3) :
  forall (b : ScreenBounds) (allBehind : bool),
    (if allBehind then b = mkScreenBounds Infinity Infinity NegInfinity NegInfinity
     else exists x0 y0 x1 y1,
            b = mkScreenBounds (Finite x0) (Finite y0) (Finite x1) (Finite y1)
            /\ x0 <= x1 /\ y0 <= y1) ->
    let r := foldl
      (fun (acc : option (ScreenBounds * bool)) corner =>
         match acc with
         | None => None
         | Some (b, allBehind) =>
             match project corner camera with
             | None => None
             | Some tempVec =>
                 if bool_decide (vz tempVec < 1) then
                   let screenX := (vx tempVec * 0.5 + 0.5) * W in
                   let screenY := (1 - (vy tempVec * 0.5 + 0.5)) * H in
                   Some (mkScreenBounds (Num_min (minX b) (Finite screenX))
                                        (Num_min (minY b) (Finite screenY))
                                        (Num_max (maxX b) (Finite screenX))
                                        (Num_max (maxY b) (Finite screenY)),
                         false)
                 else Some (b, allBehind)
             end
         end)
      (Some (b, allBehind)) corners in
    match r with
    | None => Exists (fun c => project c camera = None) corners
    | Some (b', allBehind') =>
        Forall (fun c => project c camera <> None) corners
        /\ (if allBehind' then b' = mkScreenBounds Infinity Infinity NegInfinity NegInfinity
            else exists x0 y0 x1 y1,
                   b' = mkScreenBounds (Finite x0) (Finite y0) (Finite x1) (Finite y1)
                   /\ x0 <= x1 /\ y0 <= y1)
        /\ (allBehind' = true <->
            allBehind = true
            /\ Forall (fun c => forall v, project c camera = Some v -> ~ vz v < 1) corners)
    end.
Proof.
  induction corners as [|c corners IH]; intros b allBehind Hinv; cbn [foldl].
  - cbv zeta. split; [constructor|]. split; [exact Hinv|].
    split; [intros ->; split; [reflexivity|constructor]|tauto].
  - destruct (project c camera) as [v|] eqn:Hv.
    2:{ cbv zeta.
        assert (Hnone : forall l, foldl
                  (fun (acc : option (ScreenBounds * bool)) corner =>
                     match acc with
                     | None => None
                     | Some (b, allBehind) =>
                         match project corner camera with
                         | None => None
                         | Some tempVec =>
                             if bool_decide (vz tempVec < 1) then
                               let screenX := (vx tempVec * 0.5 + 0.5) * W in
                               let screenY := (1 - (vy tempVec * 0.5 + 0.5)) * H in
                               Some (mkScreenBounds (Num_min (minX b) (Finite screenX))
                                                    (Num_min (minY b) (Finite screenY))
                                                    (Num_max (maxX b) (Finite screenX))
                                                    (Num_max (maxY b) (Finite screenY)),
                                     false)
                             else Some (b, allBehind)
                         end
                     end) None l = None).
        { induction l; [reflexivity|assumption]. }
        rewrite Hnone. left. exact Hv. }
    case_bool_decide as Hc.
    + cbv zeta.
      match goal with |- context [foldl ?f (Some (?b', false)) corners] =>
        pose proof (IH b' false) as IH' end.
      cbv zeta in IH'.
      match type of IH' with ?A -> _ => assert (HA : A) end.
      { destruct allBehind.
        - subst b. cbn. eexists _, _, _, _. split; [reflexivity|]. lra.
        - destruct Hinv as (x0 & y0 & x1 & y1 & -> & Hx & Hy). cbn.
          eexists _, _, _, _. split; [reflexivity|].
          split; (eapply Rle_trans; [apply Rmin_l|]; eapply Rle_trans; [|apply Rmax_l];
                  assumption). }
      specialize (IH' HA).
      destruct (foldl _ _ corners) as [[b' allBehind']|].
      * destruct IH' as (Hall & Hi & Hb). split; [|split; [exact Hi|]].
        { constructor; [congruence|exact Hall]. }
        rewrite Hb. split; [intros [? _]; discriminate|].
        intros [_ Hf]. apply Forall_cons in Hf as [Hf _]. exfalso. exact (Hf v Hv Hc).
      * right. exact IH'.
    + pose proof (IH b allBehind Hinv) as IH'. cbv zeta in IH'.
      destruct (foldl _ _ corners) as [[b' allBehind']|].
      * destruct IH' as (Hall & Hi & Hb). split; [|split; [exact Hi|]].
        { constructor; [congruence|exact Hall]. }
        rewrite Hb. rewrite Forall_cons. split.
        -- intros [-> Hf]. split; [reflexivity|]. split; [|exact Hf].
           intros v' Hv'. congruence.
        -- intros [-> [_ Hf]]. auto.
      * right. exact IH'.
Qed.

Lemma front_or_behind (camera : Camera) (corners : list Vector3) :
  Exists (fun c => exists v, project c camera = Some v /\ vz v < 1) corners
  \/ Forall (fun c => forall v, project c camera = Some v -> ~ vz v < 1) corners.
Proof.
  induction corners as [|c corners [IH|IH]].
  - right. constructor.
  - left. right. exact IH.
  - destruct (project c camera) as [v|] eqn:Hv.
    + destruct (Rlt_dec (vz v) 1) as [Hlt|Hge].
      * left. left. exists v. split; [exact Hv|exact Hlt].
      * right. constructor; [|exact IH]. intros v' Hv'. congruence.
    + right. constructor; [|exact IH]. intros v' Hv'. congruence.
Qed.

(** X15. [getPortalScreenBounds] on corners that are projected without a
    divide by zero. It returns [null] exactly when no corner projects to a
    depth below 1, in particular for no corners at all. Otherwise the four
    bounds are finite, lie between 0 and the width or the height of the
    screen (0 when that is negative), and each minimum is at most its
    maximum. The result is [NonFinite] exactly when some corner is projected
    with a divide by zero, a corner at the position of the camera for one:
    nothing is said of what the code returns then. *)
Theorem getPortalScreenBounds_within (corners : list Vector3) (camera : Camera)
    (W H : R) :
  match getPortalScreenBounds corners camera W H with
  | NonFinite => Exists (fun c => project c camera = None) corners
  | Null =>
      Forall (fun c => exists v, project c camera = Some v /\ ~ vz v < 1) corners
  | Bounds b =>
      Forall (fun c => project c camera <> None) corners
      /\ Exists (fun c => exists v, project c camera = Some v /\ vz v < 1) corners
      /\ exists x0 y0 x1 y1,
           b = mkScreenBounds (Finite x0) (Finite y0) (Finite x1) (Finite y1)
           /\ 0 <= x0 <= x1 /\ x1 <= Rmax 0 W
           /\ 0 <= y0 <= y1 /\ y1 <= Rmax 0 H
  end.
Proof.
  unfold getPortalScreenBounds.
  pose proof (screenBounds_loop camera W H corners
                (mkScreenBounds Infinity Infinity NegInfinity NegInfinity) true eq_refl)
    as Hloop.
  cbv zeta in Hloop |- *.
  destruct (foldl _ _ corners) as [[b allBehind]|]; [|exact Hloop].
  destruct Hloop as (Hall & Hi & Hb).
  destruct allBehind.
  - destruct (proj1 Hb eq_refl) as [_ Hf].
    rewrite Forall_forall in Hall, Hf |- *. intros c Hc.
    destruct (project c camera) as [v|] eqn:Hv.
    + exists v. split; [reflexivity|]. apply (Hf c Hc v Hv).
    + exfalso. apply (Hall c Hc). exact Hv.
  - split; [exact Hall|]. split.
    + destruct (front_or_behind camera corners) as [He|Hf]; [exact He|].
      assert (false = true) as Hx; [|discriminate Hx].
      apply Hb. split; [reflexivity|exact Hf].
    + destruct Hi as (x0 & y0 & x1 & y1 & -> & Hx & Hy). cbn.
      eexists _, _, _, _. split; [reflexivity|].
      assert (Hclamp : forall M a b, a <= b ->
                0 <= Rmax 0 (Rmin M a) <= Rmax 0 (Rmin M b) /\ Rmax 0 (Rmin M b) <= Rmax 0 M).
      { intros M a b' Hab. unfold Rmax, Rmin.
        repeat (destruct (Rle_dec _ _)); lra. }
      destruct (Hclamp W x0 x1 Hx) as (? & ?). destruct (Hclamp H y0 y1 Hy) as (? & ?).
      repeat split; lra.
Qed.
End ScreenBounds.


(** ** More on the renderer *)

Section RenderingMore.
Import PortalRenderer Trace.



(** The calls of the mask pass: none for a portal without an owning scene,
    one draw of the owning scene otherwise. *)
Lemma renderPortalStencil_calls (portal : nat) (camera : CameraRef) (v : nat)
    (st : State) :
  let st' := _renderPortalStencil portal camera v st in
  cameras st' = cameras st /\ portalHeap st' = portalHeap st
  /\ match Portal.scene (portalHeap st portal) with
     | None => calls st' = calls st
     | Some sc => exists drawn,
         calls st' = calls st ++ [Render (MaskPass v) sc (cameras st camera) drawn]
     end.
Proof.
  cbv zeta. destruct (renderPortalStencil_frame portal camera v st) as (Hcam & Hh & _).
  split; [exact Hcam|]. split; [exact Hh|].
  unfold _renderPortalStencil. cbn [portalHeap set_materials].
  destruct (Portal.scene (portalHeap st portal)) as [sc|]; [|reflexivity].
  cbn [parent]. set (st0 := set_materials st _).
  case_bool_decide; cbn [negb].
  - eexists. reflexivity.
  - destruct (Object3D_remove_calls sc (PortalMesh portal)
                (renderer_render (MaskPass v) sc camera
                   (Object3D_add sc (PortalMesh portal) st0))) as (Hc & _).
    rewrite Hc. cbn [renderer_render calls set_calls cameras].
    unfold Object3D_add. cbn [calls cameras set_graph].
    destruct (removeFromParent_calls (PortalMesh portal) st0) as (Hc0 & Hcam0).
    rewrite Hc0, Hcam0. eexists. reflexivity.
Qed.


Lemma renderSimple_linked_calls (camera : CameraRef) (currentScene destinationScene : nat)
    (portal d : nat) (st : State) :
  Portal.linkedPortal (portalHeap st) portal = Some d ->
  exists l1 e1 e2,
    calls (renderSimple camera currentScene destinationScene portal st)
    = calls st ++ Clear true true true :: l1 ++ [e1; e2]
    /\ calls (_renderPortalStencil portal camera 1
                (renderer_clear true true true (set_autoClear st false)))
       = (calls st ++ [Clear true true true]) ++ l1
    /\ stencilTested 1 EqualStencilFunc destinationScene e1
    /\ stencilTested 1 NotEqualStencilFunc currentScene e2.
Proof.
  intros Hl. unfold renderSimple.
  set (st0 := renderer_clear true true true (set_autoClear st false)).
  change (portalHeap st0) with (portalHeap st). rewrite Hl.
  destruct (renderPortalStencil_frame portal camera 1 st0) as (_ & _ & l1 & Hc1 & _).
  set (st1 := _renderPortalStencil portal camera 1 st0) in *.
  destruct (setupPortalCamera_frame portal d camera st1) as (_ & Hc2 & _).
  set (st2 := setupPortalCamera portal d camera st1) in *.
  destruct (renderSceneWithStencilTest_call PortalCamera destinationScene 1
              EqualStencilFunc st2) as (_ & _ & drawn3 & Hc3 & Ht3).
  set (st3 := _renderSceneWithStencilTest PortalCamera destinationScene 1
                EqualStencilFunc st2) in *.
  destruct (renderSceneWithStencilTest_call camera currentScene 1
              NotEqualStencilFunc st3) as (_ & _ & drawn4 & Hc4 & Ht4).
  exists l1, (Render (StencilTestPass 1 EqualStencilFunc) destinationScene
                (cameras st2 PortalCamera) drawn3),
             (Render (StencilTestPass 1 NotEqualStencilFunc) currentScene
                (cameras st3 camera) drawn4).
  split; [|split; [exact Hc1|split; [exact Ht3|exact Ht4]]].
  cbn [calls set_autoClear]. rewrite Hc4, Hc3, Hc2, Hc1.
  change (calls st0) with (calls st ++ [Clear true true true]).
  rewrite <- !app_assoc. reflexivity.
Qed.

Lemma renderSimple_unlinked_calls (camera : CameraRef)
    (currentScene destinationScene : nat) (portal : nat) (st : State) :
  Portal.linkedPortal (portalHeap st) portal = None ->
  exists e,
    calls (renderSimple camera currentScene destinationScene portal st)
    = calls st ++ [Clear true true true; e]
    /\ stencilTested 1 NotEqualStencilFunc currentScene e.
Proof.
  intros Hl. unfold renderSimple.
  set (st0 := renderer_clear true true true (set_autoClear st false)).
  change (portalHeap st0) with (portalHeap st). rewrite Hl.
  destruct (renderSceneWithStencilTest_call camera currentScene 1
              NotEqualStencilFunc st0) as (_ & _ & drawn & Hc & Ht).
  eexists. split; [|exact Ht]. cbn [calls set_autoClear]. rewrite Hc.
  change (calls st0) with (calls st ++ [Clear true true true]).
  rewrite <- app_assoc. reflexivity.
Qed.

(** X17. [renderSimple] restores [autoClear] and makes these calls, in this
    order: the clear; for a linked portal the mask pass with the marker 1
    (when the portal has an owning scene) and the destination scene tested
    for equality with 1, whichever side of the portal the camera is on; the
    current scene tested for inequality with 1. *)
Theorem renderSimple_passes (camera : CameraRef) (currentScene destinationScene : nat)
    (portal : nat) (st : State) :
  let st' := renderSimple camera currentScene destinationScene portal st in
  autoClear st' = autoClear st
  /\ match Portal.linkedPortal (portalHeap st) portal with
     | None => exists e,
         calls st' = calls st ++ [Clear true true true; e]
         /\ stencilTested 1 NotEqualStencilFunc currentScene e
     | Some _ => exists masks e1 e2,
         calls st' = calls st ++ Clear true true true :: masks ++ [e1; e2]
         /\ match Portal.scene (portalHeap st portal) with
            | None => masks = []
            | Some sc => exists drawn,
                masks = [Render (MaskPass 1) sc (cameras st camera) drawn]
            end
         /\ stencilTested 1 EqualStencilFunc destinationScene e1
         /\ stencilTested 1 NotEqualStencilFunc currentScene e2
     end.
Proof.
  cbv zeta. split; [reflexivity|].
  destruct (Portal.linkedPortal (portalHeap st) portal) as [d|] eqn:Hl.
  - destruct (renderSimple_linked_calls camera currentScene destinationScene portal d st Hl)
      as (l1 & e1 & e2 & Hc & Hm & Ht1 & Ht2).
    exists l1, e1, e2. split; [exact Hc|]. split; [|split; assumption].
    destruct (renderPortalStencil_calls portal camera 1
                (renderer_clear true true true (set_autoClear st false)))
      as (_ & _ & Hc1).
    change (portalHeap (renderer_clear true true true (set_autoClear st false)))
      with (portalHeap st) in Hc1.
    destruct (Portal.scene (portalHeap st portal)) as [sc|].
    + destruct Hc1 as (drawn & Hc1). exists drawn.
      rewrite Hm in Hc1. apply app_inv_head in Hc1. exact Hc1.
    + rewrite Hm in Hc1.
      change (calls (renderer_clear true true true (set_autoClear st false)))
        with (calls st ++ [Clear true true true]) in Hc1.
      rewrite <- (app_nil_r (calls st ++ [Clear true true true])) in Hc1 at 2.
      apply app_inv_head in Hc1. exact Hc1.
  - apply renderSimple_unlinked_calls, Hl.
Qed.

Lemma loop_cameras (this : PortalRenderer.t) (reg : list (string * PortalWorld))
    (h : nat -> Portal.t) (n : nat) :
  forall (X Y sX sY fuel depth : nat) (camera : CameraRef) (st : State),
    findWorld reg X = Some (worldOf sX X) ->
    findWorld reg Y = Some (worldOf sY Y) ->
    Portal.linkedPortal h X = Some Y ->
    Portal.linkedPortal h Y = Some X ->
    portalHeap st = h ->
    (depth + n = maxRecursion this)%nat ->
    (n < fuel)%nat ->
    alwaysInFront h n X (cam_position (cameras st camera))
                        (cam_quaternion (cameras st camera)) ->
    exists st' l,
      _renderPortals this fuel camera (worldOf sX X) reg depth st = Some st'
      /\ calls st' = calls st ++ l
      /\ (n = 0%nat -> st' = st)
      /\ ((0 < n)%nat ->
          (cam_position (cameras st' PortalCamera), cam_quaternion (cameras st' PortalCamera))
          = through h n X (cam_position (cameras st camera),
                           cam_quaternion (cameras st camera)))
      /\ Forall (fun e => isDestinationPass e = true ->
                          cameraOf e = Some (cameras st' PortalCamera)) l.
Proof.
  induction n as [|n IH];
    intros X Y sX sY fuel depth camera st HwX HwY HlX HlY Hh Hd Hf Hfront;
    (destruct fuel as [|fuel]; [lia|]); cbn [_renderPortals].
  - rewrite bool_decide_eq_true_2 by lia.
    exists st, []. rewrite app_nil_r. repeat split; try reflexivity; [lia|constructor].
  - rewrite bool_decide_eq_false_2 by lia.
    cbn [portals worldOf for_of]. rewrite Hh, HlX.
    cbn [alwaysInFront] in Hfront. destruct Hfront as (Hin & Hrest).
    rewrite HlX in Hrest. cbv zeta in Hrest.
    rewrite Hin. cbn [negb]. rewrite HwY.
    destruct (renderPortalStencil_frame X camera (depth + 1) st)
      as (Hcam1 & Hh1 & l1 & Hc1 & Hl1).
    destruct (setupPortalCamera_frame X Y camera
                (_renderPortalStencil X camera (depth + 1) st))
      as (Hh2 & Hc2 & Hpos & Hq).
    rewrite Hh1, Hcam1, Hh in Hpos, Hq.
    set (st2 := setupPortalCamera X Y camera
                  (_renderPortalStencil X camera (depth + 1) st)) in *.
    edestruct (IH Y X sY sX fuel (depth + 1)%nat PortalCamera st2)
      as (st4 & l4 & -> & Hc4 & H0 & Hpose & Hl4);
      [exact HwY | exact HwX | exact HlY | exact HlX | congruence | lia | lia
       | rewrite Hpos, Hq; exact Hrest |].
    destruct (renderSceneWithStencilTest_call PortalCamera (scene (worldOf sY Y))
                (depth + 1) EqualStencilFunc st4) as (_ & Hcam5 & drawn & Hc5 & _).
    eexists _, (l1 ++ l4 ++ [_]). split; [reflexivity|]. split.
    { rewrite Hc5, Hc4, Hc2, Hc1, <- !app_assoc. reflexivity. }
    split; [intros Hn; discriminate Hn|]. split.
    + intros _. rewrite Hcam5. cbn [through]. rewrite HlX.
      destruct n as [|n].
      * rewrite (H0 eq_refl). cbn [through]. rewrite Hpos, Hq.
        destruct (Portal.getDestinationCameraTransform h X _ _). reflexivity.
      * rewrite Hpose by lia. rewrite Hpos, Hq.
        destruct (Portal.getDestinationCameraTransform h X _ _). reflexivity.
    + rewrite Hcam5. apply Forall_app. split.
      * eapply Forall_impl; [exact Hl1|]. intros e (sc & c & d & ->) Hx. discriminate Hx.
      * apply Forall_app. split; [exact Hl4|]. repeat constructor.
Qed.

(** X18. In the mutual loop with [maxRecursion] = N at least 1, every
    destination pass of a frame is drawn with the same camera value, the one
    the renderer's only portal camera has at the end: the pose of the camera
    moved through the portals N times, whatever the depth of the pass. *)
Theorem render_loop_shared_camera (this : PortalRenderer.t) (fuel : nat)
    (camera : CameraRef) (sA sB A B : nat) (st : State) :
  (maxRecursion this < fuel)%nat ->
  (0 < maxRecursion this)%nat ->
  A <> B ->
  Portal.linkedPortal (portalHeap st) A = Some B ->
  Portal.linkedPortal (portalHeap st) B = Some A ->
  alwaysInFront (portalHeap st) (maxRecursion this) A
    (cam_position (cameras st camera)) (cam_quaternion (cameras st camera)) ->
  exists st' l e,
    render this fuel camera (worldOf sA A) (loopRegistry sA sB A B) st = Some st'
    /\ calls st' = calls st ++ Clear true true true :: l ++ [e]
    /\ (cam_position (cameras st' PortalCamera), cam_quaternion (cameras st' PortalCamera))
       = through (portalHeap st) (maxRecursion this) A
           (cam_position (cameras st camera), cam_quaternion (cameras st camera))
    /\ Forall (fun e => isDestinationPass e = true ->
                        cameraOf e = Some (cameras st' PortalCamera)) l.
Proof.
  intros Hf HN Hne HlA HlB Hfront.
  destruct (findWorld_loop sA sB A B Hne) as (HwA & HwB).
  set (st0 := renderer_clear true true true (set_autoClear st false)).
  destruct (loop_cameras this (loopRegistry sA sB A B) (portalHeap st)
              (maxRecursion this) A B sA sB fuel 0 camera st0
              HwA HwB HlA HlB eq_refl eq_refl Hf Hfront)
    as (st1 & l & Hrp & Hc & _ & Hpose & Hl).
  unfold render. fold st0. rewrite Hrp.
  destruct (renderSceneWithStencilTest_call camera (scene (worldOf sA A)) 0
              NotEqualStencilFunc st1) as (_ & Hcam & drawn & Hc' & _).
  set (st2 := _renderWorldWithStencil camera (scene (worldOf sA A)) 0
                NotEqualStencilFunc st1) in *.
  exists (set_autoClear st2 (autoClear st)), l,
    (Render (StencilTestPass 0 NotEqualStencilFunc) (scene (worldOf sA A))
       (cameras st1 camera) drawn).
  split; [reflexivity|]. cbn [calls cameras set_autoClear].
  change (cameras st2) with
    (cameras (_renderSceneWithStencilTest camera (scene (worldOf sA A)) 0
                NotEqualStencilFunc st1)).
  rewrite Hcam. split; [|split; [exact (Hpose HN)|exact Hl]].
  change (calls st2) with
    (calls (_renderSceneWithStencilTest camera (scene (worldOf sA A)) 0
              NotEqualStencilFunc st1)).
  rewrite Hc', Hc. change (calls st0) with (calls st ++ [Clear true true true]).
  rewrite <- !app_assoc. reflexivity.
Qed.

Section Idempotent.
Variable f : Material -> Material.
Hypothesis f_idem : forall m, f (f m) = f m.

Lemma update_result (ids : list MaterialId) (ms : MaterialId -> Material)
    (i : MaterialId) :
  foldl (fun ms i => <[i := f (ms i)]> ms) ms ids i
  = if decide (i ∈ ids) then f (ms i) else ms i.
Proof.
  revert ms. induction ids as [|a ids IH]; intros ms; cbn [foldl].
  - rewrite decide_False; [reflexivity|apply not_elem_of_nil].
  - rewrite IH. destruct (decide (a = i)) as [->|Hne].
    + rewrite fn_lookup_insert, f_idem. rewrite (decide_True (P := i ∈ i :: ids)) by left.
      destruct (decide (i ∈ ids)); reflexivity.
    + rewrite fn_lookup_insert_ne by exact Hne.
      destruct (decide (i ∈ ids)) as [Hi|Hi].
      * rewrite decide_True; [reflexivity|right; exact Hi].
      * rewrite decide_False; [reflexivity|].
        intros Hx. apply elem_of_cons in Hx as [->|Hx]; [apply Hne; reflexivity|apply Hi, Hx].
Qed.

Lemma traverse_result (g : Object3D -> list MaterialId) (os : list Object3D)
    (ms : MaterialId -> Material) (i : MaterialId) :
  foldl (fun ms o => foldl (fun ms i => <[i := f (ms i)]> ms) ms (g o)) ms os i
  = if decide (Exists (fun o => i ∈ g o) os) then f (ms i) else ms i.
Proof.
  revert ms. induction os as [|o os IH]; intros ms; cbn [foldl].
  - rewrite decide_False; [reflexivity|]. intros Hx. inversion Hx.
  - rewrite IH, update_result.
    destruct (decide (i ∈ g o)) as [Ho|Ho].
    + rewrite f_idem. rewrite (decide_True (P := Exists _ (o :: os))) by (left; exact Ho).
      destruct (decide (Exists _ os)); reflexivity.
    + destruct (decide (Exists (fun o => i ∈ g o) os)) as [He|He].
      * rewrite decide_True; [reflexivity|right; exact He].
      * rewrite decide_False; [reflexivity|].
        intros Hx. apply Exists_cons in Hx as [Hx|Hx]; contradiction.
Qed.
End Idempotent.

Lemma traverse_materials_result (f : Material -> Material) (sc : nat) (st : State)
    (i : MaterialId) :
  (forall m, f (f m) = f m) ->
  materials (traverse_materials sc f st) i
  = if decide (Exists (fun o => i ∈ materialsOf st o) (children st sc))
    then f (materials st i) else materials st i.
Proof.
  intros Hf. unfold traverse_materials. cbn [materials set_materials].
  apply traverse_result, Hf.
Qed.

(** In this scene graph of direct children, what a stencil-tested pass
    leaves of a material. *)
Lemma renderSceneWithStencilTest_material_at (camera : CameraRef) (sc ref : nat)
    (func : StencilFunc) (st : State) (i : MaterialId) :
  let st' := _renderSceneWithStencilTest camera sc ref func st in
  let m := materials st i in
  materials st' i
  = (if decide (Exists (fun o => i ∈ materialsOf st o) (children st sc))
     then mkMaterial (colorWrite m) (depthWrite m) false ref AlwaysStencilFunc
     else m)
  /\ children st' = children st /\ parent st' = parent st /\ cameras st' = cameras st.
Proof.
  cbv zeta. split; [|repeat split; reflexivity].
  unfold _renderSceneWithStencilTest.
  rewrite traverse_materials_result by reflexivity.
  change (materials (renderer_render ?p ?s ?c ?x)) with (materials x).
  rewrite traverse_materials_result by reflexivity.
  destruct (decide (Exists _ _)); reflexivity.
Qed.


(** X20. When the mask mesh of a portal is a child of its owning scene, a
    stencil-tested pass of that scene turns [stencilWrite] of the mask
    material off, and the next mask pass of the portal draws the mesh with
    [stencilWrite] false and the reference value of that pass. *)
Theorem mask_material_after_stencil_test (portal : nat) (camera camera' : CameraRef)
    (sc ref v : nat) (func : StencilFunc) (st : State) :
  Portal.scene (portalHeap st portal) = Some sc ->
  PortalMesh portal ∈ children st sc ->
  parent st (PortalMesh portal) = Some sc ->
  let st1 := _renderSceneWithStencilTest camera sc ref func st in
  let st2 := _renderPortalStencil portal camera' v st1 in
  let m := materials st (PortalStencilMaterial portal) in
  stencilWrite (materials st1 (PortalStencilMaterial portal)) = false
  /\ exists drawn,
       last (calls st2) = Some (Render (MaskPass v) sc (cameras st camera') drawn)
       /\ (PortalMesh portal,
           [mkMaterial (colorWrite m) (depthWrite m) false v AlwaysStencilFunc]) ∈ drawn.
Proof.
  intros Hs Hin Hp. cbv zeta.
  destruct (renderSceneWithStencilTest_material_at camera sc ref func st
              (PortalStencilMaterial portal)) as (Hm & Hch & Hpa & Hcam).
  cbv zeta in Hm. rewrite decide_True in Hm.
  2:{ apply Exists_exists. exists (PortalMesh portal). split; [exact Hin|]. cbn. left. }
  set (st1 := _renderSceneWithStencilTest camera sc ref func st) in *.
  split; [rewrite Hm; reflexivity|].
  unfold _renderPortalStencil. cbn [portalHeap set_materials parent].
  change (portalHeap st1) with (portalHeap st). rewrite Hs, Hpa, Hp.
  rewrite bool_decide_eq_true_2 by reflexivity. cbn [negb].
  unfold renderer_render. cbn [calls set_calls cameras set_materials children materials].
  rewrite last_snoc, Hcam, Hch. eexists. split; [reflexivity|].
  apply list_elem_of_fmap. exists (PortalMesh portal). split; [|exact Hin].
  cbn [materialsOf map]. rewrite fn_lookup_insert, Hm. reflexivity.
Qed.

(** X21. When the mask mesh of a portal is a child of a scene other than
    the owning scene, the mask pass takes it out of that scene and leaves it
    without a parent: [scene.add] moves the mesh and [scene.remove] does not
    move it back. *)
Theorem renderPortalStencil_detaches (portal : nat) (camera : CameraRef) (v : nat)
    (st : State) (sc p : nat) :
  Portal.scene (portalHeap st portal) = Some sc ->
  parent st (PortalMesh portal) = Some p ->
  p <> sc ->
  PortalMesh portal ∈ children st p ->
  let st' := _renderPortalStencil portal camera v st in
  parent st' (PortalMesh portal) = None
  /\ exists i, children st p !! i = Some (PortalMesh portal)
              /\ children st' p = delete i (children st p).
Proof.
  intros Hs Hp Hne Hin. cbv zeta.
  unfold _renderPortalStencil. cbn [portalHeap set_materials parent]. rewrite Hs.
  set (st0 := set_materials st _).
  rewrite bool_decide_eq_false_2 by congruence. cbn [negb].
  destruct (list_find_elem_of (fun x => x = PortalMesh portal) (children st p)
              (PortalMesh portal) Hin eq_refl) as ((i & x) & Hfind).
  pose proof Hfind as Hfind'. apply list_find_Some in Hfind' as (Hi & -> & _).
  assert (Hrm : removeFromParent (PortalMesh portal) st0
                = set_graph st0 (<[p := delete i (children st p)]> (children st))
                    (<[PortalMesh portal := None]> (parent st))).
  { unfold removeFromParent. change (parent st0) with (parent st). rewrite Hp.
    unfold Object3D_remove. change (children st0 p) with (children st p).
    rewrite Hfind. reflexivity. }
  unfold Object3D_add. rewrite Hrm.
  set (st1 := set_graph (set_graph st0 _ _) _ _).
  set (st2 := renderer_render (MaskPass v) sc camera st1).
  assert (Hch2 : children st2 p = delete i (children st p)).
  { subst st2 st1. cbn [children renderer_render set_calls set_graph].
    rewrite fn_lookup_insert_ne by congruence. apply fn_lookup_insert. }
  split.
  - assert (Hc2 : exists l, children st2 sc = l ++ [PortalMesh portal]).
    { subst st2 st1. cbn [children renderer_render set_calls set_graph].
      rewrite fn_lookup_insert. eexists. reflexivity. }
    destruct Hc2 as (l & Hc2).
    destruct (find_after_push l (PortalMesh portal)) as (j & Hj & _).
    unfold Object3D_remove. rewrite Hc2, Hj. cbn [parent set_graph].
    apply fn_lookup_insert.
  - exists i. split; [exact Hi|].
    rewrite Object3D_remove_other by congruence. exact Hch2.
Qed.

Lemma render_loop_shared_camera_witness :
  exists st' l e,
    render (PortalRenderer.new (Some 2%nat) None) 3 (UserCamera 0)
      (worldOf 0 0) (loopRegistry 0 1 0 1)
      (Scenario.state0 Scenario.turned (vec3 0 1 0.5)) = Some st'
    /\ calls st' = Clear true true true :: l ++ [e]
    /\ Forall (fun e => isDestinationPass e = true ->
                        cameraOf e = Some (cameras st' PortalCamera)) l.
Proof.
  destruct (render_loop_shared_camera (PortalRenderer.new (Some 2%nat) None) 3
              (UserCamera 0) 0 1 0 1
              (Scenario.state0 Scenario.turned (vec3 0 1 0.5)))
    as (st' & l & e & Hr & Hc & _ & Hl).
  - cbn. lia.
  - cbn. lia.
  - discriminate.
  - reflexivity.
  - reflexivity.
  - exact alwaysInFront_turned.
  - exists st', l, e. repeat split; assumption.
Defined.

Lemma mask_material_after_stencil_test_witness :
  let st := Scenario.meshIn 0 Scenario.linked (vec3 0 1 0.5) in
  stencilWrite
    (materials (_renderSceneWithStencilTest (UserCamera 0) 0 1 NotEqualStencilFunc st)
       (PortalStencilMaterial 0)) = false.
Proof.
  intros st.
  apply (mask_material_after_stencil_test 0 (UserCamera 0) (UserCamera 0) 0 1 1
           NotEqualStencilFunc st).
  - reflexivity.
  - unfold st, Scenario.meshIn, Object3D_add. cbn [children set_graph].
    rewrite fn_lookup_insert. apply elem_of_app. right. left.
  - unfold st, Scenario.meshIn, Object3D_add. cbn [parent set_graph].
    apply fn_lookup_insert.
Defined.

Lemma renderPortalStencil_detaches_witness :
  let st := Scenario.meshIn 1 Scenario.linked (vec3 0 1 0.5) in
  parent (_renderPortalStencil 0 (UserCamera 0) 1 st) (PortalMesh 0) = None.
Proof.
  intros st.
  apply (renderPortalStencil_detaches 0 (UserCamera 0) 1 st 0 1).
  - reflexivity.
  - unfold st, Scenario.meshIn, Object3D_add. cbn [parent set_graph].
    apply fn_lookup_insert.
  - discriminate.
  - unfold st, Scenario.meshIn, Object3D_add. cbn [children set_graph].
    rewrite fn_lookup_insert. apply elem_of_app. right. left.
Defined.

End RenderingMore.

(** * The crossing object, the controller and the application *)

(** ** Clip materials of an object crossing a portal *)

Section Clipping.

Import ClippedMaterial.

Lemma Vector3_equals_eq (a b : Vector3) : Vector3_equals a b = true -> a = b.
Proof.
  unfold Vector3_equals. rewrite !andb_true_iff, !bool_decide_eq_true.
  destruct a, b. cbn. intros [[-> ->] ->]. reflexivity.
Qed.

Lemma Vector3_equals_refl (a : Vector3) : Vector3_equals a a = true.
Proof.
  unfold Vector3_equals. rewrite !andb_true_iff, !bool_decide_eq_true. auto.
Qed.

Lemma updateCrossing_fst (n p : Vector3) (r : R) (o : t) (hp : Heap) :
  fst (updateCrossing n p r (o, hp))
  = bool_decide (Rabs (dot (sub (position (mesh o)) p) n) < r).
Proof.
  unfold updateCrossing. case_bool_decide; [|reflexivity].
  destruct (match _crossingPortal o with None => true | Some _ => _ end);
    [destruct (_updateClipMaterials _ _)|]; reflexivity.
Qed.

Lemma updateCrossing_visible (n p : Vector3) (r : R) (o : t) (hp : Heap) :
  visible (clone (fst (snd (updateCrossing n p r (o, hp)))))
  = bool_decide (Rabs (dot (sub (position (mesh o)) p) n) < r).
Proof.
  unfold updateCrossing. case_bool_decide; [|reflexivity].
  destruct (match _crossingPortal o with None => true | Some _ => _ end);
    [destruct (_updateClipMaterials _ _)|]; reflexivity.
Qed.

(** [updateCrossing] returns what [getPortalCrossingState] calls a crossing
    for the plane through the point, and shows the clone exactly then. *)
Lemma updateCrossing_crossing_state (n p : Vector3) (r : R) (st : t * Heap) :
  fst (updateCrossing n p r st)
  = PortalUtils.crossing
      (PortalUtils.getPortalCrossingState (position (mesh (fst st))) r
         (setFromNormalAndCoplanarPoint n p))
  /\ visible (clone (fst (snd (updateCrossing n p r st))))
     = fst (updateCrossing n p r st).
Proof.
  destruct st as [o hp]. cbn [fst].
  rewrite updateCrossing_visible, updateCrossing_fst. split; [|reflexivity].
  assert (Hd : dot (sub (position (mesh o)) p) n
               = distanceToPoint (setFromNormalAndCoplanarPoint n p) (position (mesh o))).
  { destruct (position (mesh o)), p, n. three_unfold.
    unfold distanceToPoint, setFromNormalAndCoplanarPoint. cbn. unfold dot. cbn. ring. }
  rewrite Hd. set (d := distanceToPoint _ _).
  unfold PortalUtils.getPortalCrossingState. cbn [PortalUtils.crossing]. fold d.
  case_bool_decide as Hc.
  - symmetry. apply andb_true_iff. rewrite !bool_decide_eq_true.
    apply Rabs_def2 in Hc. lra.
  - symmetry. apply andb_false_iff. rewrite !bool_decide_eq_false.
    destruct (Rlt_dec d r) as [H1|H1]; [|right; lra].
    left. intros H2. apply Hc. apply Rabs_def1; lra.
Qed.


Lemma vec3_eta (v : Vector3) : vec3 (vx v) (vy v) (vz v) = v.
Proof. destruct v. reflexivity. Qed.

Ltac heap_lookup :=
  repeat match goal with
  | |- context [ (<[?i := _]> _) ?j ] =>
      first [ rewrite (fn_lookup_insert_ne _ i j) by lia
            | rewrite (fn_lookup_insert _ i) ]
  | H : context [ (<[?i := _]> _) ?j ] |- _ =>
      first [ rewrite (fn_lookup_insert_ne _ i j) in H by lia
            | rewrite (fn_lookup_insert _ i) in H ]
  end.

(** What [_updateClipMaterials] does to a state in which the variants, if
    any, were made after the object. *)
Lemma updateClipMaterials_invariant (next0 : nat) (orig : NodeMaterial)
    (m c : Mesh) (oid : nat) (src dst : option nat) (cp0 : option ClipPlaneParams)
    (cp : ClipPlaneParams) (hp : Heap) :
  invariant next0 orig (mk m c oid src dst cp0, hp) ->
  invariant next0 orig
    (let '(o, hp) := _updateClipMaterials (mk m c oid src dst (Some cp)) hp in
     (mk (mkMesh (position (mesh o)) (quaternion (mesh o)) (_sourceClipMaterial o)
                 (visible (mesh o)))
         (mkMesh (position (clone o)) (quaternion (clone o)) (_destClipMaterial o) true)
         (_originalMaterial o) (_sourceClipMaterial o) (_destClipMaterial o)
         (_crossingPortal o), hp)).
Proof.
  unfold invariant. cbn [_originalMaterial _sourceClipMaterial _destClipMaterial
    _crossingPortal mesh material].
  intros (H1 & H2 & H3 & H4 & _ & _).
  unfold _updateClipMaterials.
  cbn [_originalMaterial _sourceClipMaterial _destClipMaterial _crossingPortal mesh
       clone].
  set (hp1 := match src with Some i => dispose i hp | None => hp end).
  set (hp2 := match dst with Some i => dispose i hp1 | None => hp1 end).
  assert (Hn : next hp2 = next hp).
  { unfold hp2, hp1. destruct src, dst; reflexivity. }
  assert (Ho : mats hp2 oid = orig).
  { unfold hp2, hp1. destruct src as [s|], dst as [d|]; cbn [dispose mats];
      try (assert (next0 <= s < next hp)%nat by (apply H4; auto));
      try (assert (next0 <= d < next hp)%nat by (apply H4; auto));
      heap_lookup; exact H2. }
  assert (Hd : forall i, (next0 <= i < next hp)%nat ->
                 disposed (mats hp2 i) = false -> False).
  { intros i Hi. unfold hp2, hp1.
    destruct src as [s|], dst as [d|]; cbn [dispose mats]; intros Hdis.
    - destruct (decide (d = i)) as [->|]; heap_lookup; [discriminate|].
      destruct (decide (s = i)) as [->|]; heap_lookup; [discriminate|].
      destruct (H3 i Hi Hdis); congruence.
    - destruct (decide (s = i)) as [->|]; heap_lookup; [discriminate|].
      destruct (H3 i Hi Hdis); congruence.
    - destruct (decide (d = i)) as [->|]; heap_lookup; [discriminate|].
      destruct (H3 i Hi Hdis); congruence.
    - destruct (H3 i Hi Hdis); congruence. }
  clearbody hp2. clear hp1.
  rewrite Ho.
  destruct (class orig) eqn:Hc;
    unfold createClippedStandardMaterial, Material_clone, alloc;
    cbn [mats next normal point fst snd _originalMaterial _sourceClipMaterial
         _destClipMaterial _crossingPortal mesh clone material position quaternion
         visible];
    rewrite Hn; heap_lookup; rewrite ?Ho, ?vec3_eta;
    (split; [lia|]); (split; [reflexivity|]);
    (split; [intros i Hi Hdis;
             destruct (decide (i = S (next hp))) as [->|]; [right; reflexivity|];
             destruct (decide (i = next hp)) as [->|]; [left; reflexivity|];
             exfalso; apply (Hd i); [lia|]; heap_lookup; exact Hdis|]);
    (split; [intros i [Hi|Hi]; injection Hi as <-; lia|]);
    (split; [eexists; reflexivity|]);
    exists (next hp), (S (next hp)); heap_lookup; cbn [disposed colorNode];
    (split; [reflexivity|]); (split; [reflexivity|]); (split; [lia|]);
    (split; [reflexivity|]); (split; [reflexivity|]);
    intros Hs; try discriminate; split; reflexivity.
Qed.

Lemma updateCrossing_invariant (next0 : nat) (orig : NodeMaterial)
    (n p : Vector3) (r : R) (st : t * Heap) :
  invariant next0 orig st ->
  invariant next0 orig (snd (updateCrossing n p r st)).
Proof.
  destruct st as [[m c oid src dst cp0] hp]. intros Hinv.
  unfold updateCrossing.
  cbn [_originalMaterial _sourceClipMaterial _destClipMaterial _crossingPortal mesh
       clone].
  case_bool_decide as Hc.
  - destruct (match cp0 with None => true | Some _ => _ end) eqn:E.
    + pose proof (updateClipMaterials_invariant next0 orig m c oid src dst cp0
                    (mkClipPlane n p) hp Hinv) as H.
      destruct (_updateClipMaterials _ _) as [o' hp']. exact H.
    + destruct cp0 as [cp|]; [|discriminate]. cbn [snd].
      unfold invariant in *.
      cbn [_originalMaterial _sourceClipMaterial _destClipMaterial _crossingPortal mesh
           clone material] in *.
      destruct Hinv as (H1 & H2 & H3 & H4 & H5 & H6).
      repeat (split; [assumption|]).
      split; [|assumption].
      destruct H6 as (s & d & -> & _). eexists; reflexivity.
  - cbn [snd]. unfold invariant in *.
    cbn [_originalMaterial _sourceClipMaterial _destClipMaterial _crossingPortal mesh
         clone material] in *.
    destruct Hinv as (H1 & H2 & H3 & H4 & H5 & H6).
    repeat (split; [assumption|]). split; [eexists; reflexivity|exact I].
Qed.


Lemma updateCrossing_shape (n p : Vector3) (r : R) (o : t) (hp : Heap) :
  Rabs (dot (sub (position (mesh o)) p) n) < r ->
  exists src dst cp hp',
    normal cp = n /\ point cp = p
    /\ updateCrossing n p r (o, hp)
       = (true,
          (mk (mkMesh (position (mesh o)) (quaternion (mesh o)) src (visible (mesh o)))
              (mkMesh (position (clone o)) (quaternion (clone o)) dst true)
              (_originalMaterial o) src dst (Some cp), hp')).
Proof.
  intros Hc. unfold updateCrossing. rewrite bool_decide_eq_true_2 by exact Hc.
  destruct (match _crossingPortal o with None => true | Some _ => _ end) eqn:E.
  - unfold _updateClipMaterials. cbn [_crossingPortal].
    set (hp2 := match _destClipMaterial _ with Some i => dispose i _ | None => _ end).
    cbn [_originalMaterial mesh clone].
    destruct (match class (mats hp2 (_originalMaterial o)) with
              | MeshStandardNodeMaterial => _ | OtherMaterial => _ end)
      as [[src dst] hp'].
    exists (Some src), (Some dst), (mkClipPlane n p), hp'. auto.
  - destruct (_crossingPortal o) as [cp|] eqn:Hcp; [|discriminate].
    apply orb_false_iff in E as [E1 E2].
    apply negb_false_iff, Vector3_equals_eq in E1, E2.
    exists (_sourceClipMaterial o), (_destClipMaterial o), cp, hp.
    auto.
Qed.

(** X22. Lifecycle of the clip materials of a [PortalCrossingObject]. After
    any sequence of [updateCrossing] calls on a new object, with the mesh
    moved at will between them, the invariant holds: the original material
    is untouched, the mesh has a material, every material made by the
    object that is not disposed is its current source or destination
    variant, and while a portal is crossed both variants exist, are distinct
    and are not disposed. Hence at most two of the materials made by the
    object are not disposed at any time. *)
Theorem frames_invariant (calls : list (Vector3 * (Vector3 * Vector3 * R)))
    (pos : Vector3) (q : Quaternion) (vis : bool) (oid : nat) (hp0 : Heap) :
  (oid < next hp0)%nat ->
  let st := frames calls (new pos q oid vis, hp0) in
  invariant (next hp0) (mats hp0 oid) st
  /\ forall i j k,
       (next hp0 <= i)%nat -> (next hp0 <= j)%nat -> (next hp0 <= k)%nat ->
       (i < next (snd st))%nat -> (j < next (snd st))%nat -> (k < next (snd st))%nat ->
       disposed (mats (snd st) i) = false ->
       disposed (mats (snd st) j) = false ->
       disposed (mats (snd st) k) = false ->
       i = j \/ i = k \/ j = k.
Proof.
  intros Hoid. cbv zeta.
  assert (Hinv : invariant (next hp0) (mats hp0 oid)
                   (frames calls (new pos q oid vis, hp0))).
  { assert (H0 : invariant (next hp0) (mats hp0 oid) (new pos q oid vis, hp0)).
    { unfold invariant, new. cbn. split; [lia|]. split; [reflexivity|].
      split; [intros i Hi; lia|].
      split; [intros i [H|H]; discriminate|].
      split; [eexists; reflexivity|exact I]. }
    generalize dependent (new pos q oid vis, hp0). clear Hoid.
    induction calls as [|[pos' [[n p] r]] rest IH]; intros st H0; [exact H0|].
    destruct st as [o hp]. cbn [frames]. apply IH.
    apply updateCrossing_invariant.
    destruct o as [m c o' src dst cp]. unfold invariant in *.
    cbn [_originalMaterial _sourceClipMaterial _destClipMaterial _crossingPortal mesh
         clone material] in *. exact H0. }
  split; [exact Hinv|].
  destruct (frames calls (new pos q oid vis, hp0)) as [o hp]. cbn [snd].
  destruct Hinv as (_ & _ & H3 & _).
  intros i j k Hi Hj Hk Hi' Hj' Hk' Di Dj Dk.
  destruct (H3 i (conj Hi Hi') Di) as [Ei|Ei], (H3 j (conj Hj Hj') Dj) as [Ej|Ej],
    (H3 k (conj Hk Hk') Dk) as [Ek|Ek]; rewrite Ei in *;
    try (injection Ej as ->); try (injection Ek as ->); auto;
    rewrite Ej in Ek; injection Ek as ->; auto.
Qed.

Lemma frames_invariant_witness :
  let hp0 := mkHeap (fun _ => mkNodeMaterial MeshStandardNodeMaterial [] false) 1 in
  let st := frames [(vec3 0 0 0, (vec3 0 0 1, vec3 0 0 0, 1));
                    (vec3 0 0 5, (vec3 0 0 1, vec3 0 0 0, 1));
                    (vec3 0 0 0, (vec3 0 0 1, vec3 0 0 0, 1))]
              (new (vec3 0 0 0) Quaternion_new 0 true, hp0) in
  invariant (next hp0) (mats hp0 0%nat) st
  /\ forall i j k,
       (next hp0 <= i)%nat -> (next hp0 <= j)%nat -> (next hp0 <= k)%nat ->
       (i < next (snd st))%nat -> (j < next (snd st))%nat -> (k < next (snd st))%nat ->
       disposed (mats (snd st) i) = false ->
       disposed (mats (snd st) j) = false ->
       disposed (mats (snd st) k) = false ->
       i = j \/ i = k \/ j = k.
Proof.
  apply (frames_invariant _ (vec3 0 0 0) Quaternion_new true 0
           (mkHeap (fun _ => mkNodeMaterial MeshStandardNodeMaterial [] false) 1)).
  cbn. lia.
Defined.

Lemma updateCrossing_variants (next0 : nat) (orig : NodeMaterial)
    (n p : Vector3) (r : R) (o : t) (hp : Heap) :
  invariant next0 orig (o, hp) ->
  class orig = MeshStandardNodeMaterial ->
  colorNode orig = [] ->
  Rabs (dot (sub (position (mesh o)) p) n) < r ->
  exists s d o' hp',
    updateCrossing n p r (o, hp) = (true, (o', hp'))
    /\ mesh o' = mkMesh (position (mesh o)) (quaternion (mesh o)) (Some s)
                  (visible (mesh o))
    /\ clone o' = mkMesh (position (clone o)) (quaternion (clone o)) (Some d) true
    /\ s <> d
    /\ colorNode (mats hp' s) = [(n, - dot n p)]
    /\ colorNode (mats hp' d) = [(negate n, - dot (negate n) p)].
Proof.
  intros Hinv Hclass Hcol Hc.
  pose proof (updateCrossing_invariant next0 orig n p r (o, hp) Hinv) as Hinv'.
  destruct (updateCrossing_shape n p r o hp Hc)
    as (src & dst & cp & hp' & Hn & Hp & Heq).
  rewrite Heq in *. cbn [fst snd mesh clone material] in *.
  unfold invariant in Hinv'.
  cbn [_originalMaterial _sourceClipMaterial _destClipMaterial _crossingPortal mesh
       clone material] in Hinv'.
  destruct Hinv' as (_ & _ & _ & _ & _ & s & d & -> & -> & Hsd & _ & _ & Hcn).
  destruct (Hcn Hclass) as [Hs Hd]. rewrite Hcol, Hn, Hp in Hs, Hd.
  eexists s, d, _, hp'. split; [reflexivity|]. cbn [mesh clone]. auto.
Qed.

Lemma discards_source (m : NodeMaterial) (n p x : Vector3) :
  colorNode m = [(n, - dot n p)] ->
  discards m x = true <-> dot (sub x p) n < 0.
Proof.
  intros H. unfold discards. rewrite H. cbn [existsb fst snd].
  rewrite orb_false_r, bool_decide_eq_true.
  destruct x, n, p. three_unfold. lra.
Qed.

Lemma discards_dest (m : NodeMaterial) (n p x : Vector3) :
  colorNode m = [(negate n, - dot (negate n) p)] ->
  discards m x = true <-> dot (sub x p) n > 0.
Proof.
  intros H. unfold discards. rewrite H. cbn [existsb fst snd].
  rewrite orb_false_r, bool_decide_eq_true.
  destruct x, n, p. unfold negate, multiplyScalar. three_unfold. lra.
Qed.

(** X23. When [updateCrossing] reports a crossing for an object whose
    original material is an unclipped [MeshStandardNodeMaterial], the mesh
    and the clone get two distinct materials; that of the mesh discards
    exactly the fragments whose world position is behind the plane given to
    [updateCrossing], that of the clone exactly those in front of it. A
    fragment off the plane is discarded by exactly one of the two. *)
Theorem updateCrossing_clips_both_sides (next0 : nat) (orig : NodeMaterial)
    (n p : Vector3) (r : R) (st : t * Heap) :
  invariant next0 orig st ->
  class orig = MeshStandardNodeMaterial ->
  colorNode orig = [] ->
  fst (updateCrossing n p r st) = true ->
  let o' := fst (snd (updateCrossing n p r st)) in
  let hp' := snd (snd (updateCrossing n p r st)) in
  exists s d,
    material (mesh o') = Some s /\ material (clone o') = Some d /\ s <> d
    /\ forall x,
         (discards (mats hp' s) x = true <-> dot (sub x p) n < 0)
         /\ (discards (mats hp' d) x = true <-> dot (sub x p) n > 0).
Proof.
  intros Hinv Hclass Hcol Hfst. cbv zeta.
  destruct st as [o hp]. rewrite updateCrossing_fst in Hfst.
  apply bool_decide_eq_true in Hfst.
  destruct (updateCrossing_variants next0 orig n p r o hp Hinv Hclass Hcol Hfst)
    as (s & d & o' & hp' & -> & Hm & Hcl & Hsd & Hs & Hd).
  cbn [fst snd]. rewrite Hm, Hcl. cbn [material].
  exists s, d. repeat split; try assumption;
    try (apply discards_source; assumption); try (apply discards_dest; assumption);
    try (apply (discards_source _ n p); assumption);
    try (apply (discards_dest _ n p); assumption).
Qed.

Lemma updateCrossing_clips_both_sides_witness :
  let hp0 := mkHeap (fun _ => mkNodeMaterial MeshStandardNodeMaterial [] false) 1 in
  let st := (new (vec3 0 0 0) Quaternion_new 0 true, hp0) in
  let n := vec3 0 0 1 in
  let p := vec3 0 0 0 in
  let o' := fst (snd (updateCrossing n p 1 st)) in
  let hp' := snd (snd (updateCrossing n p 1 st)) in
  exists s d,
    material (mesh o') = Some s /\ material (clone o') = Some d /\ s <> d
    /\ forall x,
         (discards (mats hp' s) x = true <-> dot (sub x p) n < 0)
         /\ (discards (mats hp' d) x = true <-> dot (sub x p) n > 0).
Proof.
  apply (updateCrossing_clips_both_sides 1
           (mkNodeMaterial MeshStandardNodeMaterial [] false)
           (vec3 0 0 1) (vec3 0 0 0) 1
           (new (vec3 0 0 0) Quaternion_new 0 true,
            mkHeap (fun _ => mkNodeMaterial MeshStandardNodeMaterial [] false) 1)).
  - unfold invariant, new. cbn. split; [lia|]. split; [reflexivity|].
    split; [intros i Hi; lia|].
    split; [intros i [H|H]; discriminate|].
    split; [eexists; reflexivity|exact I].
  - reflexivity.
  - reflexivity.
  - rewrite updateCrossing_fst. apply bool_decide_eq_true. cbn. unfold dot, sub. cbn.
    replace ((0 - 0) * 0 + (0 - 0) * 0 + (0 - 0) * 1) with 0 by ring.
    rewrite Rabs_R0. lra.
Defined.

(** A second call with the same plane and radius changes nothing: no
    material is made or disposed. *)
Lemma updateCrossing_idempotent (n p : Vector3) (r : R) (st : t * Heap) :
  updateCrossing n p r (snd (updateCrossing n p r st)) = updateCrossing n p r st.
Proof.
  destruct st as [o hp].
  destruct (Rlt_dec (Rabs (dot (sub (position (mesh o)) p) n)) r) as [Hc|Hc].
  - destruct (updateCrossing_shape n p r o hp Hc)
      as (src & dst & cp & hp' & Hn & Hp & Heq).
    rewrite Heq. cbn [snd]. unfold updateCrossing at 1.
    cbn [_originalMaterial _sourceClipMaterial _destClipMaterial _crossingPortal mesh
         clone position quaternion material visible].
    rewrite bool_decide_eq_true_2 by exact Hc.
    rewrite Hn, Hp, !Vector3_equals_refl. reflexivity.
  - unfold updateCrossing at 2. rewrite bool_decide_eq_false_2 by exact Hc.
    cbn [snd]. unfold updateCrossing.
    cbn [_originalMaterial _sourceClipMaterial _destClipMaterial _crossingPortal mesh
         clone position quaternion material visible].
    rewrite bool_decide_eq_false_2 by exact Hc. reflexivity.
Qed.




End Clipping.

(** ** The first-person controller *)

Section Controller.

Import FPSController.

Lemma not_absorbed (y : R) : Rabs y <= 72057594037927936 -> absorbed y = false.
Proof. intros H. unfold absorbed. apply bool_decide_eq_false_2. lra. Qed.

Lemma while_yaw_above_spec (n : nat) : forall y,
  y <= 72057594037927936 ->
  y <= PI + PI * 2 * INR n ->
  exists (y' : R) (k : nat),
    while_yaw_above n y = Some y' /\ y' <= PI /\ (y <= PI -> y' = y)
    /\ (PI < y -> - PI < y') /\ y' = y - PI * 2 * INR k.
Proof.
  pose proof PI_RGT_0 as Hpi.
  induction n as [|n IH]; intros y Hmax Hy.
  - cbn in Hy. exists y, 0%nat. cbn [while_yaw_above].
    rewrite bool_decide_eq_false_2 by lra. cbn. repeat split; try lra.
  - cbn [while_yaw_above]. case_bool_decide as Hgt.
    + rewrite S_INR in Hy. unfold yaw_minus_turn.
      rewrite not_absorbed by (rewrite Rabs_pos_eq; lra).
      destruct (IH (y - PI * 2)) as (y' & k & E & H1 & H2 & H3 & H4); [lra|lra|].
      exists y', (S k). rewrite S_INR.
      split; [exact E|]. split; [exact H1|]. split; [lra|]. split; [|lra].
      intros _. destruct (Rle_dec (y - PI * 2) PI) as [Hle|Hnle].
      * rewrite (H2 Hle). lra.
      * apply H3. lra.
    + exists y, 0%nat. cbn. repeat split; try lra.
Qed.

Lemma while_yaw_below_spec (n : nat) : forall y,
  - 72057594037927936 <= y ->
  - PI - PI * 2 * INR n <= y ->
  exists (y' : R) (k : nat),
    while_yaw_below n y = Some y' /\ - PI <= y' /\ (- PI <= y -> y' = y)
    /\ (y < - PI -> y' < PI) /\ y' = y + PI * 2 * INR k.
Proof.
  pose proof PI_RGT_0 as Hpi.
  induction n as [|n IH]; intros y Hmin Hy.
  - cbn in Hy. exists y, 0%nat. cbn [while_yaw_below].
    rewrite bool_decide_eq_false_2 by lra. cbn. repeat split; try lra.
  - cbn [while_yaw_below]. case_bool_decide as Hlt.
    + rewrite S_INR in Hy. unfold yaw_plus_turn.
      rewrite not_absorbed by (rewrite Rabs_left; lra).
      destruct (IH (y + PI * 2)) as (y' & k & E & H1 & H2 & H3 & H4); [lra|lra|].
      exists y', (S k). rewrite S_INR.
      split; [exact E|]. split; [exact H1|]. split; [lra|]. split; [|lra].
      intros _. destruct (Rle_dec (- PI) (y + PI * 2)) as [Hle|Hnle].
      * rewrite (H2 Hle). lra.
      * apply H3. lra.
    + exists y, 0%nat. cbn. repeat split; try lra.
Qed.

(** Beyond 2^56 the loops never end: no number of turns gives a result. *)
Lemma while_yaw_above_absorbed (fuel : nat) (y : R) :
  y > 72057594037927936 -> while_yaw_above fuel y = None.
Proof.
  intros Hy. pose proof PI_4 as Hpi.
  induction fuel as [|fuel IH]; cbn [while_yaw_above];
    rewrite bool_decide_eq_true_2 by lra; [reflexivity|].
  unfold yaw_minus_turn, absorbed.
  rewrite bool_decide_eq_true_2 by (rewrite Rabs_pos_eq; lra). exact IH.
Qed.

Lemma while_yaw_below_absorbed (fuel : nat) (y : R) :
  y < - 72057594037927936 -> while_yaw_below fuel y = None.
Proof.
  intros Hy. pose proof PI_4 as Hpi.
  induction fuel as [|fuel IH]; cbn [while_yaw_below];
    rewrite bool_decide_eq_true_2 by lra; [reflexivity|].
  unfold yaw_plus_turn, absorbed.
  rewrite bool_decide_eq_true_2 by (rewrite Rabs_left; lra). exact IH.
Qed.

Lemma turns_bound (y : R) :
  exists n : nat, Rabs y <= PI + PI * 2 * INR n /\ INR n <= Rabs y / 6 + 1.
Proof.
  pose proof PI_RGT_0 as Hpi. pose proof PI2_3_2 as Hpi3. pose proof (Rabs_pos y) as Hy.
  set (r := Rabs y / (PI * 2)).
  assert (Hr : 0 <= r).
  { unfold r, Rdiv. apply Rmult_le_pos; [lra|]. apply Rlt_le, Rinv_0_lt_compat. lra. }
  destruct (archimed r) as [Hup1 Hup2].
  assert (Hz : (0 <= up r)%Z).
  { apply le_IZR. lra. }
  exists (Z.to_nat (up r)). rewrite INR_IZR_INZ, Z2Nat.id by exact Hz.
  assert (Hy' : Rabs y = r * (PI * 2)).
  { unfold r. field. lra. }
  split; [rewrite Hy'; nra|].
  assert (r <= Rabs y / 6); [|lra].
  replace (Rabs y / 6) with (r * (PI * 2) / 6) by (rewrite Hy'; reflexivity). nra.
Qed.

(** X25. [rotate] normalises the angles when the yaw to normalise, yaw -
    deltaX * mouseSensitivity, is at most 2^56 in magnitude: a number of
    loop turns of at most |yaw| / 6 + 1 suffices, and with it or more
    the yaw ends in [-PI, PI], differs from the yaw to normalise by a whole
    number of turns, the pitch ends in [-(PI/2 - 0.01), PI/2 - 0.01], and
    the position and the body are untouched. Beyond 2^56 the loop
    assignments change nothing and [rotate] does not return, whatever the
    number of turns allowed. *)
Theorem rotate_range (deltaX deltaY : R) (c : t) :
  let yaw0 := yaw c - deltaX * mouseSensitivity (options c) in
  (Rabs yaw0 <= 72057594037927936 ->
   exists fuel,
     INR fuel <= Rabs yaw0 / 6 + 1
     /\ forall more, exists c',
          rotate (fuel + more) deltaX deltaY c = Some c'
          /\ - PI <= yaw c' <= PI
          /\ - (PI / 2 - 0.01) <= pitch c' <= PI / 2 - 0.01
          /\ (exists k : Z, yaw c' = yaw0 + PI * 2 * IZR k)
          /\ position c' = position c /\ rigidBody c' = rigidBody c)
  /\ (Rabs yaw0 > 72057594037927936 ->
      forall fuel, rotate fuel deltaX deltaY c = None).
Proof.
  cbv zeta. set (y0 := yaw c - deltaX * mouseSensitivity (options c)).
  pose proof PI_RGT_0 as Hpi. pose proof PI_4 as Hpi4.
  assert (Hy0 : y0 <= Rabs y0 /\ - Rabs y0 <= y0).
  { split; [apply Rle_abs|]. pose proof (Rle_abs (- y0)) as H.
    rewrite Rabs_Ropp in H. lra. }
  split.
  - intros Hmax.
    destruct (turns_bound y0) as (n & Hn & Hfuel). exists n. split; [exact Hfuel|].
    intros more.
    assert (Hn' : Rabs y0 <= PI + PI * 2 * INR (n + more)).
    { rewrite plus_INR. pose proof (pos_INR more).
      assert (0 <= PI * 2 * INR more) by (apply Rmult_le_pos; lra). lra. }
    destruct (while_yaw_above_spec (n + more) y0)
      as (y1 & k1 & E1 & A1 & A2 & A3 & A4); [lra|lra|].
    assert (Hy1 : - PI - PI * 2 * INR (n + more) <= y1 /\ - 72057594037927936 <= y1).
    { destruct (Rle_dec y0 PI) as [Hle|Hnle].
      - rewrite (A2 Hle). lra.
      - pose proof (pos_INR (n + more)).
        assert (0 <= PI * 2 * INR (n + more)) by (apply Rmult_le_pos; lra).
        assert (- PI < y1) by (apply A3; lra). lra. }
    destruct (while_yaw_below_spec (n + more) y1 (proj2 Hy1) (proj1 Hy1))
      as (y2 & k2 & E2 & B1 & B2 & B3 & B4).
    unfold rotate. fold y0. rewrite E1, E2.
    eexists. split; [reflexivity|]. cbn [yaw pitch position rigidBody].
    split; [|split; [|split; [|split; reflexivity]]].
    + split; [exact B1|]. destruct (Rle_dec (- PI) y1) as [Hle|Hnle].
      * rewrite (B2 Hle). exact A1.
      * apply Rlt_le, B3. lra.
    + pose proof PI2_1. unfold Math_max, Math_min. split.
      * apply Rmax_l.
      * apply Rmax_lub; [lra|]. apply Rmin_l.
    + exists (Z.of_nat k2 - Z.of_nat k1)%Z. rewrite minus_IZR, <- !INR_IZR_INZ.
      rewrite B4, A4. ring.
  - intros Hbig fuel. unfold rotate. fold y0.
    destruct (Rle_dec 0 y0) as [Hpos|Hneg].
    + rewrite Rabs_pos_eq in Hbig by exact Hpos.
      rewrite while_yaw_above_absorbed by exact Hbig. reflexivity.
    + rewrite Rabs_left in Hbig by lra.
      assert (Hsome : while_yaw_above fuel y0 = Some y0).
      { destruct fuel; cbn [while_yaw_above]; rewrite bool_decide_eq_false_2 by lra;
          reflexivity. }
      rewrite Hsome, while_yaw_below_absorbed by lra. reflexivity.
Qed.

(** A turn of the mouse by 1000 pixels, and the call [rotate(-5e19, 0)]
    on a new controller, whose yaw is then 1e17. *)
Lemma rotate_range_witness :
  let c := new (vec3 0 1 5) DEFAULT_OPTIONS in
  (exists fuel c', rotate fuel 1000 0 c = Some c' /\ - PI <= yaw c' <= PI)
  /\ (forall fuel, rotate fuel (- 50000000000000000000) 0 c = None).
Proof.
  intros c. split.
  - destruct (proj1 (rotate_range 1000 0 c)) as (fuel & _ & H).
    { cbn. unfold Rabs. destruct Rcase_abs; lra. }
    destruct (H 0%nat) as (c' & E & Hr & _).
    exists (fuel + 0)%nat, c'. split; [exact E|exact Hr].
  - apply (proj2 (rotate_range (- 50000000000000000000) 0 c)).
    cbn. unfold Rabs. destruct Rcase_abs; lra.
Defined.

(** X26. The camera looks where the controller walks: the view direction
    (0,0,-1) turned by [getCameraQuaternion] has the height sin(pitch) and
    the horizontal part cos(pitch) times [getForwardDirection]. *)
Theorem camera_looks_forward (c : t) :
  applyQuaternion (vec3 0 0 (-1)) (getCameraQuaternion c)
  = vec3 (cos (pitch c) * vx (getForwardDirection c))
         (sin (pitch c))
         (cos (pitch c) * vz (getForwardDirection c)).
Proof.
  unfold getCameraQuaternion, getForwardDirection, setFromEulerYXZ.
  cbn [ex ey ez vx vy vz].
  replace (0 / 2) with 0 by lra. rewrite sin_0, cos_0.
  replace (sin (pitch c)) with (sin (2 * (pitch c / 2))) by (f_equal; lra).
  replace (cos (pitch c)) with (cos (2 * (pitch c / 2))) by (f_equal; lra).
  replace (sin (yaw c)) with (sin (2 * (yaw c / 2))) by (f_equal; lra).
  replace (cos (yaw c)) with (cos (2 * (yaw c / 2))) by (f_equal; lra).
  rewrite !sin_2a, !cos_2a.
  pose proof (sin2_cos2 (pitch c / 2)) as H1.
  pose proof (sin2_cos2 (yaw c / 2)) as H2. unfold Rsqr in *.
  set (s1 := sin (pitch c / 2)) in *. set (c1 := cos (pitch c / 2)) in *.
  set (s2 := sin (yaw c / 2)) in *. set (c2 := cos (yaw c / 2)) in *.
  three_unfold. apply vec3_eq; nsatz.
Qed.


Lemma normalised_input (x z : R) :
  let inputLen := sqrt (x * x + z * z) in
  let p := if bool_decide (inputLen > 1) then (x / inputLen, z / inputLen) else (x, z) in
  fst p * fst p + snd p * snd p <= 1.
Proof.
  cbv zeta. assert (H0 : 0 <= x * x + z * z) by nra.
  pose proof (sqrt_sqrt _ H0) as Hs. set (L := sqrt (x * x + z * z)) in *.
  case_bool_decide as HL; cbn [fst snd].
  - right. field_simplify_eq; [|lra]. nra.
  - assert (0 <= L) by apply sqrt_pos. nra.
Qed.

(** X27. The horizontal velocity that [update] leaves never exceeds the
    speed selected by the input (sprint or walk speed forward, backward
    speed backward, walk speed otherwise), whatever the strafe input, thanks
    to the normalisation of the input; the vertical component is the stored
    vertical velocity and the jump request is cleared. Without forward input
    the controller strafes at [strafeSpeed] times the input, as long as that
    does not exceed the walk speed. The speeds are not zero, as the code
    divides by them. *)
Theorem update_speed_bound (characterController : Vector3 -> Vector3 * bool)
    (deltaS : R) (c : t) :
  walkSpeed (options c) <> 0 ->
  sprintSpeed (options c) <> 0 ->
  backwardSpeed (options c) <> 0 ->
  let c' := update characterController deltaS c in
  let speed :=
    if bool_decide (inputForward c > 0) then
      if isSprinting c then sprintSpeed (options c) else walkSpeed (options c)
    else if bool_decide (inputForward c < 0) then backwardSpeed (options c)
    else walkSpeed (options c) in
  vx (velocity c') * vx (velocity c') + vz (velocity c') * vz (velocity c')
  <= speed * speed
  /\ vy (velocity c') = verticalVelocity c'
  /\ wantsJump c' = false
  /\ (inputForward c = 0 ->
      Rabs (inputRight c * strafeSpeed (options c)) <= Rabs (walkSpeed (options c)) ->
      vx (velocity c') = cos (yaw c) * inputRight c * strafeSpeed (options c)
      /\ vz (velocity c') = - sin (yaw c) * inputRight c * strafeSpeed (options c)).
Proof.
  intros Hw _ _. cbv zeta. split; [|split; [|split]].
  - unfold update.
    set (speed := if bool_decide (inputForward c > 0) then _ else _).
    set (p1 := if bool_decide (inputForward c <> 0) then _ else _).
    destruct p1 as [x1 z1].
    set (p2 := if bool_decide (inputRight c <> 0) then _ else _).
    destruct p2 as [x2 z2].
    pose proof (normalised_input x2 z2) as Hn. cbv zeta in Hn.
    set (p3 := if bool_decide (sqrt (x2 * x2 + z2 * z2) > 1) then _ else _) in *.
    destruct p3 as [x3 z3]. cbn [fst snd] in Hn.
    destruct (characterController _) as [m g].
    cbn [velocity vx vy vz].
    assert (0 <= speed * speed) by nra.
    replace (x3 * speed * (x3 * speed) + z3 * speed * (z3 * speed))
      with ((x3 * x3 + z3 * z3) * (speed * speed)) by ring.
    nra.
  - unfold update. repeat destruct (if bool_decide _ then _ else _ : R * R).
    destruct (characterController _). reflexivity.
  - unfold update. repeat destruct (if bool_decide _ then _ else _ : R * R).
    destruct (characterController _). reflexivity.
  - intros Hf Hs. unfold update. rewrite Hf.
    rewrite (bool_decide_eq_false_2 (0 > 0)) by lra.
    rewrite (bool_decide_eq_false_2 (0 < 0)) by lra.
    rewrite (bool_decide_eq_false_2 (0 <> 0)) by (intros H; apply H; reflexivity).
    cbn [andb vx vy vz].
    set (w := walkSpeed (options c)) in *. set (s := strafeSpeed (options c)) in *.
    set (r := inputRight c) in *.
    set (p2 := if bool_decide (r <> 0) then _ else _).
    assert (Hp2 : p2 = (cos (yaw c) * r * (s / w), - sin (yaw c) * r * (s / w))).
    { unfold p2. case_bool_decide as Hr.
      - f_equal; ring.
      - rewrite Hr. f_equal; ring. }
    rewrite Hp2.
    assert (Hq : cos (yaw c) * r * (s / w) * (cos (yaw c) * r * (s / w))
                 + - sin (yaw c) * r * (s / w) * (- sin (yaw c) * r * (s / w))
                 = (r * s / w) * (r * s / w)).
    { pose proof (sin2_cos2 (yaw c)) as H. unfold Rsqr in H.
      set (sn := sin (yaw c)) in *. set (cs := cos (yaw c)) in *.
      unfold Rdiv. nsatz. }
    rewrite Hq.
    assert (Hle : sqrt (r * s / w * (r * s / w)) <= 1).
    { fold (Rsqr (r * s / w)). rewrite sqrt_Rsqr_abs. unfold Rdiv. rewrite Rabs_mult, Rabs_inv.
      apply (Rmult_le_reg_r (Rabs w)); [apply Rabs_pos_lt; exact Hw|].
      rewrite Rmult_assoc, Rinv_l by (apply Rabs_no_R0; exact Hw). lra. }
    rewrite bool_decide_eq_false_2 by lra.
    destruct (characterController _) as [m g]. cbn [velocity vx vy vz].
    split; field; exact Hw.
Qed.

Lemma update_speed_bound_witness :
  let c := setSprinting true (setMoveInput 1 1 (new (vec3 0 1 5) DEFAULT_OPTIONS)) in
  let c' := update (fun m => (m, true)) (1 / 60) c in
  let speed :=
    if bool_decide (inputForward c > 0) then
      if isSprinting c then sprintSpeed (options c) else walkSpeed (options c)
    else if bool_decide (inputForward c < 0) then backwardSpeed (options c)
    else walkSpeed (options c) in
  vx (velocity c') * vx (velocity c') + vz (velocity c') * vz (velocity c')
  <= speed * speed
  /\ vy (velocity c') = verticalVelocity c'
  /\ wantsJump c' = false
  /\ (inputForward c = 0 ->
      Rabs (inputRight c * strafeSpeed (options c)) <= Rabs (walkSpeed (options c)) ->
      vx (velocity c') = cos (yaw c) * inputRight c * strafeSpeed (options c)
      /\ vz (velocity c') = - sin (yaw c) * inputRight c * strafeSpeed (options c)).
Proof.
  apply (update_speed_bound (fun m => (m, true)) (1 / 60)
           (setSprinting true (setMoveInput 1 1 (new (vec3 0 1 5) DEFAULT_OPTIONS))));
    cbn; lra.
Defined.

End Controller.

(** ** The portals, the player and the cube of the application *)

Section Application.

Import App.

Lemma outer_quaternion : setFromEuler (euler 0 0 0) = quat 0 0 0 1.
Proof.
  unfold setFromEuler. cbn. rewrite half_zero, sin_0, cos_0. apply quat_eq; ring.
Qed.

Lemma inner_quaternion : setFromEuler (euler 0 PI 0) = quat 0 1 0 0.
Proof.
  unfold setFromEuler. cbn. rewrite half_zero, sin_PI2, cos_PI2, sin_0, cos_0.
  apply quat_eq; ring.
Qed.

Lemma setupPortals_heap :
  setupPortals 2
  = Some (<[1%nat := Portal.set_linkedPortal newInnerPortal (Some 0%nat)]>
            (<[0%nat := Portal.set_linkedPortal newOuterPortal (Some 1%nat)]>
               (fun i => match i with O => newOuterPortal | _ => newInnerPortal end))).
Proof. reflexivity. Qed.

(** X28. Stepping through a portal is seamless. With the portals of
    [setupPortals], the camera that [getDestinationCameraTransform] gives
    for the portal of the player's world, from the player's camera position
    and orientation, is where [teleportThroughPortal] puts the player's
    camera: the positions are equal and the two quaternions turn every
    vector alike. This holds in both directions. *)
Theorem teleport_matches_portal_camera (st : Globals) :
  exists h,
    setupPortals 2 = Some h
    /\ let current := if isInInnerRoom st then innerPortal else outerPortal in
       let c := controller st in
       let c' := controller (teleportThroughPortal st) in
       let d := Portal.getDestinationCameraTransform h current
                  (FPSController.getCameraPosition c)
                  (FPSController.getCameraQuaternion c) in
       fst d = FPSController.getCameraPosition c'
       /\ forall v, applyQuaternion v (snd d)
                    = applyQuaternion v (FPSController.getCameraQuaternion c').
Proof.
  eexists. split; [exact setupPortals_heap|]. cbv zeta.
  unfold newInnerPortal, newOuterPortal.
  destruct st as [c inner last]. cbn [isInInnerRoom controller].
  unfold Portal.getDestinationCameraTransform, teleportThroughPortal, innerPortal,
    outerPortal.
  cbn [isInInnerRoom controller].
  destruct inner.
  - rewrite fn_lookup_insert. cbn [Portal._linkedPortal Portal.set_linkedPortal].
    rewrite fn_lookup_insert_ne by lia. rewrite fn_lookup_insert.
    cbn [Portal.position Portal.quaternion Portal.set_linkedPortal Portal.set_scene
         Portal.new fst snd].
    rewrite outer_quaternion, inner_quaternion, flipY_PI.
    unfold FPSController.getCameraPosition, FPSController.getCameraQuaternion,
      FPSController.setBounds, FPSController.teleport.
    cbn [FPSController.position FPSController.options FPSController.yaw
         FPSController.pitch].
    set (q := setFromEulerYXZ _). destruct q as [qx qy qz qw].
    destruct (FPSController.position c) as [x y z].
    set (eyeOffset := FPSController.playerHeight _ / 2 + _).
    split.
    + three_unfold. apply vec3_eq; cbn; ring.
    + intros [a b e]. three_unfold. apply vec3_eq; ring.
  - rewrite fn_lookup_insert_ne by lia. rewrite fn_lookup_insert.
    cbn [Portal._linkedPortal Portal.set_linkedPortal].
    rewrite fn_lookup_insert.
    cbn [Portal.position Portal.quaternion Portal.set_linkedPortal Portal.set_scene
         Portal.new fst snd].
    rewrite outer_quaternion, inner_quaternion, flipY_PI.
    unfold FPSController.getCameraPosition, FPSController.getCameraQuaternion,
      FPSController.setBounds, FPSController.teleport.
    cbn [FPSController.position FPSController.options FPSController.yaw
         FPSController.pitch].
    set (q := setFromEulerYXZ _). destruct q as [qx qy qz qw].
    destruct (FPSController.position c) as [x y z].
    set (eyeOffset := FPSController.playerHeight _ / 2 + _).
    split.
    + three_unfold. apply vec3_eq; cbn; ring.
    + intros [a b e]. three_unfold. apply vec3_eq; ring.
Qed.

Ltac app_constants :=
  unfold INNER_WORLD_OFFSET, INNER_PORTAL_Z, INNER_ROOM_DEPTH, OUTER_PORTAL_Z,
    DOOR_WIDTH, DOOR_HEIGHT, PUSH_CUBE_SIZE in *.

Ltac by_abs := unfold Rabs in *; repeat destruct Rcase_abs; lra.






Lemma updateCubeVisuals_body (pos : Vector3) (rot : Quaternion) (c : Cube) :
  pushCubeInInnerWorld (updateCubeVisuals pos rot c) = pushCubeInInnerWorld c
  /\ pushCubeBody (updateCubeVisuals pos rot c) = pushCubeBody c.
Proof.
  unfold updateCubeVisuals. cbv zeta.
  destruct (_ && _); [|destruct (pushCubeInInnerWorld c)]; split; reflexivity.
Qed.

Lemma updatePushableCube_cases (c : Cube) :
  (cubeCrosses c
   /\ updatePushableCube c
      = updateCubeVisuals (fst (pushCubeBody c)) (snd (pushCubeBody c))
          (if pushCubeInInnerWorld c then teleportCubeToOuter c
           else teleportCubeToInner c))
  \/ (~ cubeCrosses c
      /\ updatePushableCube c
         = updateCubeVisuals (fst (pushCubeBody c)) (snd (pushCubeBody c)) c).
Proof.
  unfold cubeCrosses, updatePushableCube. cbv zeta.
  destruct (pushCubeInInnerWorld c) eqn:Hw; cbn [negb].
  - destruct (_ && _ && _) eqn:E; [left|right]; (split; [|reflexivity]).
    + rewrite !andb_true_iff, !bool_decide_eq_true in E.
      destruct E as [[Hx [Hy1 Hy2]] [Hz1 Hz2]]. repeat split; lra.
    + intros (Hx & Hy & Hz).
      rewrite (bool_decide_eq_true_2 _ Hx) in E.
      rewrite (bool_decide_eq_true_2 (vy _ > 0)) in E by lra.
      rewrite (bool_decide_eq_true_2 (vy _ < _)) in E by lra.
      rewrite (bool_decide_eq_true_2 (vz _ > _)) in E by lra.
      rewrite (bool_decide_eq_true_2 (vz _ < _)) in E by lra.
      discriminate.
  - destruct (_ && _ && _ && _) eqn:E; [left|right]; (split; [|reflexivity]).
    + rewrite !andb_true_iff, !bool_decide_eq_true in E.
      destruct E as [[[Hx [Hy1 Hy2]] Hf] [Hz1 Hz2]]. repeat split; lra.
    + intros (Hx & Hy & Hf & Hz).
      rewrite (bool_decide_eq_true_2 _ Hx) in E.
      rewrite (bool_decide_eq_true_2 (vy _ > 0)) in E by lra.
      rewrite (bool_decide_eq_true_2 (vy _ < _)) in E by lra.
      rewrite (bool_decide_eq_true_2 (vz _ > 0)) in E by lra.
      rewrite (bool_decide_eq_true_2 (vz _ < _)) in E by lra.
      rewrite (bool_decide_eq_true_2 (vz _ > _)) in E by lra.
      discriminate.
Qed.

(** X30. The frame in which [updatePushableCube] teleports the cube draws
    it from the position read before the teleport: the mesh of the world of
    arrival is shown at the old position, which is in the coordinates of the
    world left, and the mesh of the world left is hidden, although the body
    is already at the new position. One call later, without any movement,
    the mesh of the world of arrival is at the new position, that of the
    world left is at the old one, and it is shown exactly when the cube
    still straddles the portal plane. *)
Theorem cube_visuals_on_teleport (c : Cube) :
  pushCubeInInnerWorld (updatePushableCube c) <> pushCubeInInnerWorld c ->
  let pos := fst (pushCubeBody c) in
  let c1 := updatePushableCube c in
  let c2 := updatePushableCube c1 in
  let pos1 := fst (pushCubeBody c1) in
  let here (k : Cube) :=
    if pushCubeInInnerWorld c1 then pushCubeMeshInner k else pushCubeMeshOuter k in
  let there (k : Cube) :=
    if pushCubeInInnerWorld c1 then pushCubeMeshOuter k else pushCubeMeshInner k in
  let portalZ :=
    if pushCubeInInnerWorld c then INNER_WORLD_OFFSET + INNER_PORTAL_Z
    else OUTER_PORTAL_Z in
  pos1 <> pos
  /\ mesh_visible (here c1) = true
  /\ mesh_position (here c1) = pos
  /\ mesh_visible (there c1) = false
  /\ pushCubeInInnerWorld c2 = pushCubeInInnerWorld c1
  /\ mesh_visible (here c2) = true
  /\ mesh_position (here c2) = pos1
  /\ mesh_position (there c2) = pos
  /\ mesh_visible (there c2)
     = bool_decide (Rabs (vz pos - portalZ) < PUSH_CUBE_SIZE / 2).
Proof.
  intros Hch. cbv zeta.
  destruct (updatePushableCube_cases c) as [[Hc E]|[_ E]].
  2:{ exfalso. apply Hch. rewrite E. apply updateCubeVisuals_body. }
  clear Hch.
  destruct c as [[[x y z] rot] inner mo mi]. unfold cubeCrosses in Hc.
  cbn [pushCubeBody pushCubeInInnerWorld fst snd vx vy vz] in *.
  destruct Hc as (Hx & Hy & Hz).
  destruct inner.
  - (* from the inner world to the outer one *)
    assert (E1 : updatePushableCube (mkCube (vec3 x y z, rot) true mo mi)
                 = mkCube (vec3 x y (OUTER_PORTAL_Z
                                     + (z - (INNER_WORLD_OFFSET + INNER_PORTAL_Z))), rot)
                     false (mkCubeMesh (vec3 x y z) rot true)
                     (mkCubeMesh (mesh_position mi) (mesh_quaternion mi) false)).
    { rewrite E. unfold teleportCubeToOuter, updateCubeVisuals.
      cbn [pushCubeBody pushCubeInInnerWorld fst snd vx vy vz].
      rewrite (bool_decide_eq_false_2 (Rabs (z - OUTER_PORTAL_Z) < _))
        by (app_constants; by_abs).
      rewrite andb_false_r. reflexivity. }
    rewrite E1. cbn [pushCubeBody pushCubeInInnerWorld fst snd].
    destruct (updatePushableCube_cases
                (mkCube (vec3 x y (OUTER_PORTAL_Z
                                   + (z - (INNER_WORLD_OFFSET + INNER_PORTAL_Z))), rot)
                   false (mkCubeMesh (vec3 x y z) rot true)
                   (mkCubeMesh (mesh_position mi) (mesh_quaternion mi) false)))
      as [[Hc2 _]|[_ E2]].
    { exfalso. unfold cubeCrosses in Hc2.
      cbn [pushCubeBody pushCubeInInnerWorld fst snd vx vy vz] in Hc2.
      app_constants. lra. }
    rewrite E2. unfold updateCubeVisuals.
    cbn [pushCubeBody pushCubeInInnerWorld fst snd vx vy vz].
    rewrite (bool_decide_eq_true_2 (Rabs x < _)) by (app_constants; lra).
    rewrite (bool_decide_eq_true_2 (y < _)) by (app_constants; lra).
    rewrite (bool_decide_eq_true_2 (Rabs _ < _ + 0.5)) by (app_constants; by_abs).
    cbn [andb pushCubeInInnerWorld pushCubeMeshOuter pushCubeMeshInner mesh_visible
         mesh_position].
    split; [intros H; injection H; app_constants; lra|].
    split; [reflexivity|]. split; [reflexivity|]. split; [reflexivity|].
    split; [reflexivity|].
    split; [apply bool_decide_eq_true_2; app_constants; lra|].
    split; [apply vec3_eq; ring|].
    split; [apply vec3_eq; ring|].
    apply bool_decide_ext. app_constants. split; intros H; by_abs.
  - (* from the outer world to the inner one *)
    assert (E1 : updatePushableCube (mkCube (vec3 x y z, rot) false mo mi)
                 = mkCube (vec3 x y (INNER_WORLD_OFFSET + INNER_PORTAL_Z
                                     + (z - OUTER_PORTAL_Z)), rot)
                     true (mkCubeMesh (mesh_position mo) (mesh_quaternion mo) false)
                     (mkCubeMesh (vec3 x y z) rot true)).
    { rewrite E. unfold teleportCubeToInner, updateCubeVisuals.
      cbn [pushCubeBody pushCubeInInnerWorld fst snd vx vy vz].
      rewrite (bool_decide_eq_false_2
                 (Rabs (z - (INNER_WORLD_OFFSET + INNER_PORTAL_Z)) < _))
        by (app_constants; by_abs).
      rewrite andb_false_r. reflexivity. }
    rewrite E1. cbn [pushCubeBody pushCubeInInnerWorld fst snd].
    destruct (updatePushableCube_cases
                (mkCube (vec3 x y (INNER_WORLD_OFFSET + INNER_PORTAL_Z
                                   + (z - OUTER_PORTAL_Z)), rot)
                   true (mkCubeMesh (mesh_position mo) (mesh_quaternion mo) false)
                   (mkCubeMesh (vec3 x y z) rot true)))
      as [[Hc2 _]|[_ E2]].
    { exfalso. unfold cubeCrosses in Hc2.
      cbn [pushCubeBody pushCubeInInnerWorld fst snd vx vy vz] in Hc2.
      app_constants. lra. }
    rewrite E2. unfold updateCubeVisuals.
    cbn [pushCubeBody pushCubeInInnerWorld fst snd vx vy vz].
    rewrite (bool_decide_eq_true_2 (Rabs x < _)) by (app_constants; lra).
    rewrite (bool_decide_eq_true_2 (y < _)) by (app_constants; lra).
    rewrite (bool_decide_eq_true_2 (Rabs _ < _ + 0.5)) by (app_constants; by_abs).
    cbn [andb pushCubeInInnerWorld pushCubeMeshOuter pushCubeMeshInner mesh_visible
         mesh_position].
    split; [intros H; injection H; app_constants; lra|].
    split; [reflexivity|]. split; [reflexivity|]. split; [reflexivity|].
    split; [reflexivity|].
    split; [apply bool_decide_eq_true_2; app_constants; lra|].
    split; [apply vec3_eq; ring|].
    split; [apply vec3_eq; ring|].
    apply bool_decide_ext. app_constants. split; intros H; by_abs.
Qed.

Lemma cube_visuals_on_teleport_witness :
  let m := mkCubeMesh (vec3 0 0 0) Quaternion_new true in
  let c := mkCube (vec3 0 0.5 0.5, Quaternion_new) false m m in
  let pos := fst (pushCubeBody c) in
  let c1 := updatePushableCube c in
  let c2 := updatePushableCube c1 in
  let pos1 := fst (pushCubeBody c1) in
  let here (k : Cube) :=
    if pushCubeInInnerWorld c1 then pushCubeMeshInner k else pushCubeMeshOuter k in
  let there (k : Cube) :=
    if pushCubeInInnerWorld c1 then pushCubeMeshOuter k else pushCubeMeshInner k in
  let portalZ :=
    if pushCubeInInnerWorld c then INNER_WORLD_OFFSET + INNER_PORTAL_Z
    else OUTER_PORTAL_Z in
  pos1 <> pos
  /\ mesh_visible (here c1) = true
  /\ mesh_position (here c1) = pos
  /\ mesh_visible (there c1) = false
  /\ pushCubeInInnerWorld c2 = pushCubeInInnerWorld c1
  /\ mesh_visible (here c2) = true
  /\ mesh_position (here c2) = pos1
  /\ mesh_position (there c2) = pos
  /\ mesh_visible (there c2)
     = bool_decide (Rabs (vz pos - portalZ) < PUSH_CUBE_SIZE / 2).
Proof.
  apply (cube_visuals_on_teleport
           (mkCube (vec3 0 0.5 0.5, Quaternion_new) false
              (mkCubeMesh (vec3 0 0 0) Quaternion_new true)
              (mkCubeMesh (vec3 0 0 0) Quaternion_new true))).
  destruct (updatePushableCube_cases
              (mkCube (vec3 0 0.5 0.5, Quaternion_new) false
                 (mkCubeMesh (vec3 0 0 0) Quaternion_new true)
                 (mkCubeMesh (vec3 0 0 0) Quaternion_new true)))
    as [[_ E]|[Hn _]].
  - rewrite E. cbn [pushCubeInInnerWorld].
    rewrite (proj1 (updateCubeVisuals_body _ _ _)). cbn. discriminate.
  - exfalso. apply Hn. unfold cubeCrosses. cbn. app_constants. rewrite Rabs_R0.
    repeat split; lra.
Defined.

End Application.
